(** * astro-standard-site: record keys, comment threads, publishing, AT-URIs

    A shallow embedding of the algorithmic parts of the package:
    - [Tid]          : [generateTid] of src/publisher.ts;
    - [Comments]     : the comment aggregation of src/comments.ts;
    - [Publisher]    : [publishDocument] of src/publisher.ts;
    - [Verification] : the AT-URI helpers of src/verification.ts;
    - [CommentTrees], [FetchScenarios] : notions and examples for the
      comment trees and for [fetchComments];
    - [Lifecycle]    : [login], [getPdsFromDid] and [updateDocument] of
      src/publisher.ts;
    - [Rkey]         : [generateRkey] of src/publisher.ts;
    - [Content]      : [countWords] of src/content.ts. *)

From Stdlib Require Import ZArith QArith Qround Lia Bool Ascii String.
From stdpp Require Import gmap strings list fin_maps.

(* ===================================================================== *)
(** * Timestamp identifiers (src/publisher.ts, lines 158-178)            *)
(* ===================================================================== *)

Module Tid.

Local Open Scope Z_scope.

(** [const BASE32_SORTABLE = '234567abcdefghijklmnopqrstuvwxyz'] *)
Definition BASE32_SORTABLE : string := "234567abcdefghijklmnopqrstuvwxyz".

(** The JavaScript Number holding an integer [n]: the nearest value with a
    53-bit significand, ties to even.  Integers of magnitude below 2^53 are
    kept as they are.  (Overflow to Infinity needs a magnitude of 2^1024;
    a clock reading times 1000 stays below 2^63.) *)
Definition to_number (n : Z) : Z :=
  let a := Z.abs n in
  if a <? 2 ^ 53 then n
  else
    let e := Z.log2 a - 52 in
    let q := Z.shiftr a e in
    let r := Z.land a (Z.ones e) in
    let half := 2 ^ (e - 1) in
    let q' := if (half <? r) || ((r =? half) && Z.odd q) then q + 1 else q in
    Z.sgn n * Z.shiftl q' e.

(** [Date.now() * 1000]: the clock reading [ms] is an integer number of
    milliseconds; the product is a Number. *)
Definition now_of (ms : Z) : Z := to_number (ms * 1000).

(** [Math.floor(Math.random() * 1024)]: the draw [r] is a double in [0, 1),
    a dyadic rational; scaling by 1024 is exact. *)
Definition clockId_of (r : Q) : Z := Qfloor (r * 1024).

(** [((BigInt(now) << 10n) | BigInt(clockId)) & 0x7FFFFFFFFFFFFFFFn].
    BigInt arithmetic is unbounded, two's complement for the bit operations,
    which is what [Z.shiftl], [Z.lor] and [Z.land] compute. *)
Definition tid_value (now clockId : Z) : Z :=
  Z.land (Z.lor (Z.shiftl now 10) clockId) 0x7FFFFFFFFFFFFFFF.

(** [BASE32_SORTABLE[index] + encoded]; an index outside the string would
    read [undefined], which [+] prints as the word. *)
Definition prepend_symbol (index : Z) (encoded : string) : string :=
  match String.get (Z.to_nat index) BASE32_SORTABLE with
  | Some c => String c encoded
  | None => ("undefined" ++ encoded)%string
  end.

(** The loop [for (let i = 0; i < 13; i++) { ... }], [n] iterations left. *)
Fixpoint encode_loop (n : nat) (encoded : string) (remaining : Z) : string :=
  match n with
  | O => encoded
  | S n' =>
      let index := Z.land remaining 31 in
      encode_loop n' (prepend_symbol index encoded) (Z.shiftr remaining 5)
  end.

Definition encode_tid (tid : Z) : string := encode_loop 13 "" tid.

(** [generateTid()], as a function of what it reads: the clock, in
    milliseconds, and the draw of the random source. *)
Definition generateTid (ms : Z) (r : Q) : string :=
  let now := now_of ms in
  let clockId := clockId_of r in
  let tid := tid_value now clockId in
  encode_tid tid.

(** The validation pattern
    [^[234567abcdefghij][234567abcdefghijklmnopqrstuvwxyz]{12}$]
    (agent_docs/tid_format.md), as a decision procedure. *)
Definition in_class (cls : string) (c : ascii) : bool :=
  existsb (Ascii.eqb c) (list_ascii_of_string cls).

Definition matches_tid_regex (s : string) : bool :=
  match s with
  | String c rest =>
      in_class "234567abcdefghij" c
      && forallb (in_class "234567abcdefghijklmnopqrstuvwxyz")
           (list_ascii_of_string rest)
      && (String.length rest =? 12)%nat
  | EmptyString => false
  end.

(** Comparison of strings by [<]: code unit by code unit, a proper prefix
    first (ECMAScript IsLessThan on two strings). *)
Fixpoint string_lt (s1 s2 : string) : bool :=
  match s1, s2 with
  | EmptyString, EmptyString => false
  | EmptyString, String _ _ => true
  | String _ _, EmptyString => false
  | String c1 r1, String c2 r2 =>
      let n1 := N_of_ascii c1 in
      let n2 := N_of_ascii c2 in
      if (n1 <? n2)%N then true
      else if (n2 <? n1)%N then false
      else string_lt r1 r2
  end.

(** ** Notions used in the statements and in the proofs *)

(** The symbol of a five-bit group. *)
Definition symbol (i : Z) : ascii :=
  match String.get (Z.to_nat i) BASE32_SORTABLE with
  | Some c => c
  | None => "2"%char
  end.

(** The thirteen groups read from the most significant one. *)
Fixpoint msb_digits (n : nat) (x : Z) : string :=
  match n with
  | O => EmptyString
  | S n' =>
      String (symbol (Z.land (Z.shiftr x (5 * Z.of_nat n')) 31)) (msb_digits n' x)
  end.

End Tid.

(* ===================================================================== *)
(** * Comment aggregation (src/comments.ts)                              *)
(* ===================================================================== *)

Module Comments.

#[local] Set Warnings "-register-all".

Local Open Scope Z_scope.

(** ** Data *)

Record Author := mkAuthor {
  did : string;
  handle : string;
  displayName : option string;
  avatar : option string;
}.

Inductive Source := bluesky | leaflet | whitewind | unknown.

(** The time value of a [Date], what [getTime()] returns: a number of
    milliseconds, or [NaN] for an Invalid Date (a string that [new Date]
    could not parse), which is [None]. *)
Definition TimeValue := option Z.

(** The fields of [Comment] other than [replies].  [createdAt] is the time
    value of the [Date]. *)
Record CommentData := mkCommentData {
  uri : string;
  cid : string;
  text : string;
  author : Author;
  createdAt : TimeValue;
  source : Source;
  sourceUrl : string;
  parentUri : option string;
  likeCount : option Z;
  replyCount : option Z;
}.

(** [interface Comment]: the fields above and [replies?: Comment[]]. *)
Inductive Comment :=
  | mkComment (data : CommentData) (replies : option (list Comment)).

Definition data (c : Comment) : CommentData :=
  match c with mkComment d _ => d end.
Definition replies (c : Comment) : option (list Comment) :=
  match c with mkComment _ r => r end.

(** ** What the Bluesky API returns *)

(** A post view.  The two date strings are given by what [new Date] makes of
    them: [record_createdAt] is absent when [post.record?.createdAt] is
    falsy (missing or empty), and is otherwise the time value of that
    string; [indexedAt] is the time value of [post.indexedAt]. *)
Record PostView := mkPostView {
  post_uri : string;
  post_cid : string;
  post_author : Author;
  record_text : option string;
  record_createdAt : option TimeValue;
  record_reply_parent_uri : option string;
  indexedAt : TimeValue;
  post_likeCount : option Z;
  post_replyCount : option Z;
}.

(** A node of the thread returned by [getPostThread]: its [$type], and the
    optional [post] and [replies]. *)
Inductive Thread :=
  | mkThread (type_ : string) (post : option PostView)
             (thread_replies : option (list Thread)).

(** A call to a collaborator returns or throws. *)
Inductive result (A : Type) :=
  | Returns (a : A)
  | Throws (error : string).
Arguments Returns {A} a.
Arguments Throws {A} error.

(** The two calls of [AtpAgent] that are used, for an agent created with
    [{ service }]:
    [agent.api.app.bsky.feed.getPostThread({ uri, depth })], whose
    [data.thread] may be missing, and
    [agent.api.app.bsky.feed.searchPosts({ q, limit })], whose [data.posts]
    may be missing. *)
Record Api := mkApi {
  getPostThread : string -> string -> Z -> result (option Thread);
  searchPosts : string -> string -> Z -> result (option (list PostView));
}.

(** ** Conversions *)

(** A string in a condition: the empty string is falsy. *)
Definition truthy (s : option string) : option string :=
  match s with
  | Some EmptyString => None
  | other => other
  end.

(** [s.split('/').pop()]: what follows the last ['/']. *)
Fixpoint last_segment_from (acc : string) (s : string) : string :=
  match s with
  | EmptyString => acc
  | String c rest =>
      if Ascii.eqb c "/" then last_segment_from EmptyString rest
      else last_segment_from (acc ++ String c EmptyString)%string rest
  end.

Definition last_segment (s : string) : string := last_segment_from EmptyString s.

Definition bskyPostToComment (post : PostView) : Comment :=
  let author := mkAuthor (did (post_author post)) (handle (post_author post))
                         (displayName (post_author post))
                         (avatar (post_author post)) in
  let postId := last_segment (post_uri post) in
  let sourceUrl :=
    ("https://bsky.app/profile/" ++ handle (post_author post)
       ++ "/post/" ++ postId)%string in
  mkComment
    {| uri := post_uri post;
       cid := post_cid post;
       text := match truthy (record_text post) with
               | Some t => t
               | None => EmptyString
               end;
       author := author;
       createdAt := match record_createdAt post with
                    | Some t => t
                    | None => indexedAt post
                    end;
       source := bluesky;
       sourceUrl := sourceUrl;
       parentUri := truthy (record_reply_parent_uri post);
       likeCount := post_likeCount post;
       replyCount := post_replyCount post |}
    None.

Fixpoint processThread (thread : Thread) (maxDepth currentDepth : Z)
  : list Comment :=
  if currentDepth >? maxDepth then []
  else
    match thread with
    | mkThread _ post thread_replies =>
        let comments :=
          match post with
          | Some p => if currentDepth >? 0 then [bskyPostToComment p] else []
          | None => []
          end in
        match thread_replies with
        | Some rs =>
            (fix each (rs : list Thread) (comments : list Comment) :=
               match rs with
               | [] => comments
               | reply :: rs' =>
                   let replyComments :=
                     processThread reply maxDepth (currentDepth + 1) in
                   each rs' (comments ++ replyComments)
               end) rs comments
        | None => comments
        end
    end.

Definition default_service : string := "https://public.api.bsky.app".

(** [fetchBlueskyReplies]: a throwing call is caught, reported on the
    console, and gives the empty list. *)
Definition fetchBlueskyReplies (api : Api) (postUri : string)
    (maxDepth : option Z) (service : option string) : list Comment :=
  let maxDepth := default 3 maxDepth in
  let service := default default_service service in
  match getPostThread api service postUri maxDepth with
  | Returns None => []
  | Returns (Some (mkThread ty _ _ as thread)) =>
      if String.eqb ty "app.bsky.feed.defs#notFoundPost" then []
      else processThread thread maxDepth 0
  | Throws _ => []
  end.

(** [searchBlueskyMentions], with the same handling of a throwing call. *)
Definition searchBlueskyMentions (api : Api) (url : string)
    (maxResults : option Z) (service : option string) : list Comment :=
  let maxResults := default 25 maxResults in
  let service := default default_service service in
  match searchPosts api service url maxResults with
  | Returns None => []
  | Returns (Some posts) => map bskyPostToComment posts
  | Throws _ => []
  end.

(** ** Building the tree *)

(** A node object [{ ...comment, replies: [] }]: the copied fields and the
    array of its replies.  The node objects live in [commentMap]; the node
    stored under a key is the only one the second pass can obtain for that
    key, so a reference to a node is its key, and the arrays hold keys. *)
Record Node := mkNode {
  node_data : CommentData;
  node_replies : list string;
}.

(** The objects [buildCommentTree] allocates: the map and its nodes, and the
    array [rootComments]. *)
Record Store := mkStore {
  commentMap : gmap string Node;
  rootComments : list string;
}.

(** First pass: [commentMap.set(comment.uri, { ...comment, replies: [] })]. *)
Definition index_comments (comments : list Comment) : gmap string Node :=
  foldl (fun m comment => <[uri (data comment) := mkNode (data comment) []]> m)
        ∅ comments.

Definition push_reply (node : string) (parent : Node) : Node :=
  mkNode (node_data parent) (node_replies parent ++ [node]).

(** Second pass, one iteration. *)
Definition link_comment (st : Store) (comment : Comment) : Store :=
  let node := uri (data comment) in
  match truthy (parentUri (data comment)) with
  | Some p =>
      match commentMap st !! p with
      | Some _ =>
          mkStore (alter (push_reply node) p (commentMap st)) (rootComments st)
      | None => mkStore (commentMap st) (rootComments st ++ [node])
      end
  | None => mkStore (commentMap st) (rootComments st ++ [node])
  end.

Definition link_comments (st : Store) (comments : list Comment) : Store :=
  foldl link_comment st comments.

(** What [sort] makes of the value of [compare(x, y)]: [NaN] counts
    as [+0]. *)
Definition sort_compare {A} (compare : A -> A -> option Z) (x y : A) : Z :=
  default 0 (compare x y).

(** [Array.prototype.sort(compare)]: a stable sort; [x] goes before [y]
    exactly when [compare(x, y) <= 0] for the later [y].  This is the order
    the language fixes when [compare] is consistent, as [sortByDate] is
    when no date is invalid; otherwise the language leaves the order to the
    implementation, and the order below is one it may give. *)
Fixpoint sort_insert {A} (compare : A -> A -> option Z) (x : A) (l : list A)
  : list A :=
  match l with
  | [] => [x]
  | y :: l' =>
      if sort_compare compare x y <=? 0 then x :: y :: l'
      else y :: sort_insert compare x l'
  end.

Fixpoint array_sort {A} (compare : A -> A -> option Z) (l : list A) : list A :=
  match l with
  | [] => []
  | x :: l' => sort_insert compare x (array_sort compare l')
  end.

(** [comment.createdAt.getTime()] of the node behind a reference (every
    reference of an array is to a node of the map; for another string the
    value is of no account). *)
Definition getTime (m : gmap string Node) (ref : string) : TimeValue :=
  match m !! ref with
  | Some nd => createdAt (node_data nd)
  | None => Some 0
  end.

(** The difference of two time values: [NaN] as soon as one of them is. *)
Definition time_minus (a b : TimeValue) : option Z :=
  match a, b with
  | Some x, Some y => Some (x - y)
  | _, _ => None
  end.

(** [sortByDate = (a, b) => a.createdAt.getTime() - b.createdAt.getTime()] *)
Definition sortByDate (m : gmap string Node) (a b : string) : option Z :=
  time_minus (getTime m a) (getTime m b).

(** An array of the store: [rootComments], or the [replies] of a node. *)
Inductive ArrayRef :=
  | RootArray
  | RepliesOf (node : string).

Definition read_array (st : Store) (a : ArrayRef) : list string :=
  match a with
  | RootArray => rootComments st
  | RepliesOf u =>
      match commentMap st !! u with
      | Some nd => node_replies nd
      | None => []
      end
  end.

Definition write_array (st : Store) (a : ArrayRef) (l : list string) : Store :=
  match a with
  | RootArray => mkStore (commentMap st) l
  | RepliesOf u =>
      mkStore (alter (fun nd => mkNode (node_data nd) l) u (commentMap st))
              (rootComments st)
  end.

Fixpoint foldM {A St} (f : St -> A -> option St) (s : St) (l : list A)
  : option St :=
  match l with
  | [] => Some s
  | x :: l' =>
      match f s x with
      | Some s' => foldM f s' l'
      | None => None
      end
  end.

(** [sortTree(comments)]: sorts the array in place, then the [replies] of
    each of its elements that has some.  [fuel] bounds the depth of the
    recursion; [None] is the call stack running out, which happens when a
    node is reached again from itself. *)
Fixpoint sortTree (fuel : nat) (comments : ArrayRef) (st : Store) : option Store :=
  match fuel with
  | O => None
  | S fuel' =>
      let sorted :=
        array_sort (sortByDate (commentMap st)) (read_array st comments) in
      let st := write_array st comments sorted in
      foldM (fun st comment =>
               match read_array st (RepliesOf comment) with
               | [] => Some st
               | _ :: _ => sortTree fuel' (RepliesOf comment) st
               end)
            st sorted
  end.

(** The value the caller holds in the returned array: each node with its
    nested [replies], read to the end.  A structure in which a node is
    reached again from itself has no finite reading. *)
Fixpoint snapshot (fuel : nat) (m : gmap string Node) (refs : list string)
  : option (list Comment) :=
  match fuel with
  | O => None
  | S fuel' =>
      mapM (fun ref =>
              match m !! ref with
              | Some nd =>
                  match snapshot fuel' m (node_replies nd) with
                  | Some kids => Some (mkComment (node_data nd) (Some kids))
                  | None => None
                  end
              | None => None
              end)
           refs
  end.

Definition buildCommentTree (fuel : nat) (comments : list Comment)
  : option (list Comment) :=
  let commentMap := index_comments comments in
  let st := link_comments (mkStore commentMap []) comments in
  match sortTree fuel RootArray st with
  | Some st' => snapshot fuel (Comments.commentMap st') (rootComments st')
  | None => None
  end.

(** ** Fetching *)

Record FetchCommentsOptions := mkOptions {
  documentUri : option string;
  bskyPostUri : option string;
  canonicalUrl : option string;
  maxDepth : option Z;
  maxComments : option Z;
  service : option string;
}.

(** [array.slice(0, end)] for an integer [end]: a negative [end] counts from
    the end of the array. *)
Definition slice0 {A} (l : list A) (end_ : Z) : list A :=
  if end_ <? 0 then take (Z.to_nat (Z.max (Z.of_nat (length l) + end_) 0)) l
  else take (Z.to_nat end_) l.

(** The loop over [mentions]: a mention is pushed unless its [uri] is in
    [existingUris]. *)
Definition add_mention (acc : list Comment * gset string) (mention : Comment)
  : list Comment * gset string :=
  let '(allComments, existingUris) := acc in
  if decide (uri (data mention) ∈ existingUris) then acc
  else (allComments ++ [mention], existingUris ∪ {[uri (data mention)]}).

(** [allComments] when the two fetches are done. *)
Definition collectComments (api : Api) (options : FetchCommentsOptions)
  : list Comment :=
  let maxComments := default 100 (maxComments options) in
  let maxDepth := default 3 (maxDepth options) in
  let service := default default_service (service options) in
  let allComments : list Comment := [] in
  let allComments :=
    match truthy (bskyPostUri options) with
    | Some postUri =>
        allComments
          ++ fetchBlueskyReplies api postUri (Some maxDepth) (Some service)
    | None => allComments
    end in
  match truthy (canonicalUrl options) with
  | Some url =>
      let mentions :=
        searchBlueskyMentions api url
          (Some (Z.max 10 (maxComments - Z.of_nat (length allComments))))
          (Some service) in
      let existingUris : gset string :=
        list_to_set (map (fun c => uri (data c)) allComments) in
      let existingUris :=
        match truthy (bskyPostUri options) with
        | Some postUri => existingUris ∪ {[postUri]}
        | None => existingUris
        end in
      fst (foldl add_mention (allComments, existingUris) mentions)
  | None => allComments
  end.

(** [limitedComments = allComments.slice(0, maxComments)] *)
Definition limitedComments (api : Api) (options : FetchCommentsOptions)
  : list Comment :=
  slice0 (collectComments api options) (default 100 (maxComments options)).

Definition fetchComments (fuel : nat) (api : Api) (options : FetchCommentsOptions)
  : option (list Comment) :=
  buildCommentTree fuel (limitedComments api options).

(** ** Walking a tree *)

(** [flattenComments]: [walk] pushes [{ ...comment, replies: undefined }]
    onto [flat], then walks the replies, if any. *)
Fixpoint flatten_walk_comment (comment : Comment) (flat : list Comment)
  : list Comment :=
  match comment with
  | mkComment d rs =>
      let flat := flat ++ [mkComment d None] in
      match rs with
      | Some ((_ :: _) as rs) =>
          (fix walk (comments : list Comment) (flat : list Comment) :=
             match comments with
             | [] => flat
             | c :: comments' => walk comments' (flatten_walk_comment c flat)
             end) rs flat
      | _ => flat
      end
  end.

Fixpoint flatten_walk (comments : list Comment) (flat : list Comment)
  : list Comment :=
  match comments with
  | [] => flat
  | c :: comments' => flatten_walk comments' (flatten_walk_comment c flat)
  end.

Definition flattenComments (tree : list Comment) : list Comment :=
  flatten_walk tree [].

(** [countComments]: [walk] increments [count] for each comment, then walks
    the replies, if any. *)
Fixpoint count_walk_comment (comment : Comment) (count : Z) : Z :=
  match comment with
  | mkComment _ rs =>
      let count := count + 1 in
      match rs with
      | Some ((_ :: _) as rs) =>
          (fix walk (comments : list Comment) (count : Z) :=
             match comments with
             | [] => count
             | c :: comments' => walk comments' (count_walk_comment c count)
             end) rs count
      | _ => count
      end
  end.

Fixpoint count_walk (comments : list Comment) (count : Z) : Z :=
  match comments with
  | [] => count
  | c :: comments' => count_walk comments' (count_walk_comment c count)
  end.

Definition countComments (tree : list Comment) : Z := count_walk tree 0.

(** ** Notions used in the statements and in the proofs *)

(** Two nodes, maps or stores that differ in the order inside their arrays
    only: what [sortTree] may change. *)
Definition node_equiv (nd nd' : Node) : Prop :=
  node_data nd = node_data nd' /\ node_replies nd ≡ₚ node_replies nd'.

Definition map_equiv (m m' : gmap string Node) : Prop :=
  forall u, option_Forall2 node_equiv (m !! u) (m' !! u).

Definition store_equiv (st st' : Store) : Prop :=
  map_equiv (commentMap st) (commentMap st')
  /\ rootComments st ≡ₚ rootComments st'.

(** What [snapshot] asks of one reference. *)
Definition readable (fuel : nat) (m : gmap string Node) (ref : string) : Prop :=
  exists nd, m !! ref = Some nd /\ is_Some (snapshot fuel m (node_replies nd)).

(** The replies of a comment, none when the field is absent. *)
Definition kids_of (c : Comment) : list Comment :=
  match replies c with
  | Some l => l
  | None => []
  end.

Definition uri_of (c : Comment) : string := uri (data c).

(** The shape of the store when no two comments share an address: every
    reference of an array is to a node of the map, and no node is referenced
    twice, be it from [refs] or from the [replies] of the nodes. *)
Definition forest (m : gmap string Node) (refs : list string) : Prop :=
  NoDup refs
  /\ (forall r, r ∈ refs -> is_Some (m !! r))
  /\ (forall u nd, m !! u = Some nd ->
        uri (node_data nd) = u
        /\ NoDup (node_replies nd)
        /\ forall v, v ∈ node_replies nd -> is_Some (m !! v) /\ v ∉ refs)
  /\ (forall u u' nd nd' v,
        m !! u = Some nd -> m !! u' = Some nd' ->
        v ∈ node_replies nd -> v ∈ node_replies nd' -> u = u').

(** Two maps with the same keys, and the same fields under each key. *)
Definition same_data (m m' : gmap string Node) : Prop :=
  forall u, node_data <$> m !! u = node_data <$> m' !! u.

(** The second pass, when the comments done so far are those of [done]:
    the arrays refer to them only. *)
Definition linked (st : Store) (done : list string) : Prop :=
  forest (commentMap st) (rootComments st)
  /\ (forall r, r ∈ rootComments st -> r ∈ done)
  /\ (forall u nd v, commentMap st !! u = Some nd -> v ∈ node_replies nd -> v ∈ done).

(** The body of the loop of [sortTree]. *)
Definition sort_replies (fuel : nat) (st : Store) (comment : string)
  : option Store :=
  match read_array st (RepliesOf comment) with
  | [] => Some st
  | _ :: _ => sortTree fuel (RepliesOf comment) st
  end.

(** The comments A, B, C and D of the thread-build scenario. *)
Definition scenario_author : Author :=
  mkAuthor "did:plc:reader" "reader.bsky.social" None None.

Definition scenario_comment (u : string) (t : Z) (parent : option string)
  : Comment :=
  mkComment
    {| uri := u; cid := "bafyreib"; text := "a reply";
       author := scenario_author; createdAt := Some t; source := bluesky;
       sourceUrl := "https://bsky.app/profile/reader.bsky.social/post/x";
       parentUri := parent; likeCount := None; replyCount := None |}
    None.

Definition uri_A : string := "at://did:plc:reader/app.bsky.feed.post/a".
Definition uri_B : string := "at://did:plc:reader/app.bsky.feed.post/b".
Definition uri_C : string := "at://did:plc:reader/app.bsky.feed.post/c".
Definition uri_D : string := "at://did:plc:reader/app.bsky.feed.post/d".

Definition comment_A : Comment := scenario_comment uri_A 10 None.
Definition comment_B : Comment := scenario_comment uri_B 20 (Some uri_A).
Definition comment_C : Comment := scenario_comment uri_C 15 (Some uri_A).
Definition comment_D : Comment := scenario_comment uri_D 30 (Some uri_B).

(** A node of a returned tree: the comment with its array of replies. *)
Definition with_replies (c : Comment) (kids : list Comment) : Comment :=
  mkComment (data c) (Some kids).

Definition scenario_tree : list Comment :=
  [with_replies comment_A
     [with_replies comment_C [];
      with_replies comment_B [with_replies comment_D []]]].

(** The options of [fetchComments] after their defaults. *)
Definition cap_of (options : FetchCommentsOptions) : Z :=
  default 100 (maxComments options).
Definition depth_of (options : FetchCommentsOptions) : Z :=
  default 3 (maxDepth options).
Definition service_of (options : FetchCommentsOptions) : string :=
  default default_service (service options).

(** The replies pushed by the first fetch. *)
Definition threadReplies (api : Api) (options : FetchCommentsOptions)
  : list Comment :=
  match truthy (bskyPostUri options) with
  | Some postUri =>
      fetchBlueskyReplies api postUri (Some (depth_of options))
                          (Some (service_of options))
  | None => []
  end.

(** The array [mentions] of the second fetch. *)
Definition searchMentions (api : Api) (options : FetchCommentsOptions)
  : list Comment :=
  match truthy (canonicalUrl options) with
  | Some url =>
      searchBlueskyMentions api url
        (Some (Z.max 10 (cap_of options
                         - Z.of_nat (length (threadReplies api options)))))
        (Some (service_of options))
  | None => []
  end.

(** [existingUris] before the loop over the mentions. *)
Definition existingUris (api : Api) (options : FetchCommentsOptions)
  : gset string :=
  list_to_set (map uri_of (threadReplies api options))
  ∪ match truthy (bskyPostUri options) with
    | Some postUri => {[postUri]}
    | None => ∅
    end.

(** The mentions that the loop pushes. *)
Fixpoint accepted (existing : gset string) (mentions : list Comment)
  : list Comment :=
  match mentions with
  | [] => []
  | mention :: rest =>
      if decide (uri_of mention ∈ existing) then accepted existing rest
      else mention :: accepted (existing ∪ {[uri_of mention]}) rest
  end.

(** A comment without the field [replies], as the conversion from a post
    makes them. *)
Definition is_flat (c : Comment) : Prop := replies c = None.

(** Posts and collaborators for the examples. *)
Definition thread_type : string := "app.bsky.feed.defs#threadViewPost".
Definition root_uri : string := "at://did:plc:author/app.bsky.feed.post/root".
Definition x_uri : string := "at://did:plc:reader/app.bsky.feed.post/x".
Definition y_uri : string := "at://did:plc:reader/app.bsky.feed.post/y".
Definition z_uri : string := "at://did:plc:other/app.bsky.feed.post/z".

Definition post_of (u : string) (t : Z) (parent : option string) : PostView :=
  mkPostView u "bafyreib" scenario_author (Some "a reply") (Some (Some t))
             parent (Some t) None None.

Definition root_post : PostView := post_of root_uri 5 None.
Definition x_post : PostView := post_of x_uri 10 (Some root_uri).
Definition y_post : PostView := post_of y_uri 20 (Some x_uri).
Definition z_post : PostView := post_of z_uri 30 None.

Definition leaf (p : PostView) : Thread := mkThread thread_type (Some p) None.

(** A thread in which the reply x, which has the reply y, comes twice. *)
Definition repeated_thread : Thread :=
  mkThread thread_type (Some root_post)
    (Some [mkThread thread_type (Some x_post) (Some [leaf y_post]); leaf x_post]).

Definition repeated_api : Api :=
  mkApi (fun _ _ _ => Returns (Some repeated_thread))
        (fun _ _ _ => Returns (Some [])).

Definition repeated_options : FetchCommentsOptions :=
  mkOptions None (Some root_uri) None None (Some 3) None.

(** A thread with the replies x and y, and a search that finds z, x again
    and the root post. *)
Definition plain_thread : Thread :=
  mkThread thread_type (Some root_post)
    (Some [mkThread thread_type (Some x_post) (Some [leaf y_post])]).

Definition plain_api : Api :=
  mkApi (fun _ _ _ => Returns (Some plain_thread))
        (fun _ _ _ => Returns (Some [z_post; x_post; root_post])).

Definition plain_options : FetchCommentsOptions :=
  mkOptions None (Some root_uri) (Some "https://blog.example/post") None
            (Some 5) None.

(** The same thread, no search, and a negative cap. *)
Definition negative_cap_options : FetchCommentsOptions :=
  mkOptions None (Some root_uri) None None (Some (-1)) None.

(** A collaborator whose thread fetch throws, and one whose search throws. *)
Definition failing_thread_api : Api :=
  mkApi (fun _ _ _ => Throws "fetch failed")
        (fun _ _ _ => Returns (Some [z_post; root_post])).

Definition failing_search_api : Api :=
  mkApi (fun _ _ _ => Returns (Some plain_thread))
        (fun _ _ _ => Throws "fetch failed").

End Comments.

(* ===================================================================== *)
(** * Publishing a document (src/publisher.ts, lines 183-287)            *)
(* ===================================================================== *)

Module Publisher.

Local Open Scope Z_scope.

(** [COLLECTIONS.DOCUMENT] *)
Definition COLLECTIONS_DOCUMENT : string := "site.standard.document".

(** What a call returns or throws. *)
Inductive outcome (A : Type) :=
  | Returns (a : A)
  | Throws (error : string).
Arguments Returns {A} a.
Arguments Throws {A} error.

(** [PublishDocumentInput].  The interface declares [site], [title] and
    [publishedAt] mandatory for TypeScript callers; at run time a field of
    the object can be [undefined] all the same, which is [None] here. *)
Record PublishDocumentInput := mkInput {
  site : option string;
  title : option string;
  publishedAt : option string;
  path : option string;
  description : option string;
  updatedAt : option string;
  tags : option (list string);
  textContent : option string;
  content : option string;
  bskyPostRef : option (string * string);
}.

(** The values of the fields of a record. *)
Inductive Value :=
  | VString (s : string)
  | VStrings (l : list string)
  | VStrongRef (uri cid : string).

(** A record under construction: its entries, in the order of the object
    literal, an [undefined] value being [None]. *)
Definition entries := list (string * option Value).

Record PublishResult := mkResult {
  uri : string;
  cid : string;
}.

(** The argument of [createRecord]. *)
Record CreateRecordArgs := mkArgs {
  repo : string;
  collection : string;
  rkey : string;
  record : list (string * Value);
}.

(** The agent: what [agent.api.com.atproto.repo.createRecord] answers. *)
Record AtpAgent := mkAgent {
  agent_service : string;
  createRecord : CreateRecordArgs -> outcome PublishResult;
}.

(** The fields of [StandardSitePublisher] that [publishDocument] reads. *)
Record StandardSitePublisher := mkPublisher {
  agent : option AtpAgent;
  did : option string;
  pdsUrl : option string;
}.

(** A call that reaches the network. *)
Inductive NetworkCall :=
  | CreateRecordCall (args : CreateRecordArgs).

Definition not_logged_in : string := "Not logged in. Call login() first.".

(** [getDid()]: [if (!this.did) throw ...]; the empty string is falsy. *)
Definition getDid (self : StandardSitePublisher) : outcome string :=
  match did self with
  | Some EmptyString => Throws not_logged_in
  | Some d => Returns d
  | None => Throws not_logged_in
  end.

Definition getAgent (self : StandardSitePublisher) : outcome AtpAgent :=
  match agent self with
  | Some a => Returns a
  | None => Throws not_logged_in
  end.

(** The object literal [record] of [publishDocument]. *)
Definition document_record (input : PublishDocumentInput) : entries :=
  [ ("$type", Some (VString "site.standard.document"));
    ("site", VString <$> site input);
    ("title", VString <$> title input);
    ("publishedAt", VString <$> publishedAt input);
    ("path", VString <$> path input);
    ("description", VString <$> description input);
    ("updatedAt", VString <$> updatedAt input);
    ("tags", VStrings <$> tags input);
    ("textContent", VString <$> textContent input);
    ("content", VString <$> content input);
    ("bskyPostRef", (fun '(u, c) => VStrongRef u c) <$> bskyPostRef input) ]%string.

(** [Object.fromEntries(Object.entries(record).filter(([_, v]) => v !== undefined))] *)
Fixpoint remove_undefined (record : entries) : list (string * Value) :=
  match record with
  | [] => []
  | (k, Some v) :: rest => (k, v) :: remove_undefined rest
  | (_, None) :: rest => remove_undefined rest
  end.

(** [publishDocument(input)], with what [generateTid] reads: the clock [ms]
    and the draw [r].  The first component is the list of the calls that
    reached the network. *)
Definition publishDocument (self : StandardSitePublisher) (ms : Z) (r : Q)
    (input : PublishDocumentInput)
  : list NetworkCall * outcome PublishResult :=
  match getDid self with
  | Throws e => ([], Throws e)
  | Returns did =>
      match getAgent self with
      | Throws e => ([], Throws e)
      | Returns agent =>
          let record := document_record input in
          let cleanRecord := remove_undefined record in
          let rkey := Tid.generateTid ms r in
          let args := mkArgs did COLLECTIONS_DOCUMENT rkey cleanRecord in
          match createRecord agent args with
          | Returns data =>
              ([CreateRecordCall args], Returns (mkResult (uri data) (cid data)))
          | Throws e => ([CreateRecordCall args], Throws e)
          end
      end
  end.

(** ** Notions used in the statements and in the proofs *)

(** A publisher that is logged in, and a service that accepts every record. *)
Definition accepting_agent : AtpAgent :=
  mkAgent "https://pds.example"
    (fun args =>
       Returns (mkResult ("at://" ++ repo args ++ "/" ++ collection args
                            ++ "/" ++ rkey args)%string
                         "bafyreib")).

Definition logged_in : StandardSitePublisher :=
  mkPublisher (Some accepting_agent) (Some "did:plc:author"%string)
              (Some "https://pds.example"%string).

Definition logged_out : StandardSitePublisher := mkPublisher None None None.

(** An input in which [site], [title] and [publishedAt] are all absent. *)
Definition empty_input : PublishDocumentInput :=
  mkInput None None None None None None None None None None.

End Publisher.

(* ===================================================================== *)
(** * AT-URIs (src/verification.ts, lines 68-94)                         *)
(* ===================================================================== *)

Module Verification.

Local Open Scope N_scope.

(** A JavaScript string: its UTF-16 code units. *)
Definition jsstring := list N.

Definition units (s : string) : jsstring :=
  map N_of_ascii (list_ascii_of_string s).

(** [`at://${did}/site.standard.document/${rkey}`] *)
Definition getDocumentAtUri (did rkey : jsstring) : jsstring :=
  units "at://" ++ did ++ units "/site.standard.document/" ++ rkey.

(** [`at://${did}/site.standard.publication/${rkey}`] *)
Definition getPublicationAtUri (did rkey : jsstring) : jsstring :=
  units "at://" ++ did ++ units "/site.standard.publication/" ++ rkey.

(** The pieces of the regular expression of [parseAtUri]: literal
    characters, and a capturing group [(X+)] for a set of characters [X],
    greedy.  The pattern is anchored at both ends by [^] and [$]. *)
Inductive piece :=
  | Chars (s : jsstring)
  | GroupPlus (cls : N -> bool).

(** [[^/]]: any code unit but the slash. *)
Definition not_slash (c : N) : bool := negb (c =? 47).

(** [.] without the [s] flag: any code unit but a line terminator, that is
    LF, CR, U+2028 and U+2029. *)
Definition dot (c : N) : bool :=
  negb ((c =? 10) || (c =? 13) || (c =? 0x2028) || (c =? 0x2029)).

(** [/^at:\/\/([^/]+)\/([^/]+)\/(.+)$/] *)
Definition at_uri_pattern : list piece :=
  [ Chars (units "at://"); GroupPlus not_slash; Chars (units "/");
    GroupPlus not_slash; Chars (units "/"); GroupPlus dot ].

Fixpoint strip_prefix (s input : jsstring) : option jsstring :=
  match s, input with
  | [], _ => Some input
  | c :: s', d :: input' => if c =? d then strip_prefix s' input' else None
  | _ :: _, [] => None
  end.

(** A greedy [X+] followed by the rest of the pattern [k]: the longest run
    is tried first, then shorter ones; [taken] is what the group holds. *)
Fixpoint greedy_plus (cls : N -> bool)
    (k : jsstring -> option (list jsstring)) (taken input : jsstring)
  : option (list jsstring) :=
  let stop :=
    match taken with
    | [] => None
    | _ :: _ =>
        match k input with
        | Some captures => Some (taken :: captures)
        | None => None
        end
    end in
  match input with
  | c :: input' =>
      if cls c then
        match greedy_plus cls k (taken ++ [c]) input' with
        | Some captures => Some captures
        | None => stop
        end
      else stop
  | [] => stop
  end.

(** The backtracking match of an anchored pattern; the result is the list
    of the captured groups. *)
Fixpoint match_pattern (pattern : list piece) (input : jsstring)
  : option (list jsstring) :=
  match pattern with
  | [] =>
      match input with
      | [] => Some []
      | _ :: _ => None
      end
  | Chars s :: rest =>
      match strip_prefix s input with
      | Some input' => match_pattern rest input'
      | None => None
      end
  | GroupPlus cls :: rest => greedy_plus cls (match_pattern rest) [] input
  end.

Record AtUriParts := mkParts {
  did : jsstring;
  collection : jsstring;
  rkey : jsstring;
}.

Definition parseAtUri (uri : jsstring) : option AtUriParts :=
  match match_pattern at_uri_pattern uri with
  | Some [m1; m2; m3] => Some (mkParts m1 m2 m3)
  | _ => None
  end.

(** ** Notions used in the statements and in the proofs *)

Definition slash : N := 47.

Definition line_terminator (c : N) : Prop :=
  c = 10 \/ c = 13 \/ c = 0x2028 \/ c = 0x2029.

End Verification.

(* ===================================================================== *)
(** * Comment trees: notions for further properties                      *)
(* ===================================================================== *)

Module CommentTrees.

Import Comments.
Local Open Scope Z_scope.

(** One time value is a number, and so is the other, and it is not the
    greater one. *)
Definition time_le (a b : TimeValue) : Prop :=
  exists x y, a = Some x /\ b = Some y /\ x <= y.

(** Time values in ascending order, each element against the next one. *)
Fixpoint ascending_by {A} (key : A -> TimeValue) (l : list A) : Prop :=
  match l with
  | [] => True
  | x :: l' =>
      match l' with
      | [] => True
      | y :: _ => time_le (key x) (key y)
      end
      /\ ascending_by key l'
  end.

(** [comment.createdAt.getTime()] *)
Definition time_of (c : Comment) : TimeValue := createdAt (data c).

(** No Invalid Date among the comments, or among the nodes of a map. *)
Definition valid_dates (comments : list Comment) : Prop :=
  Forall (fun c => is_Some (createdAt (data c))) comments.

Definition valid_times (m : gmap string Node) : Prop :=
  forall u, is_Some (getTime m u).

(** The nodes of a tree, replies included, each with its own replies. *)
Fixpoint nodes_of (c : Comment) : list Comment :=
  c :: match c with
       | mkComment _ (Some rs) =>
           (fix each (rs : list Comment) : list Comment :=
              match rs with
              | [] => []
              | r :: rs' => nodes_of r ++ each rs'
              end) rs
       | mkComment _ None => []
       end.

Fixpoint all_nodes (tree : list Comment) : list Comment :=
  match tree with
  | [] => []
  | c :: tree' => nodes_of c ++ all_nodes tree'
  end.

(** The arrays reached from [refs] within [n] levels are in ascending
    order of the dates of the nodes they refer to. *)
Fixpoint deep_sorted (n : nat) (m : gmap string Node) (refs : list string)
  : Prop :=
  match n with
  | O => True
  | S n' =>
      ascending_by (getTime m) refs
      /\ forall r nd, r ∈ refs -> m !! r = Some nd ->
                      deep_sorted n' m (node_replies nd)
  end.

(** From [st] to [st']: the fields of the nodes are the same, the arrays
    hold the same references, and an array that was in order is unchanged. *)
Definition settled (st st' : Store) : Prop :=
  store_equiv st' st
  /\ forall a, ascending_by (getTime (commentMap st)) (read_array st a) ->
               read_array st' a = read_array st a.

(** [comment.parentUri && commentMap.has(comment.parentUri)] for the map of
    the comments [cs]. *)
Definition has_parent_in (cs : list Comment) (c : Comment) : bool :=
  match truthy (parentUri (data c)) with
  | Some p => bool_decide (p ∈ map uri_of cs)
  | None => false
  end.

(** The replies of a node were pushed for comments that name it as their
    parent. *)
Definition replies_name_parent (cs : list Comment) (m : gmap string Node)
  : Prop :=
  forall u nd v, m !! u = Some nd -> v ∈ node_replies nd ->
    exists c, c ∈ cs /\ uri_of c = v /\ truthy (parentUri (data c)) = Some u.

(** Every comment of [loop] names a comment of [loop] as its parent. *)
Definition closed_under_parent (loop : list Comment) : Prop :=
  forall c, c ∈ loop ->
    exists p, p ∈ loop /\ truthy (parentUri (data c)) = Some (uri_of p).

(** Following [parentUri] from [c] among the comments [cs] ends, within
    [n] comments, at one whose parent is absent, empty or the address of
    none of [cs]. *)
Fixpoint anchored (n : nat) (cs : list Comment) (c : Comment) : bool :=
  match n with
  | O => false
  | S n' =>
      match truthy (parentUri (data c)) with
      | None => true
      | Some p =>
          match List.find (fun x => String.eqb (uri_of x) p) cs with
          | None => true
          | Some parent => anchored n' cs parent
          end
      end
  end.

(** No comment of [cs] is in a parent loop or hangs from one: the chain of
    the parents of each ends within as many comments as [cs] has, which is
    all that a chain without a loop can take. *)
Definition no_parent_loop (cs : list Comment) : Prop :=
  forall c, c ∈ cs -> anchored (length cs) cs c = true.

(** Two comments that name each other as their parent. *)
Definition uri_E : string := "at://did:plc:reader/app.bsky.feed.post/e".
Definition uri_F : string := "at://did:plc:reader/app.bsky.feed.post/f".
Definition comment_E : Comment := scenario_comment uri_E 40 (Some uri_F).
Definition comment_F : Comment := scenario_comment uri_F 50 (Some uri_E).

(** A string without the character ['/']. *)
Definition has_no_slash (s : string) : Prop :=
  forall c, In c (list_ascii_of_string s) -> c <> "/"%char.

End CommentTrees.

(* ===================================================================== *)
(** * Fetching: collaborators for the examples                           *)
(* ===================================================================== *)

Module FetchScenarios.

Import Comments CommentTrees.
Local Open Scope Z_scope.

(** The [$type] of a thread node. *)
Definition type_of (thread : Thread) : string :=
  match thread with mkThread ty _ _ => ty end.

Definition v_uri : string := "at://did:plc:reader/app.bsky.feed.post/v".
Definition m1_uri : string := "at://did:plc:other/app.bsky.feed.post/m1".
Definition m2_uri : string := "at://did:plc:other/app.bsky.feed.post/m2".
Definition m3_uri : string := "at://did:plc:other/app.bsky.feed.post/m3".
Definition m4_uri : string := "at://did:plc:other/app.bsky.feed.post/m4".

Definition v_post : PostView := post_of v_uri 25 (Some root_uri).
Definition m1_post : PostView := post_of m1_uri 40 (Some v_uri).
Definition m2_post : PostView := post_of m2_uri 50 None.
Definition m3_post : PostView := post_of m3_uri 60 None.
Definition m4_post : PostView := post_of m4_uri 70 None.

(** The cap scenario: three replies in the thread (x, its reply y, and v),
    and a search that finds z, m1, x again, m2, m3 and m4: eight candidates
    for a cap of five. *)
Definition cap_thread : Thread :=
  mkThread thread_type (Some root_post)
    (Some [mkThread thread_type (Some x_post) (Some [leaf y_post]); leaf v_post]).

Definition cap_api : Api :=
  mkApi (fun _ _ _ => Returns (Some cap_thread))
        (fun _ _ _ =>
           Returns (Some [z_post; m1_post; x_post; m2_post; m3_post; m4_post])).

Definition cap_options : FetchCommentsOptions :=
  mkOptions None (Some root_uri) (Some "https://blog.example/post") None
            (Some 5) None.

(** A search that finds two posts that reply to each other, and z. *)
Definition e_post : PostView := post_of uri_E 40 (Some uri_F).
Definition f_post : PostView := post_of uri_F 50 (Some uri_E).

Definition loop_api : Api :=
  mkApi (fun _ _ _ => Returns None)
        (fun _ _ _ => Returns (Some [e_post; f_post; z_post])).

Definition loop_options : FetchCommentsOptions :=
  mkOptions None None (Some "https://blog.example/post") None (Some 5) None.

(** A thread fetch that throws, and a search that finds z and m2. *)
Definition thread_down_api : Api :=
  mkApi (fun _ _ _ => Throws "fetch failed")
        (fun _ _ _ => Returns (Some [z_post; m2_post])).

(** A thread in which the address of x comes twice, once as a reply to the
    root post and once as a reply to y, itself a reply to x; and a search
    that throws. *)
Definition x_under_y_post : PostView := post_of x_uri 10 (Some y_uri).

Definition looping_thread : Thread :=
  mkThread thread_type (Some root_post)
    (Some [mkThread thread_type (Some x_post) (Some [leaf y_post]);
           leaf x_under_y_post]).

Definition looping_api : Api :=
  mkApi (fun _ _ _ => Returns (Some looping_thread))
        (fun _ _ _ => Throws "fetch failed").

(** The store that [buildCommentTree] makes of the replies of that thread. *)
Definition looping_store : Store :=
  link_comments
    (mkStore (index_comments (processThread looping_thread 3 0)) [])
    (processThread looping_thread 3 0).

End FetchScenarios.

(* ===================================================================== *)
(** * Logging in and updating (src/publisher.ts, lines 38-76, 197-218,   *)
(**   292-325)                                                           *)
(* ===================================================================== *)

Module Lifecycle.

Import Publisher.
Local Open Scope string_scope.

(** [s.startsWith(p)] *)
Definition startsWith (s p : string) : bool := String.prefix p s.

Fixpoint string_drop (n : nat) (s : string) : string :=
  match n, s with
  | O, _ => s
  | S n', String _ s' => string_drop n' s'
  | S _, EmptyString => EmptyString
  end.

(** [s.replace(pattern, replacement)] for a string pattern: the first
    occurrence only. *)
Fixpoint replace_first (pattern replacement s : string) : string :=
  if String.prefix pattern s
  then replacement ++ string_drop (String.length pattern) s
  else match s with
       | EmptyString => EmptyString
       | String c s' => String c (replace_first pattern replacement s')
       end.

(** A string in a condition: [undefined] and the empty string are falsy. *)
Definition truthy (s : option string) : option string :=
  match s with
  | Some EmptyString => None
  | other => other
  end.

(** ** The DID document *)

(** An entry of [didDoc.service]. *)
Record ServiceEntry := mkEntry {
  entry_id : option string;
  entry_type : option string;
  serviceEndpoint : option string;
}.

(** The document: an object whose [service] is absent or an array. *)
Record DidDocument := mkDidDocument {
  doc_service : option (list ServiceEntry);
}.

(** What [fetch] resolves to: [res.ok] and [await res.json()]. *)
Record Response (A : Type) := mkResponse {
  ok : bool;
  json : outcome A;
}.
Arguments mkResponse {A} ok json.
Arguments ok {A} r.
Arguments json {A} r.

(** What the publisher reaches outside itself:
    - the request of [resolveHandle] for a handle (its address is a
      constant followed by [encodeURIComponent(handle)]); the body of the
      answer is read as [{ did }];
    - [fetch(url)] of a DID document;
    - [new AtpAgent({ service })];
    - [agent.login({ identifier, password })] of the agent made for a
      service. *)
Record Network := mkNetwork {
  resolve_handle_request : string -> outcome (Response string);
  fetch : string -> outcome (Response DidDocument);
  new_AtpAgent : string -> outcome AtpAgent;
  session_login : string -> string -> string -> outcome unit;
}.

Inductive NetworkEvent :=
  | ResolveHandleRequest (handle : string)
  | Fetch (url : string)
  | SessionLogin (service identifier password : string).

(** [resolveHandle(handle)] *)
Definition resolveHandle (net : Network) (handle : string)
  : list NetworkEvent * outcome string :=
  match resolve_handle_request net handle with
  | Throws e => ([ResolveHandleRequest handle], Throws e)
  | Returns res =>
      if ok res then ([ResolveHandleRequest handle], json res)
      else ([ResolveHandleRequest handle],
            Throws ("Failed to resolve handle: " ++ handle))
  end.

(** [s.type === 'AtprotoPersonalDataServer' || s.id === '#atproto_pds'] *)
Definition is_pds_service (s : ServiceEntry) : bool :=
  match entry_type s with
  | Some t => String.eqb t "AtprotoPersonalDataServer"
  | None => false
  end
  || match entry_id s with
     | Some i => String.eqb i "#atproto_pds"
     | None => false
     end.

(** [didDoc.service?.find(...)] *)
Definition find_pds_service (doc : DidDocument) : option ServiceEntry :=
  match doc_service doc with
  | Some entries => List.find is_pds_service entries
  | None => None
  end.

(** The end of [getPdsFromDid], once the document is at hand. *)
Definition pds_of_document (did : string) (doc : DidDocument) : outcome string :=
  match find_pds_service doc with
  | Some pdsService =>
      match truthy (serviceEndpoint pdsService) with
      | Some endpoint => Returns endpoint
      | None => Throws ("No PDS found in DID document for " ++ did)
      end
  | None => Throws ("No PDS found in DID document for " ++ did)
  end.

(** [const res = await fetch(url); if (!res.ok) throw ...;
    didDoc = await res.json()] *)
Definition fetch_document (net : Network) (did url : string)
  : list NetworkEvent * outcome DidDocument :=
  match fetch net url with
  | Throws e => ([Fetch url], Throws e)
  | Returns res =>
      if ok res then ([Fetch url], json res)
      else ([Fetch url], Throws ("Failed to resolve DID: " ++ did))
  end.

(** [getPdsFromDid(did)] *)
Definition getPdsFromDid (net : Network) (did : string)
  : list NetworkEvent * outcome string :=
  let fetched :=
    if startsWith did "did:plc:" then
      fetch_document net did ("https://plc.directory/" ++ did)
    else if startsWith did "did:web:" then
      let domain := replace_first "did:web:" "" did in
      fetch_document net did ("https://" ++ domain ++ "/.well-known/did.json")
    else ([], Throws ("Unsupported DID method: " ++ did)) in
  match fetched with
  | (events, Returns didDoc) => (events, pds_of_document did didDoc)
  | (events, Throws e) => (events, Throws e)
  end.

(** ** Logging in *)

(** [PublisherConfig] *)
Record PublisherConfig := mkConfig {
  config_service : option string;
  identifier : string;
  password : string;
  publication : option string;
}.

(** [login()]: the fields of the publisher afterwards, the requests made,
    and whether it returned or threw.  The fields are assigned one by one,
    as the steps succeed. *)
Definition login (net : Network) (config : PublisherConfig)
    (self : StandardSitePublisher)
  : StandardSitePublisher * list NetworkEvent * outcome unit :=
  let '(events1, resolved) :=
    if negb (startsWith (identifier config) "did:")
    then resolveHandle net (identifier config)
    else ([], Returns (identifier config)) in
  match resolved with
  | Throws e => (self, events1, Throws e)
  | Returns did =>
      let self := mkPublisher (agent self) (Some did) (pdsUrl self) in
      let '(events2, pds) :=
        match truthy (config_service config) with
        | Some service => ([], Returns service)
        | None => getPdsFromDid net did
        end in
      match pds with
      | Throws e => (self, (events1 ++ events2)%list, Throws e)
      | Returns pdsUrl =>
          let self := mkPublisher (agent self) (Some did) (Some pdsUrl) in
          match new_AtpAgent net pdsUrl with
          | Throws e => (self, (events1 ++ events2)%list, Throws e)
          | Returns agent =>
              let self := mkPublisher (Some agent) (Some did) (Some pdsUrl) in
              let events :=
                (events1 ++ events2 ++
                 [SessionLogin pdsUrl (identifier config) (password config)])%list in
              match session_login net pdsUrl (identifier config)
                                  (password config) with
              | Returns _ => (self, events, Returns tt)
              | Throws e => (self, events, Throws e)
              end
          end
      end
  end.

(** [getPdsUrl()] *)
Definition getPdsUrl (self : StandardSitePublisher) : outcome string :=
  match truthy (pdsUrl self) with
  | Some url => Returns url
  | None => Throws not_logged_in
  end.

(** ** Updating a document *)

(** The argument of [putRecord]. *)
Record PutRecordArgs := mkPutArgs {
  put_repo : string;
  put_collection : string;
  put_rkey : string;
  put_record : list (string * Value);
}.

(** The object literal [record] of [updateDocument]; [now] is
    [new Date().toISOString()]. *)
Definition updated_record (now : string) (input : PublishDocumentInput)
  : entries :=
  [ ("$type", Some (VString "site.standard.document"));
    ("site", VString <$> site input);
    ("title", VString <$> title input);
    ("publishedAt", VString <$> publishedAt input);
    ("path", VString <$> path input);
    ("description", VString <$> description input);
    ("updatedAt", Some (VString (match updatedAt input with
                                 | Some t => t
                                 | None => now
                                 end)));
    ("tags", VStrings <$> tags input);
    ("textContent", VString <$> textContent input);
    ("content", VString <$> content input);
    ("bskyPostRef", (fun '(u, c) => VStrongRef u c) <$> bskyPostRef input) ].

(** [updateDocument(rkey, input)], for what
    [agent.api.com.atproto.repo.putRecord] answers; the first component is
    the list of the [putRecord] calls made. *)
Definition updateDocument
    (putRecord : PutRecordArgs -> outcome PublishResult)
    (self : StandardSitePublisher) (now : string)
    (rkey : string) (input : PublishDocumentInput)
  : list PutRecordArgs * outcome PublishResult :=
  match getDid self with
  | Throws e => ([], Throws e)
  | Returns did =>
      match getAgent self with
      | Throws e => ([], Throws e)
      | Returns _ =>
          let record := updated_record now input in
          let cleanRecord := remove_undefined record in
          let args := mkPutArgs did COLLECTIONS_DOCUMENT rkey cleanRecord in
          match putRecord args with
          | Returns data => ([args], Returns (mkResult (uri data) (cid data)))
          | Throws e => ([args], Throws e)
          end
      end
  end.

(** ** Notions used in the statements *)

(** The entries before the first one that names the data server. *)
Definition none_is_pds (l : list ServiceEntry) : Prop :=
  Forall (fun s => is_pds_service s = false) l.

(** A network whose answers are all favourable, and one that rejects the
    password. *)
Definition example_document : DidDocument :=
  mkDidDocument
    (Some [mkEntry (Some "#other") (Some "Label") (Some "https://label.example");
           mkEntry (Some "#atproto_pds") (Some "AtprotoPersonalDataServer")
                   (Some "https://pds.example");
           mkEntry (Some "#atproto_pds") None (Some "https://late.example")]).

Definition example_agent (service : string) : AtpAgent :=
  mkAgent service
    (fun args =>
       Returns (mkResult ("at://" ++ repo args ++ "/" ++ collection args
                            ++ "/" ++ rkey args) "bafyreib")).

Definition example_network : Network :=
  mkNetwork
    (fun _ => Returns (mkResponse true (Returns "did:plc:author")))
    (fun _ => Returns (mkResponse true (Returns example_document)))
    (fun service => Returns (example_agent service))
    (fun _ _ _ => Returns tt).

Definition rejecting_network : Network :=
  mkNetwork
    (resolve_handle_request example_network)
    (fetch example_network)
    (new_AtpAgent example_network)
    (fun _ _ _ => Throws "Invalid identifier or password").

Definition handle_config : PublisherConfig :=
  mkConfig None "author.bsky.social" "app-password" None.

Definition direct_config : PublisherConfig :=
  mkConfig (Some "https://pds.example") "did:plc:author" "app-password" None.

End Lifecycle.

(* ===================================================================== *)
(** * Record keys from slugs (src/publisher.ts, lines 129-140)           *)
(* ===================================================================== *)

Module Rkey.

Import Verification.
Local Open Scope N_scope.

Definition dash : N := 45.

(** [[a-z0-9]] *)
Definition is_key_unit (c : N) : bool :=
  ((97 <=? c) && (c <=? 122)) || ((48 <=? c) && (c <=? 57)).

(** [.replace(/[^a-z0-9]+/g, '-')]: every maximal run of other code units
    becomes one dash.  [in_run] tells that the unit before belongs to a run
    whose dash is already written. *)
Fixpoint replace_runs (in_run : bool) (s : jsstring) : jsstring :=
  match s with
  | [] => []
  | c :: rest =>
      if is_key_unit c then c :: replace_runs false rest
      else if in_run then replace_runs true rest
      else dash :: replace_runs true rest
  end.

(** [.replace(/^-|-$/g, '')]: the first alternative matches a dash at the
    start, the second a dash at the end of what follows. *)
Definition strip_first_dash (s : jsstring) : jsstring :=
  match s with
  | c :: rest => if c =? dash then rest else s
  | [] => []
  end.

Fixpoint strip_last_dash (s : jsstring) : jsstring :=
  match s with
  | [] => []
  | c :: rest =>
      match rest with
      | [] => if c =? dash then [] else [c]
      | _ :: _ => c :: strip_last_dash rest
      end
  end.

(** [generateRkey(input)].  [toLowerCase] is the method of that name;
    [fallback] is the value of the time-based expression of the last
    line. *)
Definition generateRkey (toLowerCase : jsstring -> jsstring)
    (fallback : jsstring) (input : option jsstring) : jsstring :=
  match input with
  | Some (c :: s) =>
      take 64 (strip_last_dash (strip_first_dash
                 (replace_runs false (toLowerCase (c :: s)))))
  | _ => fallback
  end.

(** ** Notions used in the statements *)

(** No two dashes in a row. *)
Fixpoint separated (s : jsstring) : Prop :=
  match s with
  | a :: rest =>
      match rest with
      | b :: _ => ~ (a = dash /\ b = dash)
      | [] => True
      end /\ separated rest
  | [] => True
  end.

End Rkey.

(* ===================================================================== *)
(** * Counting words (src/content.ts, lines 192-194)                     *)
(* ===================================================================== *)

Module Content.

Import Verification.
Local Open Scope N_scope.

(** The class [\s]: the white space and the line terminators of the
    language. *)
Definition is_whitespace (c : N) : bool :=
  (c =? 0x09) || (c =? 0x0A) || (c =? 0x0B) || (c =? 0x0C) || (c =? 0x0D)
  || (c =? 0x20) || (c =? 0xA0) || (c =? 0x1680)
  || ((0x2000 <=? c) && (c <=? 0x200A))
  || (c =? 0x2028) || (c =? 0x2029) || (c =? 0x202F) || (c =? 0x205F)
  || (c =? 0x3000) || (c =? 0xFEFF).

(** [text.split(/\s+/)], from left to right: [word] is the piece read so
    far, and [in_run] tells that the unit before belongs to a separator
    already taken. *)
Fixpoint split_whitespace (in_run : bool) (word : jsstring) (text : jsstring)
  : list jsstring :=
  match text with
  | [] => [word]
  | c :: rest =>
      if is_whitespace c then
        if in_run then split_whitespace true word rest
        else word :: split_whitespace true [] rest
      else split_whitespace false (word ++ [c]) rest
  end.

(** [.filter(word => word.length > 0).length] *)
Definition words (pieces : list jsstring) : nat :=
  length (List.filter (fun word => (0 <? length word)%nat) pieces).

(** [countWords(text)] *)
Definition countWords (text : jsstring) : nat :=
  words (split_whitespace false [] text).

End Content.

(* ===================================================================== *)
(** * Properties of the timestamp identifiers                            *)
(* ===================================================================== *)

Section TidFacts.

Import Tid.
Local Open Scope Z_scope.

Lemma below_32_cases (P : Z -> bool) :
  forallb P (map Z.of_nat (seq 0 32)) = true ->
  forall i, 0 <= i < 32 -> P i = true.
Proof.
  intros Hall i Hi.
  rewrite forallb_forall in Hall. apply Hall.
  apply in_map_iff. exists (Z.to_nat i). split; [lia|].
  apply in_seq. lia.
Qed.

Lemma land_31_range x : 0 <= Z.land x 31 < 32.
Proof.
  change 31 with (Z.ones 5). rewrite Z.land_ones by lia.
  apply Z.mod_pos_bound. reflexivity.
Qed.

Lemma get_symbol i :
  0 <= i < 32 -> String.get (Z.to_nat i) BASE32_SORTABLE = Some (symbol i).
Proof.
  intros Hi.
  pose (P := fun i => match String.get (Z.to_nat i) BASE32_SORTABLE with
                      | Some c => Ascii.eqb c (symbol i) | None => false end).
  assert (HP : P i = true) by (apply below_32_cases; [vm_compute; reflexivity | exact Hi]).
  unfold P in HP. destruct (String.get (Z.to_nat i) BASE32_SORTABLE); [|discriminate].
  apply Ascii.eqb_eq in HP. congruence.
Qed.

Lemma prepend_symbol_land x encoded :
  prepend_symbol (Z.land x 31) encoded = String (symbol (Z.land x 31)) encoded.
Proof.
  unfold prepend_symbol. rewrite get_symbol by apply land_31_range. reflexivity.
Qed.

Lemma string_app_cons c (a b : string) :
  (String c a ++ b)%string = String c (a ++ b)%string.
Proof. reflexivity. Qed.

Lemma msb_digits_snoc n x :
  (msb_digits n (Z.shiftr x 5) ++ String (symbol (Z.land x 31)) EmptyString)%string
  = msb_digits (S n) x.
Proof.
  induction n as [|n IH].
  - simpl. rewrite Z.shiftr_0_r. reflexivity.
  - cbn [msb_digits] in *. rewrite string_app_cons, IH.
    rewrite Z.shiftr_shiftr by lia.
    replace (5 + 5 * Z.of_nat n) with (5 * Z.of_nat (S n)) by lia.
    reflexivity.
Qed.

Lemma string_app_assoc (a b c : string) :
  ((a ++ b) ++ c = a ++ (b ++ c))%string.
Proof.
  induction a as [|ch a IH]; [reflexivity|].
  now rewrite !string_app_cons, IH.
Qed.

(** The loop prepends the groups of [remaining], lowest first, so that the
    result reads most significant group first. *)
Lemma encode_loop_msb n : forall encoded x,
  encode_loop n encoded x = (msb_digits n x ++ encoded)%string.
Proof.
  induction n as [|n IH]; intros encoded x.
  - reflexivity.
  - cbn [encode_loop]. rewrite IH, prepend_symbol_land.
    rewrite <- msb_digits_snoc, string_app_assoc. reflexivity.
Qed.

Lemma string_app_empty_r (a : string) : (a ++ "")%string = a.
Proof.
  induction a as [|ch a IH]; [reflexivity|].
  now rewrite string_app_cons, IH.
Qed.

Lemma encode_tid_msb x : encode_tid x = msb_digits 13 x.
Proof. unfold encode_tid. rewrite encode_loop_msb. apply string_app_empty_r. Qed.

Lemma msb_digits_length n x : String.length (msb_digits n x) = n.
Proof. induction n as [|n IH]; simpl; [reflexivity | now rewrite IH]. Qed.

Lemma symbol_in_alphabet i :
  0 <= i < 32 -> in_class "234567abcdefghijklmnopqrstuvwxyz" (symbol i) = true.
Proof.
  intros Hi.
  apply (below_32_cases
           (fun i => in_class "234567abcdefghijklmnopqrstuvwxyz" (symbol i)));
    [vm_compute; reflexivity | exact Hi].
Qed.

Lemma symbol_in_low8 i : 0 <= i < 8 -> in_class "234567ab" (symbol i) = true.
Proof.
  intros Hi.
  assert (H : (8 <=? i) || in_class "234567ab" (symbol i) = true).
  { apply (below_32_cases
             (fun i => (8 <=? i) || in_class "234567ab" (symbol i)));
      [vm_compute; reflexivity | lia]. }
  apply orb_true_iff in H as [H|H]; [lia | exact H].
Qed.

Lemma symbol_in_low16 i : 0 <= i < 16 -> in_class "234567abcdefghij" (symbol i) = true.
Proof.
  intros Hi.
  assert (H : (16 <=? i) || in_class "234567abcdefghij" (symbol i) = true).
  { apply (below_32_cases
             (fun i => (16 <=? i) || in_class "234567abcdefghij" (symbol i)));
      [vm_compute; reflexivity | lia]. }
  apply orb_true_iff in H as [H|H]; [lia | exact H].
Qed.

Lemma msb_digits_alphabet n x :
  forallb (in_class "234567abcdefghijklmnopqrstuvwxyz")
          (list_ascii_of_string (msb_digits n x)) = true.
Proof.
  induction n as [|n IH]; [reflexivity|].
  cbn [msb_digits list_ascii_of_string forallb].
  rewrite IH, symbol_in_alphabet by apply land_31_range. reflexivity.
Qed.

Lemma mask_is_ones : 0x7FFFFFFFFFFFFFFF = Z.ones 63.
Proof. reflexivity. Qed.

(** The mask leaves a value of 63 bits, whatever the clock and the draw. *)
Lemma tid_value_range now clockId : 0 <= tid_value now clockId < 2 ^ 63.
Proof.
  unfold tid_value. rewrite mask_is_ones, Z.land_ones by lia.
  apply Z.mod_pos_bound. reflexivity.
Qed.

Lemma leading_group x : 0 <= x < 2 ^ 63 -> 0 <= Z.land (Z.shiftr x 60) 31 < 8.
Proof.
  intros Hx. change 31 with (Z.ones 5). rewrite Z.land_ones by lia.
  rewrite Z.shiftr_div_pow2 by lia.
  assert (0 <= x / 2 ^ 60 < 8).
  { split; [apply Z.div_pos; lia|]. apply Z.div_lt_upper_bound; lia. }
  rewrite Z.mod_small; lia.
Qed.

Lemma land_shiftl_small now c :
  0 <= c < 2 ^ 10 -> Z.land (Z.shiftl now 10) c = 0.
Proof.
  intros Hc. apply Z.bits_inj'. intros n Hn.
  rewrite Z.land_spec, Z.bits_0.
  destruct (Z.lt_ge_cases n 10) as [Hlt|Hge].
  - rewrite Z.shiftl_spec by lia. rewrite Z.testbit_neg_r by lia. reflexivity.
  - assert (Z.testbit c n = false) as ->; [|apply andb_false_r].
    destruct (Z.eq_dec c 0) as [->|Hnz]; [apply Z.bits_0|].
    apply Z.bits_above_log2; [lia|].
    assert (Z.log2 c < 10) by (apply Z.log2_lt_pow2; lia). lia.
Qed.

(** With a clock identifier of ten bits, [|] adds it below the shifted
    timestamp. *)
Lemma lor_shiftl_small now c :
  0 <= c < 2 ^ 10 -> Z.lor (Z.shiftl now 10) c = now * 2 ^ 10 + c.
Proof.
  intros Hc.
  pose proof (Z.add_lor_land (Z.shiftl now 10) c) as H.
  rewrite land_shiftl_small in H by exact Hc.
  rewrite <- (Z.shiftl_mul_pow2 now 10) by lia. lia.
Qed.

Lemma tid_value_clock_field now c :
  0 <= c < 2 ^ 10 -> Z.land (tid_value now c) 1023 = c.
Proof.
  intros Hc. unfold tid_value.
  rewrite lor_shiftl_small by exact Hc.
  rewrite mask_is_ones, Z.land_ones by lia.
  change 1023 with (Z.ones 10). rewrite Z.land_ones by lia.
  rewrite (Z.mod_eq (now * 2 ^ 10 + c) (2 ^ 63)) by lia.
  set (q := (now * 2 ^ 10 + c) / 2 ^ 63).
  replace (now * 2 ^ 10 + c - 2 ^ 63 * q)
    with (c + (now - 2 ^ 53 * q) * 2 ^ 10) by lia.
  rewrite Z.mod_add by lia. apply Z.mod_small. lia.
Qed.

(** A timestamp that fits the 53-bit field passes the mask unchanged. *)
Lemma tid_value_small now c :
  0 <= now < 2 ^ 53 -> 0 <= c < 2 ^ 10 -> tid_value now c = now * 2 ^ 10 + c.
Proof.
  intros Hn Hc. unfold tid_value.
  rewrite lor_shiftl_small by exact Hc.
  rewrite mask_is_ones, Z.land_ones by lia.
  apply Z.mod_small. lia.
Qed.

Lemma clockId_range (r : Q) :
  (0 <= r)%Q -> (r < 1)%Q -> 0 <= clockId_of r < 2 ^ 10.
Proof.
  intros H0 H1. unfold clockId_of. split.
  - change 0 with (Qfloor 0). apply Qfloor_resp_le.
    apply Qmult_le_0_compat; [exact H0 | discriminate].
  - assert (Hlt : (r * 1024 < inject_Z 1024)%Q).
    { change (inject_Z 1024) with (1 * 1024)%Q.
      apply Qmult_lt_compat_r; [reflexivity | exact H1]. }
    pose proof (Qfloor_le (r * 1024)) as Hfl.
    assert (Hz : (inject_Z (Qfloor (r * 1024)) < inject_Z 1024)%Q)
      by (eapply Qle_lt_trans; eassumption).
    rewrite <- Zlt_Qlt in Hz. exact Hz.
Qed.

Lemma to_number_small n : Z.abs n < 2 ^ 53 -> to_number n = n.
Proof.
  intros H. unfold to_number.
  destruct (Z.ltb_spec (Z.abs n) (2 ^ 53)); [reflexivity | lia].
Qed.

Lemma symbol_order i j :
  0 <= i -> i < j -> j < 32 ->
  (N_of_ascii (symbol i) <? N_of_ascii (symbol j))%N = true.
Proof.
  intros Hi Hij Hj.
  pose (P := fun i => forallb
     (fun j => (j <=? i) || (N_of_ascii (symbol i) <? N_of_ascii (symbol j))%N)
     (map Z.of_nat (seq 0 32))).
  assert (HP : P i = true)
    by (apply below_32_cases; [vm_compute; reflexivity | lia]).
  unfold P in HP.
  pose proof (below_32_cases _ HP j ltac:(lia)) as H.
  apply orb_true_iff in H as [H|H]; [lia | exact H].
Qed.

Lemma msb_digits_lt n : forall a b,
  a mod 2 ^ (5 * Z.of_nat n) < b mod 2 ^ (5 * Z.of_nat n) ->
  string_lt (msb_digits n a) (msb_digits n b) = true.
Proof.
  induction n as [|n IH]; intros a b Hlt.
  - change (5 * Z.of_nat 0) with 0 in Hlt. rewrite !Z.mod_1_r in Hlt. lia.
  - cbn [msb_digits string_lt].
    set (k := 5 * Z.of_nat n) in *.
    assert (Hk : 0 <= k) by lia.
    replace (5 * Z.of_nat (S n)) with (k + 5) in Hlt by lia.
    rewrite Z.pow_add_r in Hlt by lia.
    assert (Hp : 0 < 2 ^ k) by (apply Z.pow_pos_nonneg; lia).
    rewrite !Z.rem_mul_r in Hlt by lia.
    change 31 with (Z.ones 5). rewrite !Z.land_ones by lia.
    rewrite !Z.shiftr_div_pow2 by lia.
    set (da := (a / 2 ^ k) mod 2 ^ 5) in *.
    set (db := (b / 2 ^ k) mod 2 ^ 5) in *.
    assert (Hda : 0 <= da < 32) by (apply Z.mod_pos_bound; reflexivity).
    assert (Hdb : 0 <= db < 32) by (apply Z.mod_pos_bound; reflexivity).
    pose proof (Z.mod_pos_bound a (2 ^ k) Hp) as Ha.
    pose proof (Z.mod_pos_bound b (2 ^ k) Hp) as Hb.
    destruct (Z.lt_trichotomy da db) as [Hd|[Hd|Hd]].
    + rewrite symbol_order by lia. reflexivity.
    + rewrite Hd, N.ltb_irrefl. apply IH. rewrite Hd in Hlt. nia.
    + exfalso. nia.
Qed.

(** The encoding keeps the order of values of at most 65 bits. *)
Lemma encode_tid_lt a b :
  0 <= a -> a < b -> b < 2 ^ 65 -> string_lt (encode_tid a) (encode_tid b) = true.
Proof.
  intros Ha Hab Hb. rewrite !encode_tid_msb. apply msb_digits_lt.
  change (5 * Z.of_nat 13) with 65. rewrite !Z.mod_small; lia.
Qed.

Lemma encode_tid_head x :
  encode_tid x
  = String (symbol (Z.land (Z.shiftr x 60) 31)) (msb_digits 12 x).
Proof. rewrite encode_tid_msb. reflexivity. Qed.

(** A value of at most 63 bits is encoded as a string of the pattern. *)
Lemma encode_tid_matches v :
  0 <= v < 2 ^ 63 ->
  String.length (encode_tid v) = 13%nat /\ matches_tid_regex (encode_tid v) = true.
Proof.
  intros Hv. split.
  - rewrite encode_tid_msb. apply msb_digits_length.
  - rewrite encode_tid_head. cbn [matches_tid_regex].
    pose proof (leading_group v Hv) as Hlead.
    rewrite symbol_in_low16 by lia.
    rewrite msb_digits_alphabet, msb_digits_length. reflexivity.
Qed.

Lemma generateTid_matches ms r : matches_tid_regex (generateTid ms r) = true.
Proof. apply encode_tid_matches, tid_value_range. Qed.

(** C1: for every clock reading and every draw of the random source, the
    string returned by [generateTid] has length exactly 13 and matches
    [^[234567abcdefghij][234567abcdefghijklmnopqrstuvwxyz]{12}$]. *)
Theorem generateTid_well_formed (ms : Z) (r : Q) :
  String.length (generateTid ms r) = 13%nat
  /\ matches_tid_regex (generateTid ms r) = true.
Proof.
  unfold generateTid. apply encode_tid_matches, tid_value_range.
Qed.

(** C2: two calls whose clock readings satisfy t1 < t2, both timestamps
    fitting the 53-bit field, return strings in strictly increasing
    lexicographic order, whatever the two clock identifiers drawn; and the
    13-character encoding keeps the numeric order of 64-bit values. *)
Theorem generateTid_monotonic (t1 t2 : Z) (r1 r2 : Q) :
  0 <= t1 -> t1 < t2 -> t2 * 1000 < 2 ^ 53 ->
  (0 <= r1)%Q -> (r1 < 1)%Q -> (0 <= r2)%Q -> (r2 < 1)%Q ->
  string_lt (generateTid t1 r1) (generateTid t2 r2) = true
  /\ (forall a b, 0 <= a -> a < b -> b < 2 ^ 64 ->
        string_lt (encode_tid a) (encode_tid b) = true).
Proof.
  intros H1 H12 H2 Hr1 Hr1' Hr2 Hr2'. split.
  - unfold generateTid, now_of.
    rewrite !to_number_small by lia.
    pose proof (clockId_range r1 Hr1 Hr1') as Hc1.
    pose proof (clockId_range r2 Hr2 Hr2') as Hc2.
    rewrite !tid_value_small by lia.
    apply encode_tid_lt; lia.
  - intros a b Ha Hab Hb. apply encode_tid_lt; lia.
Qed.

Lemma generateTid_monotonic_witness :
  string_lt (generateTid 1700000000000 (1023 # 1024))
            (generateTid 1700000000001 0) = true
  /\ (forall a b, 0 <= a -> a < b -> b < 2 ^ 64 ->
        string_lt (encode_tid a) (encode_tid b) = true).
Proof.
  apply (generateTid_monotonic 1700000000000 1700000000001 (1023 # 1024) 0).
  - lia.
  - lia.
  - reflexivity.
  - discriminate.
  - reflexivity.
  - discriminate.
  - reflexivity.
Defined.

(** C6, as stated, fails: the draw 1023/1024 is below 1 and gives the clock
    identifier 1023, which is not strictly less than 1023. *)
Lemma clock_field_reaches_1023 :
  (0 <= 1023 # 1024)%Q /\ (1023 # 1024 < 1)%Q
  /\ Z.land (tid_value (now_of 1700000000000) (clockId_of (1023 # 1024))) 1023
     = 1023
  /\ ~ (Z.land (tid_value (now_of 1700000000000) (clockId_of (1023 # 1024))) 1023
        < 1023).
Proof.
  split; [discriminate|]. split; [reflexivity|].
  split; [vm_compute; reflexivity|].
  vm_compute. discriminate.
Qed.

(** C6, amended: for every draw of the random source (a number in [0, 1)),
    the clock-identifier field, the low 10 bits of the value composed by
    [generateTid], is [floor(draw * 1024)] and lies in [0, 1024): it is at
    most 1023. *)
Theorem clock_field_range (ms : Z) (r : Q) :
  (0 <= r)%Q -> (r < 1)%Q ->
  Z.land (tid_value (now_of ms) (clockId_of r)) 1023 = clockId_of r
  /\ 0 <= Z.land (tid_value (now_of ms) (clockId_of r)) 1023 < 1024.
Proof.
  intros H0 H1.
  pose proof (clockId_range r H0 H1) as Hc.
  rewrite tid_value_clock_field by exact Hc. split; [reflexivity | lia].
Qed.

Lemma clock_field_range_witness :
  Z.land (tid_value (now_of 1700000000000) (clockId_of (1 # 2))) 1023
    = clockId_of (1 # 2)
  /\ 0 <= Z.land (tid_value (now_of 1700000000000) (clockId_of (1 # 2))) 1023
       < 1024.
Proof.
  apply (clock_field_range 1700000000000 (1 # 2)).
  - discriminate.
  - reflexivity.
Defined.

(** C10: for every clock reading and every draw, the first character of the
    string returned by [generateTid] is one of the 8 symbols [234567ab]:
    it is the symbol of bits 64..60 of a value below 2^63, a group whose
    numeric value is below 8. *)
Theorem generateTid_first_char (ms : Z) (r : Q) :
  exists k rest,
    generateTid ms r = String (symbol k) rest
    /\ 0 <= k < 8
    /\ in_class "234567ab" (symbol k) = true.
Proof.
  unfold generateTid.
  set (v := tid_value (now_of ms) (clockId_of r)).
  pose proof (tid_value_range (now_of ms) (clockId_of r)) as Hv. fold v in Hv.
  pose proof (leading_group v Hv) as Hlead.
  exists (Z.land (Z.shiftr v 60) 31), (msb_digits 12 v).
  split; [apply encode_tid_head|]. split; [exact Hlead|].
  apply symbol_in_low8. exact Hlead.
Qed.

End TidFacts.

(* ===================================================================== *)
(** * Properties of the comment aggregation                              *)
(* ===================================================================== *)

Section CommentsFacts.

Import Comments.
Local Open Scope Z_scope.

Lemma elem_of_map {A B} (f : A -> B) (l : list A) (y : B) :
  y ∈ map f l <-> exists x, y = f x /\ x ∈ l.
Proof.
  rewrite list_elem_of_In, in_map_iff. split.
  - intros (x & <- & Hx). exists x. by rewrite list_elem_of_In.
  - intros (x & -> & Hx). exists x. by rewrite <- list_elem_of_In.
Qed.

Lemma Forall_sublist {A} (P : A -> Prop) (l1 l2 : list A) :
  l1 `sublist_of` l2 -> Forall P l2 -> Forall P l1.
Proof.
  induction 1 as [|x l1 l2 _ IH|x l1 l2 _ IH]; intros H; [done| |].
  - apply Forall_cons in H as [Hx H]. constructor; [done | by apply IH].
  - apply Forall_cons in H as [_ H]. by apply IH.
Qed.

(** ** Sorting *)

Lemma sort_insert_perm {A} (compare : A -> A -> option Z) x l :
  sort_insert compare x l ≡ₚ x :: l.
Proof.
  induction l as [|y l IH]; [reflexivity|].
  cbn [sort_insert]. destruct (sort_compare compare x y <=? 0); [reflexivity|].
  rewrite IH. apply perm_swap.
Qed.

Lemma array_sort_perm {A} (compare : A -> A -> option Z) l :
  array_sort compare l ≡ₚ l.
Proof.
  induction l as [|x l IH]; [reflexivity|].
  cbn [array_sort]. rewrite sort_insert_perm, IH. reflexivity.
Qed.

Lemma sort_insert_ext {A} (c1 c2 : A -> A -> option Z) x l :
  (forall y, y ∈ l -> c1 x y = c2 x y) ->
  sort_insert c1 x l = sort_insert c2 x l.
Proof.
  induction l as [|y l IH]; intros Heq; [reflexivity|].
  cbn [sort_insert]. unfold sort_compare. rewrite (Heq y) by (left).
  destruct (default 0 (c2 x y) <=? 0); [reflexivity|].
  f_equal. apply IH. intros z Hz. apply Heq. by right.
Qed.

Lemma array_sort_ext {A} (c1 c2 : A -> A -> option Z) l :
  (forall x y, x ∈ l -> y ∈ l -> c1 x y = c2 x y) ->
  array_sort c1 l = array_sort c2 l.
Proof.
  induction l as [|x l IH]; intros Heq; [reflexivity|].
  cbn [array_sort]. rewrite IH.
  - apply sort_insert_ext. intros y Hy. apply Heq; [left|].
    right. by rewrite <- (array_sort_perm c2 l).
  - intros a b Ha Hb. apply Heq; by right.
Qed.

(** ** Stores that differ in the order of their arrays only *)

Lemma node_equiv_refl nd : node_equiv nd nd.
Proof. by split. Qed.

Lemma map_equiv_refl m : map_equiv m m.
Proof.
  intros u. destruct (m !! u); constructor. apply node_equiv_refl.
Qed.

Lemma map_equiv_sym m m' : map_equiv m m' -> map_equiv m' m.
Proof.
  intros H u. destruct (H u) as [nd nd' [Hd Hr]|]; constructor.
  by split.
Qed.

Lemma map_equiv_trans m1 m2 m3 :
  map_equiv m1 m2 -> map_equiv m2 m3 -> map_equiv m1 m3.
Proof.
  intros H12 H23 u. specialize (H12 u). specialize (H23 u).
  destruct H12 as [a b [Hd Hr]|]; inversion H23 as [b' c [Hd' Hr'] Hb Hc|];
    subst; constructor.
  split; [congruence | by etrans].
Qed.

Lemma store_equiv_refl st : store_equiv st st.
Proof. split; [apply map_equiv_refl | reflexivity]. Qed.

Lemma store_equiv_trans s1 s2 s3 :
  store_equiv s1 s2 -> store_equiv s2 s3 -> store_equiv s1 s3.
Proof.
  intros [Hm Hr] [Hm' Hr']. split; [by eapply map_equiv_trans | by etrans].
Qed.

Lemma map_equiv_lookup m m' u nd :
  map_equiv m m' -> m !! u = Some nd ->
  exists nd', m' !! u = Some nd' /\ node_equiv nd nd'.
Proof.
  intros H Hu. specialize (H u). rewrite Hu in H.
  inversion H as [a nd' Heq Ha Hb|]; subst. by exists nd'.
Qed.

Lemma map_equiv_getTime m m' u : map_equiv m m' -> getTime m u = getTime m' u.
Proof.
  intros H. unfold getTime. destruct (H u) as [nd nd' [Hd _]|]; [|done].
  by rewrite Hd.
Qed.

Lemma read_array_equiv st st' a :
  store_equiv st st' -> read_array st a ≡ₚ read_array st' a.
Proof.
  intros [Hm Hr]. destruct a as [|u]; [exact Hr|].
  cbn [read_array]. destruct (Hm u) as [nd nd' [_ Hp]|]; done.
Qed.

Lemma write_array_equiv st a l :
  l ≡ₚ read_array st a -> store_equiv (write_array st a l) st.
Proof.
  intros Hl. destruct a as [|u]; cbn [read_array write_array] in *.
  - split; [apply map_equiv_refl | exact Hl].
  - split; [|reflexivity]. intros v. cbn [commentMap].
    destruct (decide (u = v)) as [->|Hne].
    + rewrite lookup_alter_eq. destruct (commentMap st !! v) as [nd|]; constructor.
      by split.
    + rewrite lookup_alter_ne by done. apply map_equiv_refl.
Qed.

(** ** Reading the structure and sorting it *)

Lemma snapshot_is_Some fuel m refs :
  is_Some (snapshot (S fuel) m refs) <-> Forall (readable fuel m) refs.
Proof.
  cbn [snapshot]. rewrite mapM_is_Some. apply Forall_proper; [|done].
  intros ref. unfold readable, compose. split.
  - intros [c Hc]. destruct (m !! ref) as [nd|]; [|done].
    exists nd. split; [done|].
    destruct (snapshot fuel m (node_replies nd)); [by eexists | done].
  - intros (nd & -> & [kids ->]). by eexists.
Qed.

Lemma snapshot_is_Some_equiv fuel : forall m m' refs refs',
  map_equiv m m' -> refs ≡ₚ refs' ->
  is_Some (snapshot fuel m refs) -> is_Some (snapshot fuel m' refs').
Proof.
  induction fuel as [|fuel IH]; intros m m' refs refs' Hm Hp.
  - cbn. by intros [? ?].
  - rewrite !snapshot_is_Some, <- Hp. intros HF.
    eapply Forall_impl; [exact HF|].
    intros ref (nd & Hnd & Hsome).
    destruct (map_equiv_lookup _ _ _ _ Hm Hnd) as (nd' & Hnd' & _ & Hr).
    exists nd'. split; [done|]. by eapply IH.
Qed.

Lemma foldM_invariant {A St} (f : St -> A -> option St) (I : St -> Prop)
    (Q : A -> Prop) l : forall s,
  (forall s x, I s -> Q x -> exists s', f s x = Some s' /\ I s') ->
  I s -> Forall Q l ->
  exists s', foldM f s l = Some s' /\ I s'.
Proof.
  induction l as [|x l IH]; intros s Hstep Hs Hl.
  - by exists s.
  - inversion Hl as [|? ? Hx Hl']; subst.
    destruct (Hstep s x Hs Hx) as (s1 & Hf & Hs1).
    cbn [foldM]. rewrite Hf. by apply IH.
Qed.

(** Where the structure below an array has a finite reading, [sortTree]
    returns, and only the order inside the arrays has changed. *)
Lemma sortTree_returns fuel : forall st a,
  is_Some (snapshot fuel (commentMap st) (read_array st a)) ->
  exists st', sortTree fuel a st = Some st' /\ store_equiv st' st.
Proof.
  induction fuel as [|fuel IH]; intros st a Hsome.
  - cbn in Hsome. by destruct Hsome.
  - apply snapshot_is_Some in Hsome. cbn [sortTree].
    set (sorted := array_sort (sortByDate (commentMap st)) (read_array st a)).
    assert (Hperm : sorted ≡ₚ read_array st a) by apply array_sort_perm.
    rewrite <- Hperm in Hsome.
    apply (foldM_invariant _ (fun s => store_equiv s st)
             (readable fuel (commentMap st))); [| |done].
    + intros s x Hs (nd & Hnd & Hkids).
      destruct (read_array s (RepliesOf x)) as [|k ks] eqn:Hread.
      * by exists s.
      * destruct (IH s (RepliesOf x)) as (s' & Hs' & Heq).
        { eapply snapshot_is_Some_equiv; [| |exact Hkids].
          - apply map_equiv_sym, Hs.
          - pose proof (read_array_equiv _ _ (RepliesOf x) Hs) as Hr.
            cbn [read_array] in Hr |- *. rewrite Hnd in Hr. by symmetry. }
        exists s'. split; [done|]. by eapply store_equiv_trans.
    + by apply write_array_equiv.
Qed.

(** ** Walking a tree: the accumulators *)

Lemma Comment_nested_ind (P : Comment -> Prop) :
  (forall d, P (mkComment d None)) ->
  (forall d kids, Forall P kids -> P (mkComment d (Some kids))) ->
  forall c, P c.
Proof.
  intros HN HS. fix IH 1. intros [d [kids|]]; [|apply HN].
  apply HS. induction kids as [|k kids IHk]; constructor; [apply IH | exact IHk].
Qed.

Lemma flatten_walk_comment_unfold c flat :
  flatten_walk_comment c flat
  = flatten_walk (kids_of c) (flat ++ [mkComment (data c) None]).
Proof.
  destruct c as [d [[|k ks]|]]; reflexivity.
Qed.

Lemma count_walk_comment_unfold c count :
  count_walk_comment c count = count_walk (kids_of c) (count + 1).
Proof.
  destruct c as [d [[|k ks]|]]; reflexivity.
Qed.

Lemma flatten_walk_acc_list cs :
  Forall (fun c => forall flat,
            flatten_walk_comment c flat = flat ++ flatten_walk_comment c []) cs ->
  forall flat, flatten_walk cs flat = flat ++ flatten_walk cs [].
Proof.
  induction 1 as [|c cs Hc _ IH]; intros flat.
  - cbn. by rewrite app_nil_r.
  - cbn [flatten_walk]. rewrite IH, Hc, (IH (flatten_walk_comment c [])).
    by rewrite app_assoc.
Qed.

Lemma flatten_walk_comment_acc c : forall flat,
  flatten_walk_comment c flat = flat ++ flatten_walk_comment c [].
Proof.
  induction c as [d|d kids IH] using Comment_nested_ind; intros flat.
  - reflexivity.
  - rewrite !flatten_walk_comment_unfold. cbn [kids_of replies data].
    rewrite (flatten_walk_acc_list kids IH).
    rewrite (flatten_walk_acc_list kids IH ([] ++ _)).
    by rewrite <- !app_assoc.
Qed.

Lemma flatten_walk_acc cs flat :
  flatten_walk cs flat = flat ++ flattenComments cs.
Proof.
  apply flatten_walk_acc_list, Forall_forall.
  intros c _. apply flatten_walk_comment_acc.
Qed.

(** Depth first, a parent before its replies. *)
Lemma flattenComments_cons c cs :
  flattenComments (c :: cs)
  = mkComment (data c) None :: flattenComments (kids_of c) ++ flattenComments cs.
Proof.
  unfold flattenComments at 1. cbn [flatten_walk].
  rewrite flatten_walk_acc, flatten_walk_comment_unfold, flatten_walk_acc.
  by rewrite <- app_assoc.
Qed.

Lemma flattenComments_app cs1 cs2 :
  flattenComments (cs1 ++ cs2) = flattenComments cs1 ++ flattenComments cs2.
Proof.
  induction cs1 as [|c cs1 IH]; [reflexivity|].
  rewrite <- app_comm_cons, !flattenComments_cons, IH.
  by rewrite <- app_comm_cons, app_assoc.
Qed.

Lemma count_walk_acc_list cs :
  Forall (fun c => forall n,
            count_walk_comment c n
            = n + Z.of_nat (length (flattenComments [c]))) cs ->
  forall n, count_walk cs n = n + Z.of_nat (length (flattenComments cs)).
Proof.
  induction 1 as [|c cs Hc _ IH]; intros n.
  - cbn. lia.
  - cbn [count_walk]. rewrite IH, Hc.
    change (c :: cs) with ([c] ++ cs).
    rewrite (flattenComments_app [c] cs), length_app. lia.
Qed.

Lemma count_walk_comment_acc c : forall n,
  count_walk_comment c n = n + Z.of_nat (length (flattenComments [c])).
Proof.
  induction c as [d|d kids IH] using Comment_nested_ind; intros n.
  - cbn. lia.
  - rewrite count_walk_comment_unfold, flattenComments_cons.
    cbn [kids_of replies data]. rewrite (count_walk_acc_list kids IH).
    change (flattenComments []) with (@nil Comment).
    rewrite app_nil_r. cbn [length]. lia.
Qed.

(** [countComments] counts what [flattenComments] lists. *)
Lemma countComments_flatten tree :
  countComments tree = Z.of_nat (length (flattenComments tree)).
Proof.
  unfold countComments. rewrite count_walk_acc_list; [lia|].
  apply Forall_forall. intros c _. apply count_walk_comment_acc.
Qed.

(** ** Forests *)

Lemma forest_equiv m m' refs refs' :
  map_equiv m m' -> refs ≡ₚ refs' -> forest m refs -> forest m' refs'.
Proof.
  intros Hm Hp (F1 & F2 & F3 & F4).
  pose proof (map_equiv_sym _ _ Hm) as Hm'.
  repeat split.
  - by rewrite <- Hp.
  - intros r Hr. rewrite <- Hp in Hr. destruct (F2 r Hr) as [nd Hnd].
    destruct (map_equiv_lookup _ _ _ _ Hm Hnd) as (nd' & -> & _). by eexists.
  - destruct (map_equiv_lookup _ _ _ _ Hm' H) as (nd0 & Hnd0 & Hd & _).
    destruct (F3 u nd0 Hnd0) as (Hu & _). congruence.
  - destruct (map_equiv_lookup _ _ _ _ Hm' H) as (nd0 & Hnd0 & _ & Hr).
    destruct (F3 u nd0 Hnd0) as (_ & Hnd & _). by rewrite Hr.
  - destruct (map_equiv_lookup _ _ _ _ Hm' H) as (nd0 & Hnd0 & _ & Hr).
    destruct (F3 u nd0 Hnd0) as (_ & _ & Hv). rewrite Hr in H0.
    destruct (Hv v H0) as [[x Hx] _].
    destruct (map_equiv_lookup _ _ _ _ Hm Hx) as (x' & -> & _). by eexists.
  - destruct (map_equiv_lookup _ _ _ _ Hm' H) as (nd0 & Hnd0 & _ & Hr).
    destruct (F3 u nd0 Hnd0) as (_ & _ & Hv). rewrite Hr in H0.
    rewrite <- Hp. by destruct (Hv v H0).
  - intros u u' nd nd' v Hu Hu' Hv Hv'.
    destruct (map_equiv_lookup _ _ _ _ Hm' Hu) as (nd0 & Hnd0 & _ & Hr).
    destruct (map_equiv_lookup _ _ _ _ Hm' Hu') as (nd0' & Hnd0' & _ & Hr').
    rewrite Hr in Hv. rewrite Hr' in Hv'. by eapply F4.
Qed.

(** Taking the first root out of a forest leaves a forest, whose roots are
    the replies of that root and the other roots. *)
Lemma forest_step m a rest nd :
  forest m (a :: rest) -> m !! a = Some nd ->
  forest (delete a m) (node_replies nd ++ rest).
Proof.
  intros (F1 & F2 & F3 & F4) Ha.
  apply NoDup_cons in F1 as [Ha_rest F1].
  destruct (F3 a nd Ha) as (_ & Hnd & Hkids).
  assert (Hkid_ne : forall v, v ∈ node_replies nd -> v <> a).
  { intros v Hv ->. destruct (Hkids a Hv) as [_ Hn]. apply Hn. by left. }
  repeat split.
  - apply NoDup_app. split; [done|]. split; [|done].
    intros v Hv Hr. destruct (Hkids v Hv) as [_ Hn]. apply Hn. by right.
  - intros r Hr. apply lookup_delete_is_Some.
    apply elem_of_app in Hr as [Hr|Hr].
    + split; [by apply not_eq_sym, Hkid_ne | by apply Hkids].
    + split; [intros ->; done | apply F2; by right].
  - apply lookup_delete_Some in H as [_ H]. by apply (F3 u nd0).
  - apply lookup_delete_Some in H as [_ H]. by apply (F3 u nd0).
  - apply lookup_delete_Some in H as [Hne H].
    destruct (F3 u nd0 H) as (_ & _ & Hv). destruct (Hv v H0) as [Hs Hn].
    apply lookup_delete_is_Some. split; [|done].
    intros ->. apply Hn. by left.
  - apply lookup_delete_Some in H as [Hne H].
    destruct (F3 u nd0 H) as (_ & _ & Hv). destruct (Hv v H0) as [Hs Hn].
    intros Hin. apply elem_of_app in Hin as [Hin|Hin].
    + apply Hne. by eapply F4.
    + apply Hn. by right.
  - intros u u' x x' v Hu Hu' Hv Hv'.
    apply lookup_delete_Some in Hu as [_ Hu].
    apply lookup_delete_Some in Hu' as [_ Hu']. by eapply F4.
Qed.

(** A node that no array refers to plays no part in the reading. *)
Lemma snapshot_delete a fuel : forall m refs,
  a ∉ refs ->
  (forall u nd, m !! u = Some nd -> a ∉ node_replies nd) ->
  snapshot fuel (delete a m) refs = snapshot fuel m refs.
Proof.
  induction fuel as [|fuel IH]; intros m refs Ha Hun; [reflexivity|].
  cbn [snapshot]. apply Forall_mapM_ext, Forall_forall.
  intros r Hr. assert (a <> r) by (intros ->; done).
  rewrite lookup_delete_ne by done.
  destruct (m !! r) as [nd|] eqn:Hnd; [|done].
  rewrite IH; [done | by eapply Hun | done].
Qed.

Lemma snapshot_app_inv fuel m l1 l2 ts :
  snapshot fuel m (l1 ++ l2) = Some ts ->
  exists t1 t2, ts = t1 ++ t2
    /\ snapshot fuel m l1 = Some t1 /\ snapshot fuel m l2 = Some t2.
Proof.
  destruct fuel as [|fuel]; [done|]. cbn [snapshot].
  rewrite mapM_Some. intros H.
  apply Forall2_app_inv_l in H as (t1 & t2 & H1 & H2 & ->).
  exists t1, t2. by rewrite !mapM_Some.
Qed.

Lemma snapshot_mono fuel : forall m refs ts,
  snapshot fuel m refs = Some ts -> snapshot (S fuel) m refs = Some ts.
Proof.
  induction fuel as [|fuel IH]; intros m refs ts; [done|].
  intros H. change (snapshot (S fuel) m refs) with
    (mapM (fun ref =>
             match m !! ref with
             | Some nd =>
                 match snapshot fuel m (node_replies nd) with
                 | Some kids => Some (mkComment (node_data nd) (Some kids))
                 | None => None
                 end
             | None => None
             end) refs) in H.
  apply mapM_Some in H. cbn [snapshot]. apply mapM_Some.
  eapply Forall2_impl; [exact H|].
  intros r c Hc. cbn beta in Hc. destruct (m !! r) as [nd|]; [|done].
  destruct (snapshot fuel m (node_replies nd)) as [kids|] eqn:Hk; [|done].
  apply IH in Hk. cbn [snapshot] in Hk. by rewrite Hk.
Qed.

Lemma snapshot_roots fuel m refs ts :
  (forall u nd, m !! u = Some nd -> uri (node_data nd) = u) ->
  snapshot fuel m refs = Some ts -> map uri_of ts = refs.
Proof.
  intros Huri. destruct fuel as [|fuel]; [done|]. cbn [snapshot].
  rewrite mapM_Some. induction 1 as [|r c refs ts Hc _ IH]; [done|].
  cbn [map]. rewrite IH. f_equal.
  destruct (m !! r) as [nd|] eqn:Hnd; [|done].
  destruct (snapshot fuel m (node_replies nd)); [|done].
  injection Hc as <-. by apply Huri.
Qed.

(** A forest has a finite reading, in which every node of the reading is a
    node of the map and no address comes twice. *)
Lemma snapshot_forest n : forall m refs fuel,
  (size m <= n)%nat -> forest m refs -> (n < fuel)%nat ->
  exists ts, snapshot fuel m refs = Some ts
    /\ (forall c, c ∈ flattenComments ts ->
          exists nd, m !! uri_of c = Some nd /\ c = mkComment (node_data nd) None)
    /\ NoDup (map uri_of (flattenComments ts)).
Proof.
  induction n as [|n IH]; intros m refs fuel Hsize Hforest Hfuel;
    (destruct fuel as [|fuel]; [lia|]);
    (destruct refs as [|a rest];
     [ exists []; split; [done|]; split; [by intros c Hc%elem_of_nil | constructor] |]);
    destruct Hforest as (F1 & F2 & F3 & F4);
    (destruct (F2 a) as [nd Ha]; [by left|]).
  - assert (m = ∅) as -> by (apply map_size_empty_iff; lia).
    by rewrite lookup_empty in Ha.
  - pose proof (forest_step m a rest nd (conj F1 (conj F2 (conj F3 F4))) Ha) as Hstep.
    destruct (IH (delete a m) (node_replies nd ++ rest) fuel)
      as (ts & Hts & Hnodes & Hnodup); [|done|lia|].
    { rewrite map_size_delete_Some by done. lia. }
    apply snapshot_app_inv in Hts as (t1 & t2 & -> & Ht1 & Ht2).
    apply NoDup_cons in F1 as [Ha_rest F1].
    destruct (F3 a nd Ha) as (Huri & _ & Hkids).
    assert (Hunref : forall u x, m !! u = Some x -> a ∉ node_replies x).
    { intros u x Hu Hin. destruct (F3 u x Hu) as (_ & _ & Hv).
      destruct (Hv a Hin) as [_ Hn]. apply Hn. by left. }
    rewrite snapshot_delete in Ht1; [|by eapply Hunref|done].
    rewrite snapshot_delete in Ht2; [|done|done].
    apply snapshot_mono in Ht2.
    exists (mkComment (node_data nd) (Some t1) :: t2). split; [|split].
    + cbn [snapshot] in Ht2 |- *. apply mapM_Some. constructor.
      * by rewrite Ha, Ht1.
      * by apply mapM_Some.
    + intros c. rewrite flattenComments_cons. cbn [data kids_of replies].
      rewrite <- flattenComments_app. intros [->|Hc]%elem_of_cons.
      * exists nd. unfold uri_of. cbn [data]. by rewrite Huri.
      * destruct (Hnodes c Hc) as (x & Hx & ->).
        apply lookup_delete_Some in Hx as [_ Hx]. by exists x.
    + rewrite flattenComments_cons. cbn [data kids_of replies map].
      rewrite <- flattenComments_app. apply NoDup_cons. split; [|done].
      unfold uri_of at 1. cbn [data]. rewrite Huri.
      intros (c & Hc & Hin)%elem_of_map.
      destruct (Hnodes c Hin) as (x & Hx & _). rewrite <- Hc in Hx.
      by rewrite lookup_delete_eq in Hx.
Qed.

(** ** The two passes of [buildCommentTree] *)

Lemma same_data_size m m' : same_data m m' -> size m = size m'.
Proof.
  intros H. rewrite <- !(size_dom (D := gset string)). f_equal.
  apply set_eq. intros u. rewrite !elem_of_dom.
  rewrite <- !(fmap_is_Some node_data). by rewrite H.
Qed.

Lemma map_equiv_same_data m m' : map_equiv m m' -> same_data m m'.
Proof.
  intros H u. destruct (H u) as [nd nd' [Hd _]|]; [|done].
  cbn. by rewrite Hd.
Qed.

Lemma index_comments_snoc cs c :
  index_comments (cs ++ [c])
  = <[uri_of c := mkNode (data c) []]> (index_comments cs).
Proof. unfold index_comments. by rewrite foldl_app. Qed.

Lemma index_comments_lookup cs u nd :
  index_comments cs !! u = Some nd ->
  node_replies nd = [] /\ uri (node_data nd) = u
  /\ exists c, c ∈ cs /\ node_data nd = data c.
Proof.
  induction cs as [|c cs IH] using rev_ind.
  - unfold index_comments. cbn. by rewrite lookup_empty.
  - rewrite index_comments_snoc.
    destruct (decide (uri_of c = u)) as [<-|Hne].
    + rewrite lookup_insert_eq. intros [= <-]. repeat split.
      exists c. split; [|done]. apply elem_of_app. right. by left.
    + rewrite lookup_insert_ne by done. intros H.
      destruct (IH H) as (Hr & Hu & c0 & Hc0 & Hd). repeat split; [done..|].
      exists c0. split; [|done]. apply elem_of_app. by left.
Qed.

Lemma index_comments_is_Some cs c :
  c ∈ cs -> is_Some (index_comments cs !! uri_of c).
Proof.
  induction cs as [|c' cs IH] using rev_ind; [by intros ?%elem_of_nil|].
  rewrite index_comments_snoc. intros Hc. apply lookup_insert_is_Some'.
  apply elem_of_app in Hc as [Hc|Hc%list_elem_of_singleton].
  - right. by apply IH.
  - left. by rewrite Hc.
Qed.

Lemma index_comments_size cs : (size (index_comments cs) <= length cs)%nat.
Proof.
  induction cs as [|c cs IH] using rev_ind; [done|].
  rewrite index_comments_snoc, length_app. cbn [length].
  pose proof (map_size_insert (uri_of c) (mkNode (data c) []) (index_comments cs)) as H.
  destruct (index_comments cs !! uri_of c); cbn in H; lia.
Qed.

Lemma link_comment_same_data st c :
  same_data (commentMap (link_comment st c)) (commentMap st).
Proof.
  intros u. unfold link_comment.
  destruct (truthy (parentUri (data c))) as [p|]; [|done].
  destruct (commentMap st !! p) as [ndp|] eqn:Hp; [|done].
  cbn [commentMap]. destruct (decide (p = u)) as [->|Hne].
  - rewrite lookup_alter_eq, Hp. done.
  - by rewrite lookup_alter_ne.
Qed.

Lemma linked_push_root st done x :
  linked st done -> x ∉ done -> is_Some (commentMap st !! x) ->
  linked (mkStore (commentMap st) (rootComments st ++ [x])) (x :: done).
Proof.
  intros ((F1 & F2 & F3 & F4) & Hroots & Hrep) Hx Hsome.
  split; [|split]; cbn [commentMap rootComments].
  - repeat split.
    + apply NoDup_app. split; [done|]. split; [|apply NoDup_singleton].
      intros r Hr ->%list_elem_of_singleton. by apply Hx, Hroots.
    + intros r [Hr| ->%list_elem_of_singleton]%elem_of_app; [by apply F2 | done].
    + by apply (F3 u nd).
    + by apply (F3 u nd).
    + destruct (F3 u nd H) as (_ & _ & Hv). by apply Hv.
    + destruct (F3 u nd H) as (_ & _ & Hv).
      intros [Hr| ->%list_elem_of_singleton]%elem_of_app.
      * by destruct (Hv v H0).
      * apply Hx. by eapply Hrep.
    + exact F4.
  - intros r [Hr| ->%list_elem_of_singleton]%elem_of_app; [right; by apply Hroots | by left].
  - intros u nd v Hu Hv. right. by eapply Hrep.
Qed.

Lemma linked_push_reply st done x p ndp :
  linked st done -> x ∉ done -> is_Some (commentMap st !! x) ->
  commentMap st !! p = Some ndp ->
  linked (mkStore (alter (push_reply x) p (commentMap st)) (rootComments st))
         (x :: done).
Proof.
  intros ((F1 & F2 & F3 & F4) & Hroots & Hrep) Hx Hsome Hp.
  assert (Hlook : forall u nd,
             alter (push_reply x) p (commentMap st) !! u = Some nd ->
             exists nd0, commentMap st !! u = Some nd0
               /\ node_data nd = node_data nd0
               /\ (forall v, v ∈ node_replies nd ->
                     v ∈ node_replies nd0 \/ (v = x /\ u = p))
               /\ (u <> p -> nd = nd0)
               /\ (u = p -> node_replies nd = node_replies nd0 ++ [x])).
  { intros u nd. destruct (decide (p = u)) as [<-|Hne].
    - rewrite lookup_alter_eq, Hp. intros [= <-]. exists ndp.
      split; [done|]. split; [done|]. split; [|split; done].
      cbn [push_reply node_replies].
      intros v [Hv| ->%list_elem_of_singleton]%elem_of_app; [by left | by right].
    - rewrite lookup_alter_ne by done. intros Hu. exists nd.
      repeat split; try done. by left. }
  assert (Hx_fresh : forall u nd, commentMap st !! u = Some nd -> x ∉ node_replies nd).
  { intros u nd Hu Hin. apply Hx. by eapply Hrep. }
  split; [|split]; cbn [commentMap rootComments].
  - split; [done|]. split; [|split].
    + intros r Hr. apply lookup_alter_is_Some. by apply F2.
    + intros u nd Hu. destruct (Hlook u nd Hu) as (nd0 & Hu0 & Hd & Hv & Hne & Heq).
      destruct (F3 u nd0 Hu0) as (Huri & Hnd & Hkids).
      split; [congruence|]. split.
      * destruct (decide (u = p)) as [->|Hup].
        -- rewrite (Heq eq_refl). apply NoDup_app. split; [done|].
           split; [|apply NoDup_singleton].
           intros v Hv' ->%list_elem_of_singleton. by eapply Hx_fresh.
        -- by rewrite (Hne Hup).
      * intros v Hin. destruct (Hv v Hin) as [Hv0|[-> ->]].
        -- destruct (Hkids v Hv0) as [Hs Hn].
           split; [by apply lookup_alter_is_Some | done].
        -- split; [by apply lookup_alter_is_Some|].
           intros Hr. by apply Hx, Hroots.
    + intros u u' nd nd' v Hu Hu' Hin Hin'.
      destruct (Hlook u nd Hu) as (nd0 & Hu0 & _ & Hv & _).
      destruct (Hlook u' nd' Hu') as (nd0' & Hu0' & _ & Hv' & _).
      destruct (Hv v Hin) as [Hv0|[Hvx Hup]], (Hv' v Hin') as [Hv0'|[Hvx' Hup']].
      * by eapply F4.
      * subst v. exfalso. exact (Hx_fresh _ _ Hu0 Hv0).
      * subst v. exfalso. exact (Hx_fresh _ _ Hu0' Hv0').
      * congruence.
  - intros r Hr. right. by apply Hroots.
  - intros u nd v Hu Hin.
    destruct (Hlook u nd Hu) as (nd0 & Hu0 & _ & Hv & _).
    destruct (Hv v Hin) as [Hv0|[-> _]]; [right; by eapply Hrep | by left].
Qed.

Lemma linked_link_comment st done c :
  linked st done -> uri_of c ∉ done -> is_Some (commentMap st !! uri_of c) ->
  linked (link_comment st c) (uri_of c :: done).
Proof.
  intros Hl Hx Hsome. unfold link_comment.
  destruct (truthy (parentUri (data c))) as [p|]; [|by apply linked_push_root].
  destruct (commentMap st !! p) as [ndp|] eqn:Hp; [|by apply linked_push_root].
  by eapply linked_push_reply.
Qed.

Lemma linked_link_comments cs : forall st done,
  linked st done ->
  NoDup (map uri_of cs) ->
  (forall c, c ∈ cs ->
     (uri_of c ∉ done) /\ is_Some (commentMap st !! uri_of c)) ->
  forest (commentMap (link_comments st cs)) (rootComments (link_comments st cs))
  /\ same_data (commentMap (link_comments st cs)) (commentMap st).
Proof.
  induction cs as [|c cs IH]; intros st done Hl Hnd Hcs.
  - split; [apply Hl | done].
  - cbn [map] in Hnd. apply NoDup_cons in Hnd as [Hc Hnd].
    destruct (Hcs c) as [Hfresh Hsome]; [by left|].
    cbn [link_comments foldl].
    destruct (IH (link_comment st c) (uri_of c :: done)) as [Hf Hsd].
    + by apply linked_link_comment.
    + done.
    + intros c' Hc'. destruct (Hcs c') as [Hfresh' Hsome']; [by right|]. split.
      * intros [Heq|Hin]%elem_of_cons; [|done].
        apply Hc. apply elem_of_map. by exists c'.
      * rewrite <- (fmap_is_Some node_data), link_comment_same_data.
        by rewrite fmap_is_Some.
    + split; [exact Hf|]. intros u.
      unfold link_comments in Hsd. rewrite Hsd. apply link_comment_same_data.
Qed.

(** ** [buildCommentTree] on comments with distinct addresses *)

Lemma buildCommentTree_distinct cs fuel :
  NoDup (map uri_of cs) -> (length cs < fuel)%nat ->
  exists tree,
    buildCommentTree fuel cs = Some tree
    /\ NoDup (map uri_of tree)
    /\ NoDup (map uri_of (flattenComments tree))
    /\ (forall c, c ∈ flattenComments tree ->
          exists c0, c0 ∈ cs /\ c = mkComment (data c0) None).
Proof.
  intros Hnd Hfuel. unfold buildCommentTree.
  set (st0 := mkStore (index_comments cs) []).
  destruct (linked_link_comments cs st0 []) as [Hforest Hdata].
  { split; [|split]; cbn [st0 commentMap rootComments].
    - repeat split.
      + constructor.
      + by intros r ?%elem_of_nil.
      + by apply index_comments_lookup in H as (_ & ? & _).
      + apply index_comments_lookup in H as (-> & _). constructor.
      + apply index_comments_lookup in H as (Hr & _). rewrite Hr in H0.
        by apply elem_of_nil in H0.
      + apply index_comments_lookup in H as (Hr & _). rewrite Hr in H0.
        by apply elem_of_nil in H0.
      + intros u u' nd nd' v Hu _ Hv _.
        apply index_comments_lookup in Hu as (Hr & _). rewrite Hr in Hv.
        by apply elem_of_nil in Hv.
    - by intros r ?%elem_of_nil.
    - intros u nd v Hu Hv.
      apply index_comments_lookup in Hu as (Hr & _). rewrite Hr in Hv.
      by apply elem_of_nil in Hv. }
  { done. }
  { intros c Hc. split; [by intros ?%elem_of_nil|].
    by apply index_comments_is_Some. }
  set (st1 := link_comments st0 cs) in *.
  assert (Hsize : (size (commentMap st1) <= length cs)%nat).
  { rewrite (same_data_size _ _ Hdata). apply index_comments_size. }
  destruct (snapshot_forest (length cs) (commentMap st1) (rootComments st1) fuel)
    as (ts0 & Hts0 & _); [done..|].
  destruct (sortTree_returns fuel st1 RootArray) as (st2 & -> & [Hm Hr]).
  { cbn [read_array]. by rewrite Hts0. }
  pose proof (forest_equiv _ _ _ _ (map_equiv_sym _ _ Hm) (symmetry Hr) Hforest)
    as Hforest2.
  pose proof (map_equiv_same_data _ _ Hm) as Hdata2.
  destruct (snapshot_forest (length cs) (commentMap st2) (rootComments st2) fuel)
    as (tree & Htree & Hnodes & Hnodup); [|done..|].
  { by rewrite (same_data_size _ _ Hdata2). }
  exists tree. split; [done|]. split; [|split; [done|]].
  - rewrite (snapshot_roots fuel (commentMap st2) (rootComments st2) tree);
      [apply Hforest2 | | done].
    intros u nd Hu. destruct Hforest2 as (_ & _ & F3 & _). by apply (F3 u nd).
  - intros c Hc. destruct (Hnodes c Hc) as (nd & Hlook & ->).
    pose proof (Hdata2 (uri_of (mkComment (node_data nd) None))) as E2.
    pose proof (Hdata (uri_of (mkComment (node_data nd) None))) as E1.
    rewrite Hlook in E2. rewrite <- E2 in E1. cbn [st0 commentMap] in E1.
    destruct (index_comments cs !! _) as [nd0|] eqn:Hnd0; [|done].
    apply index_comments_lookup in Hnd0 as (_ & _ & c0 & Hc0 & Hd0).
    exists c0. split; [done|]. cbn in E1. injection E1 as E1. congruence.
Qed.

Lemma buildCommentTree_count cs fuel tree :
  NoDup (map uri_of cs) -> (length cs < fuel)%nat ->
  buildCommentTree fuel cs = Some tree ->
  countComments tree <= Z.of_nat (length cs).
Proof.
  intros Hnd Hfuel Htree.
  destruct (buildCommentTree_distinct cs fuel Hnd Hfuel)
    as (tree' & Htree' & _ & Hflat & Hfrom).
  assert (tree' = tree) as -> by congruence.
  rewrite countComments_flatten. apply inj_le.
  rewrite <- (length_map uri_of), <- (length_map uri_of cs).
  apply submseteq_length, NoDup_submseteq; [done|].
  intros u (c & -> & Hc)%elem_of_map.
  destruct (Hfrom c Hc) as (c0 & Hc0 & ->).
  apply elem_of_map. by exists c0.
Qed.

(** ** More fuel changes nothing *)

Lemma foldM_mono {A St} (f g : St -> A -> option St) l : forall s s',
  (forall s x s', f s x = Some s' -> g s x = Some s') ->
  foldM f s l = Some s' -> foldM g s l = Some s'.
Proof.
  induction l as [|x l IH]; intros s s' Hfg; [done|].
  cbn [foldM]. destruct (f s x) as [s1|] eqn:Hf; [|done].
  rewrite (Hfg _ _ _ Hf). by apply IH.
Qed.

Lemma sortTree_unfold fuel a st :
  sortTree (S fuel) a st
  = foldM (sort_replies fuel)
      (write_array st a
         (array_sort (sortByDate (commentMap st)) (read_array st a)))
      (array_sort (sortByDate (commentMap st)) (read_array st a)).
Proof. reflexivity. Qed.

Lemma sortTree_mono fuel : forall a st st',
  sortTree fuel a st = Some st' -> sortTree (S fuel) a st = Some st'.
Proof.
  induction fuel as [|fuel IH]; intros a st st'; [done|].
  rewrite (sortTree_unfold (S fuel)), (sortTree_unfold fuel).
  apply foldM_mono. intros s x s'. unfold sort_replies.
  destruct (read_array s (RepliesOf x)); [done|]. apply IH.
Qed.

Lemma buildCommentTree_mono fuel fuel' cs tree :
  (fuel <= fuel')%nat ->
  buildCommentTree fuel cs = Some tree -> buildCommentTree fuel' cs = Some tree.
Proof.
  induction 1 as [|fuel' _ IH]; [done|].
  intros H. specialize (IH H). unfold buildCommentTree in IH |- *.
  destruct (sortTree fuel' RootArray _) as [st'|] eqn:Hsort; [|done].
  rewrite (sortTree_mono _ _ _ _ Hsort). by apply snapshot_mono.
Qed.

(** ** The thread-build scenario *)

Lemma scenario_all_orders :
  Forall (fun l => buildCommentTree 4 l = Some scenario_tree)
         (permutations [comment_A; comment_B; comment_C; comment_D]).
Proof.
  cbv [permutations interleave comment_A comment_B comment_C comment_D
       mbind list_bind fmap list_fmap app foldr].
  repeat (constructor; [vm_compute; reflexivity|]). constructor.
Qed.

(** C3: given A (no parent, created at 10), B (parent A, 20), C (parent A,
    15) and D (parent B, 30), in any input order, [buildCommentTree] returns
    exactly one root A, with A.replies = [C, B] in that order and
    B.replies = [D]; and [countComments] of that result is 4. *)
Theorem buildCommentTree_scenario (l : list Comment) (fuel : nat) :
  l ≡ₚ [comment_A; comment_B; comment_C; comment_D] ->
  (4 <= fuel)%nat ->
  buildCommentTree fuel l = Some scenario_tree
  /\ countComments scenario_tree = 4.
Proof.
  intros Hperm Hfuel. split; [|vm_compute; reflexivity].
  apply (buildCommentTree_mono 4); [done|].
  pose proof scenario_all_orders as Hall.
  rewrite Forall_forall in Hall. apply Hall.
  apply permutations_Permutation. by symmetry.
Qed.

Lemma buildCommentTree_scenario_witness :
  buildCommentTree 6 [comment_D; comment_B; comment_C; comment_A]
    = Some scenario_tree
  /\ countComments scenario_tree = 4.
Proof.
  apply (buildCommentTree_scenario [comment_D; comment_B; comment_C; comment_A] 6).
  - apply Permutation_sym.
    apply (Permutation_cons_app [comment_D; comment_B; comment_C] [] comment_A).
    apply (Permutation_cons_app [comment_D] [comment_C] comment_B).
    apply perm_swap.
  - lia.
Defined.

(** ** What [fetchComments] collects *)

Lemma foldl_add_mention mentions : forall allComments existing,
  fst (foldl add_mention (allComments, existing) mentions)
  = allComments ++ accepted existing mentions.
Proof.
  induction mentions as [|mention rest IH]; intros allComments existing.
  - cbn. by rewrite app_nil_r.
  - cbn [foldl accepted]. unfold add_mention at 2. fold (uri_of mention).
    destruct (decide (uri_of mention ∈ existing)); [apply IH|].
    rewrite IH, <- app_assoc. reflexivity.
Qed.

Lemma collectComments_eq api options :
  collectComments api options
  = threadReplies api options
      ++ accepted (existingUris api options) (searchMentions api options).
Proof.
  unfold collectComments, searchMentions, existingUris, threadReplies,
    cap_of, depth_of, service_of, uri_of.
  destruct (truthy (bskyPostUri options)) as [postUri|];
    destruct (truthy (canonicalUrl options)) as [url|];
    rewrite ?app_nil_l, ?app_nil_r, ?foldl_add_mention; reflexivity.
Qed.

Lemma accepted_fresh mentions : forall existing c,
  c ∈ accepted existing mentions -> uri_of c ∉ existing.
Proof.
  induction mentions as [|mention rest IH]; intros existing c.
  - by intros ?%elem_of_nil.
  - cbn [accepted]. destruct (decide (uri_of mention ∈ existing)) as [|Hfresh].
    + apply IH.
    + intros [->|Hc]%elem_of_cons; [done|].
      apply IH in Hc. set_solver.
Qed.

Lemma accepted_NoDup mentions : forall existing,
  NoDup (map uri_of (accepted existing mentions)).
Proof.
  induction mentions as [|mention rest IH]; intros existing; [constructor|].
  cbn [accepted]. destruct (decide (uri_of mention ∈ existing)); [apply IH|].
  cbn [map]. apply NoDup_cons. split; [|apply IH].
  intros (c & Hc & Hin)%elem_of_map. apply accepted_fresh in Hin. set_solver.
Qed.

Lemma accepted_sublist mentions : forall existing,
  accepted existing mentions `sublist_of` mentions.
Proof.
  induction mentions as [|mention rest IH]; intros existing; [constructor|].
  cbn [accepted]. destruct (decide (uri_of mention ∈ existing)).
  - by apply sublist_cons.
  - by apply sublist_skip.
Qed.

Lemma accepted_all mentions : forall existing,
  NoDup (map uri_of mentions) ->
  (forall c, c ∈ mentions -> uri_of c ∉ existing) ->
  accepted existing mentions = mentions.
Proof.
  induction mentions as [|mention rest IH]; intros existing Hnd Hfresh; [done|].
  cbn [map] in Hnd. apply NoDup_cons in Hnd as [Hm Hnd].
  cbn [accepted]. rewrite decide_False by (apply Hfresh; by left).
  f_equal. apply IH; [done|]. intros c Hc.
  intros [Hin|Heq%elem_of_singleton]%elem_of_union.
  - revert Hin. apply Hfresh. by right.
  - apply Hm. apply elem_of_map. by exists c.
Qed.

Lemma collected_NoDup api options :
  NoDup (map uri_of (threadReplies api options)) ->
  NoDup (map uri_of (collectComments api options)).
Proof.
  intros Hnd. rewrite collectComments_eq, map_app. apply NoDup_app.
  split; [done|]. split; [|apply accepted_NoDup].
  intros u Hu (c & -> & Hc)%elem_of_map.
  apply accepted_fresh in Hc. apply Hc. unfold existingUris.
  apply elem_of_union. left. by apply elem_of_list_to_set.
Qed.

(** ** Comments converted from posts carry no replies *)

Lemma Thread_nested_ind (P : Thread -> Prop) :
  (forall ty post, P (mkThread ty post None)) ->
  (forall ty post rs, Forall P rs -> P (mkThread ty post (Some rs))) ->
  forall t, P t.
Proof.
  intros HN HS. fix IH 1. intros [ty post [rs|]]; [|apply HN].
  apply HS. induction rs as [|r rs IHr]; constructor; [apply IH | exact IHr].
Qed.

Lemma is_flat_eq c : is_flat c -> mkComment (data c) None = c.
Proof. destruct c as [d r]. unfold is_flat. cbn. by intros ->. Qed.

Lemma processThread_flat thread : forall maxDepth currentDepth,
  Forall is_flat (processThread thread maxDepth currentDepth).
Proof.
  induction thread as [ty post|ty post rs IH] using Thread_nested_ind;
    intros maxDepth currentDepth; cbn [processThread];
    (destruct (currentDepth >? maxDepth); [constructor|]).
  - destruct post; [destruct (currentDepth >? 0)|]; by repeat constructor.
  - assert (Hstart : Forall is_flat
              match post with
              | Some p => if currentDepth >? 0 then [bskyPostToComment p] else []
              | None => []
              end).
    { destruct post; [destruct (currentDepth >? 0)|]; by repeat constructor. }
    revert Hstart. generalize (match post with
              | Some p => if currentDepth >? 0 then [bskyPostToComment p] else []
              | None => []
              end).
    induction IH as [|r rs Hr _ IHrs]; intros comments Hcomments; [done|].
    apply IHrs. apply Forall_app. split; [done | apply Hr].
Qed.

Lemma fetchBlueskyReplies_flat api postUri maxDepth service :
  Forall is_flat (fetchBlueskyReplies api postUri maxDepth service).
Proof.
  unfold fetchBlueskyReplies.
  destruct (getPostThread _ _ _ _) as [[[ty post rs]|]|]; try constructor.
  destruct (String.eqb ty _); [constructor | apply processThread_flat].
Qed.

Lemma searchBlueskyMentions_flat api url maxResults service :
  Forall is_flat (searchBlueskyMentions api url maxResults service).
Proof.
  unfold searchBlueskyMentions.
  destruct (searchPosts _ _ _ _) as [[posts|]|]; try constructor.
  apply Forall_forall. by intros c (p & -> & _)%elem_of_map.
Qed.

Lemma collected_flat api options : Forall is_flat (collectComments api options).
Proof.
  rewrite collectComments_eq. apply Forall_app. split.
  - unfold threadReplies. destruct (truthy (bskyPostUri options));
      [apply fetchBlueskyReplies_flat | constructor].
  - eapply Forall_sublist; [apply accepted_sublist|].
    unfold searchMentions. destruct (truthy (canonicalUrl options));
      [apply searchBlueskyMentions_flat | constructor].
Qed.

(** ** The cap *)

Lemma slice0_nonneg {A} (l : list A) (end_ : Z) :
  0 <= end_ -> slice0 l end_ = take (Z.to_nat end_) l.
Proof. intros H. unfold slice0. destruct (Z.ltb_spec end_ 0); [lia | done]. Qed.

Lemma slice0_prefix {A} (l : list A) (end_ : Z) :
  exists n, slice0 l end_ = take n l.
Proof. unfold slice0. destruct (end_ <? 0); by eexists. Qed.

Lemma limited_NoDup api options :
  NoDup (map uri_of (threadReplies api options)) ->
  NoDup (map uri_of (limitedComments api options)).
Proof.
  intros Hnd. unfold limitedComments.
  destruct (slice0_prefix (collectComments api options)
              (default 100 (maxComments options))) as [n ->].
  rewrite <- firstn_map. eapply sublist_NoDup; [|apply sublist_take].
  by apply collected_NoDup.
Qed.

Lemma limited_flat api options : Forall is_flat (limitedComments api options).
Proof.
  unfold limitedComments.
  destruct (slice0_prefix (collectComments api options)
              (default 100 (maxComments options))) as [n ->].
  eapply Forall_sublist; [apply sublist_take | apply collected_flat].
Qed.

(** ** Duplicates *)

(** C7, as stated, fails.  Only the search mentions are checked against the
    addresses collected so far: a reply that the thread holds twice is kept
    twice, and its address comes twice among the roots of the returned tree
    and in the flattened output. *)
Lemma fetchComments_repeated_reply :
  exists tree,
    fetchComments 5 repeated_api repeated_options = Some tree
    /\ ~ NoDup (map uri_of tree)
    /\ ~ NoDup (map uri_of (flattenComments tree)).
Proof.
  eexists. split; [vm_compute; reflexivity|]. split.
  - vm_compute. intros [Hx _]%NoDup_cons. apply Hx. by left.
  - vm_compute. intros [Hx _]%NoDup_cons. apply Hx. right. by left.
Qed.

Lemma accepted_complete mentions : forall existing s,
  s ∈ mentions ->
  uri_of s ∈ existing \/ uri_of s ∈ map uri_of (accepted existing mentions).
Proof.
  induction mentions as [|mention rest IH]; intros existing s.
  - by intros ?%elem_of_nil.
  - cbn [accepted]. intros [->|Hs]%elem_of_cons.
    + destruct (decide (uri_of mention ∈ existing)); [by left|].
      right. cbn [map]. by left.
    + destruct (decide (uri_of mention ∈ existing)); [by apply IH|].
      destruct (IH (existing ∪ {[uri_of mention]}) s Hs) as [Hin|Hin].
      * apply elem_of_union in Hin as [Hin|Hin%elem_of_singleton];
          [by left|]. right. cbn [map]. rewrite Hin. by left.
      * right. cbn [map]. by right.
Qed.

(** C7, amended: the collected list is the thread replies followed by the
    search mentions that were not excluded, in their order.  A search
    mention is excluded exactly when its address is that of a thread
    reply, of the root post or of an earlier search mention: none of the
    mentions kept has the address of a thread reply or of the root post,
    no two of them share an address, and every search mention has its
    address among those of the thread replies, the root post or the
    mentions kept.  So, when the thread replies have pairwise distinct
    addresses, no address comes twice in the collected list, among the
    roots of the tree that [fetchComments] returns, or in
    [flattenComments] of that tree. *)
Theorem fetchComments_no_duplicates (api : Api) (options : FetchCommentsOptions) :
  let thread := threadReplies api options in
  let mentions :=
    accepted (existingUris api options) (searchMentions api options) in
  collectComments api options = thread ++ mentions
  /\ mentions `sublist_of` searchMentions api options
  /\ (forall m, m ∈ mentions ->
        (uri_of m ∉ map uri_of thread)
        /\ truthy (bskyPostUri options) <> Some (uri_of m))
  /\ NoDup (map uri_of mentions)
  /\ (forall s, s ∈ searchMentions api options ->
        uri_of s ∈ map uri_of thread
        \/ truthy (bskyPostUri options) = Some (uri_of s)
        \/ uri_of s ∈ map uri_of mentions)
  /\ (NoDup (map uri_of thread) ->
      NoDup (map uri_of (collectComments api options))
      /\ forall fuel,
           (length (limitedComments api options) < fuel)%nat ->
           exists tree,
             fetchComments fuel api options = Some tree
             /\ NoDup (map uri_of tree)
             /\ NoDup (map uri_of (flattenComments tree))).
Proof.
  intros thread mentions.
  split; [apply collectComments_eq|].
  split; [apply accepted_sublist|].
  split; [|split; [|split]].
  - intros m Hm. apply accepted_fresh in Hm. unfold existingUris in Hm.
    split.
    + intros Hin. apply Hm, elem_of_union. left. by apply elem_of_list_to_set.
    + intros Heq. apply Hm, elem_of_union. right. rewrite Heq.
      by apply elem_of_singleton.
  - apply accepted_NoDup.
  - intros s Hs.
    destruct (accepted_complete _ (existingUris api options) s Hs) as [Hin|Hin];
      [|by right; right].
    unfold existingUris in Hin.
    apply elem_of_union in Hin as [Hin|Hin].
    + left. by apply elem_of_list_to_set in Hin.
    + right. left. destruct (truthy (bskyPostUri options)) as [postUri|].
      * apply elem_of_singleton in Hin. by rewrite Hin.
      * by apply elem_of_empty in Hin.
  - intros Hnd. split; [by apply collected_NoDup|].
    intros fuel Hfuel.
    destruct (buildCommentTree_distinct (limitedComments api options) fuel)
      as (tree & Htree & Hroots & Hflat & _);
      [by apply limited_NoDup | done |].
    by exists tree.
Qed.

Lemma fetchComments_no_duplicates_witness :
  NoDup (map uri_of (threadReplies plain_api plain_options))
  /\ NoDup (map uri_of (collectComments plain_api plain_options))
  /\ exists tree,
       fetchComments 6 plain_api plain_options = Some tree
       /\ NoDup (map uri_of tree)
       /\ NoDup (map uri_of (flattenComments tree)).
Proof.
  assert (Hnd : NoDup (map uri_of (threadReplies plain_api plain_options))).
  { apply (bool_decide_unpack _). vm_compute. reflexivity. }
  split; [exact Hnd|].
  destruct (fetchComments_no_duplicates plain_api plain_options)
    as (_ & _ & _ & _ & _ & H).
  destruct (H Hnd) as [Hcollected Htree].
  split; [exact Hcollected|].
  apply (Htree 6%nat). vm_compute. lia.
Defined.

(** ** Failure of one of the two fetches *)

Lemma slice0_length {A} (l : list A) (end_ : Z) :
  (length (slice0 l end_) <= length l)%nat.
Proof. destruct (slice0_prefix l end_) as [n ->]. rewrite length_take. lia. Qed.

Lemma slice0_all {A} (l : list A) (end_ : Z) :
  Z.of_nat (length l) <= end_ -> slice0 l end_ = l.
Proof.
  intros H. rewrite slice0_nonneg by lia. apply take_ge. lia.
Qed.

Lemma fetchBlueskyReplies_throws api postUri depth service error :
  getPostThread api service postUri depth = Throws error ->
  fetchBlueskyReplies api postUri (Some depth) (Some service) = [].
Proof.
  intros H. unfold fetchBlueskyReplies.
  change (default 3 (Some depth)) with depth.
  change (default default_service (Some service)) with service.
  by rewrite H.
Qed.

Lemma searchBlueskyMentions_throws api url limit service error :
  searchPosts api service url limit = Throws error ->
  searchBlueskyMentions api url (Some limit) (Some service) = [].
Proof.
  intros H. unfold searchBlueskyMentions.
  change (default 25 (Some limit)) with limit.
  change (default default_service (Some service)) with service.
  by rewrite H.
Qed.

End CommentsFacts.

(* ===================================================================== *)
(** * Properties of [publishDocument]                                    *)
(* ===================================================================== *)

Section PublisherFacts.

Import Publisher.
Local Open Scope Z_scope.

Lemma elem_of_remove_undefined (record : entries) k v :
  (k, v) ∈ remove_undefined record <-> (k, Some v) ∈ record.
Proof.
  induction record as [|[k' [v'|]] rest IH]; cbn [remove_undefined].
  - by rewrite !elem_of_nil.
  - rewrite !elem_of_cons, IH. split; (intros [[= -> ->]|H]; [by left | by right]).
  - rewrite elem_of_cons, IH. split; [by right | by intros [[=]|H]].
Qed.

Lemma key_of_remove_undefined (record : entries) k :
  k ∈ map fst (remove_undefined record) <-> exists v, (k, Some v) ∈ record.
Proof.
  rewrite elem_of_map. split.
  - intros ([k' v] & -> & H). exists v. by apply elem_of_remove_undefined.
  - intros (v & H). exists (k, v). split; [done|].
    by apply elem_of_remove_undefined.
Qed.

(** A field is in the cleaned record exactly when the input has it. *)
Lemma site_in_record input :
  "site"%string ∈ map fst (remove_undefined (document_record input))
  <-> is_Some (site input).
Proof.
  rewrite key_of_remove_undefined. unfold document_record. split.
  - intros (v & H). rewrite !elem_of_cons, elem_of_nil in H.
    destruct (site input); [by eexists|]. cbn in H.
    repeat (destruct H as [H|H]; [by simplify_eq|]). done.
  - intros [s Hs]. exists (VString s). rewrite Hs. right. by left.
Qed.

Lemma title_in_record input :
  "title"%string ∈ map fst (remove_undefined (document_record input))
  <-> is_Some (title input).
Proof.
  rewrite key_of_remove_undefined. unfold document_record. split.
  - intros (v & H). rewrite !elem_of_cons, elem_of_nil in H.
    destruct (title input); [by eexists|]. cbn in H.
    repeat (destruct H as [H|H]; [by simplify_eq|]). done.
  - intros [s Hs]. exists (VString s). rewrite Hs. right. right. by left.
Qed.

Lemma publishedAt_in_record input :
  "publishedAt"%string ∈ map fst (remove_undefined (document_record input))
  <-> is_Some (publishedAt input).
Proof.
  rewrite key_of_remove_undefined. unfold document_record. split.
  - intros (v & H). rewrite !elem_of_cons, elem_of_nil in H.
    destruct (publishedAt input); [by eexists|]. cbn in H.
    repeat (destruct H as [H|H]; [by simplify_eq|]). done.
  - intros [s Hs]. exists (VString s). rewrite Hs. right. right. right. by left.
Qed.

(** C5, as stated, fails: for a logged-in publisher and an input without
    [site], [title] and [publishedAt], the create-record call is issued,
    with a record that holds [$type] only, and its answer is returned. *)
Lemma publishDocument_missing_fields_published :
  site empty_input = None /\ title empty_input = None
  /\ publishedAt empty_input = None
  /\ publishDocument logged_in 1700000000000 (1 # 2) empty_input
     = ([CreateRecordCall
           (mkArgs "did:plc:author" "site.standard.document" "3ke6kg3wk22k2"
                   [("$type"%string, VString "site.standard.document")])],
        Returns
          (mkResult
             "at://did:plc:author/site.standard.document/3ke6kg3wk22k2"
             "bafyreib")).
Proof. repeat split; vm_compute; reflexivity. Qed.

(** C5, amended: [publishDocument] makes no check of [site], [title] and
    [publishedAt].  For a publisher that is logged in, whatever the input,
    exactly one create-record call is issued, for the document collection,
    under a fresh TID, with a record from which the absent fields are left
    out, and the outcome is that of the call.  Only a publisher that is not
    logged in fails before any network call. *)
Theorem publishDocument_no_validation (self : StandardSitePublisher)
    (ms : Z) (r : Q) (input : PublishDocumentInput) :
  (forall d a,
      getDid self = Returns d -> getAgent self = Returns a ->
      exists args,
        fst (publishDocument self ms r input) = [CreateRecordCall args]
        /\ snd (publishDocument self ms r input)
           = match createRecord a args with
             | Returns data => Returns (mkResult (uri data) (cid data))
             | Throws e => Throws e
             end
        /\ repo args = d
        /\ collection args = "site.standard.document"%string
        /\ rkey args = Tid.generateTid ms r
        /\ Tid.matches_tid_regex (rkey args) = true
        /\ ("site"%string ∈ map fst (record args) <-> is_Some (site input))
        /\ ("title"%string ∈ map fst (record args) <-> is_Some (title input))
        /\ ("publishedAt"%string ∈ map fst (record args)
            <-> is_Some (publishedAt input)))
  /\ (getDid self = Throws not_logged_in \/ getAgent self = Throws not_logged_in ->
      publishDocument self ms r input = ([], Throws not_logged_in)).
Proof.
  split.
  - intros d a Hd Ha. unfold publishDocument. rewrite Hd, Ha.
    eexists. split; [|split].
    + by destruct (createRecord a _).
    + by destruct (createRecord a _).
    + cbn [repo collection rkey record].
      split; [done|]. split; [done|]. split; [done|].
      split; [apply generateTid_matches|].
      split; [apply site_in_record|].
      split; [apply title_in_record | apply publishedAt_in_record].
  - intros [Hd|Ha]; unfold publishDocument.
    + by rewrite Hd.
    + rewrite Ha. destruct (getDid self) as [d|e] eqn:Hd; [done|].
      unfold getDid in Hd. by destruct (did self) as [[|??]|]; simplify_eq.
Qed.

Lemma publishDocument_no_validation_witness :
  (exists args,
      fst (publishDocument logged_in 1700000000000 (1 # 2) empty_input)
        = [CreateRecordCall args]
      /\ rkey args = "3ke6kg3wk22k2"%string
      /\ record args = [("$type"%string, VString "site.standard.document")])
  /\ publishDocument logged_out 1700000000000 (1 # 2) empty_input
     = ([], Throws not_logged_in).
Proof.
  split.
  - destruct (proj1 (publishDocument_no_validation
                       logged_in 1700000000000 (1 # 2) empty_input)
                    "did:plc:author"%string accepting_agent)
      as (args & Hcall & _); [reflexivity | reflexivity |].
    exists args. split; [exact Hcall|].
    vm_compute in Hcall. injection Hcall as <-. split; reflexivity.
  - apply (proj2 (publishDocument_no_validation
                    logged_out 1700000000000 (1 # 2) empty_input)).
    left. reflexivity.
Defined.

End PublisherFacts.

(* ===================================================================== *)
(** * Properties of the AT-URI helpers                                   *)
(* ===================================================================== *)

Section VerificationFacts.

Import Verification.
Local Open Scope N_scope.

Lemma strip_prefix_app s rest : strip_prefix s (s ++ rest) = Some rest.
Proof.
  induction s as [|c s IH]; [reflexivity|].
  cbn [strip_prefix app]. by rewrite N.eqb_refl.
Qed.

(** A group [X+] in front of a run of characters of [X] that ends the input
    or is followed by a character outside [X] takes the whole run, when the
    rest of the pattern matches what follows. *)
Lemma greedy_plus_run cls k body : forall taken tail captures,
  Forall (fun c => cls c = true) body ->
  match tail with [] => True | c :: _ => cls c = false end ->
  taken ++ body <> [] ->
  k tail = Some captures ->
  greedy_plus cls k taken (body ++ tail) = Some ((taken ++ body) :: captures).
Proof.
  induction body as [|b body IH]; intros taken tail captures Hbody Htail Hne Hk.
  - rewrite app_nil_r in *. cbn [app].
    destruct taken as [|t taken]; [done|].
    destruct tail as [|c tail]; cbn [greedy_plus]; rewrite ?Htail, Hk; done.
  - apply Forall_cons in Hbody as [Hb Hbody].
    cbn [app greedy_plus]. rewrite Hb.
    rewrite (IH (taken ++ [b]) tail captures); [|done|done| |done].
    + by rewrite <- app_assoc.
    + rewrite <- app_assoc. cbn. by destruct taken.
Qed.

(** Parsing what was formatted from an identity, a collection and a key. *)
Lemma parseAtUri_format (did collection rkey : jsstring) :
  did <> [] -> Forall (fun c => not_slash c = true) did ->
  collection <> [] -> Forall (fun c => not_slash c = true) collection ->
  rkey <> [] -> Forall (fun c => dot c = true) rkey ->
  parseAtUri (units "at://" ++ did ++ [slash] ++ collection ++ [slash] ++ rkey)
  = Some (mkParts did collection rkey).
Proof.
  intros Hd Hdid Hc Hcoll Hr Hrkey. unfold parseAtUri, at_uri_pattern.
  cbn [match_pattern]. rewrite strip_prefix_app.
  rewrite (greedy_plus_run not_slash _ did [] _ [collection; rkey]);
    [done | done | done | done |].
  change (units "/") with [slash]. rewrite (strip_prefix_app [slash]).
  rewrite (greedy_plus_run not_slash _ collection [] _ [rkey]);
    [done | done | done | done |].
  rewrite (strip_prefix_app [slash]).
  rewrite <- (app_nil_r rkey) at 1.
  by rewrite (greedy_plus_run dot _ rkey [] [] []).
Qed.

Lemma not_slash_true c : c <> slash -> not_slash c = true.
Proof. intros H. unfold not_slash. by destruct (N.eqb_spec c 47). Qed.

Lemma dot_true c : ~ line_terminator c -> dot c = true.
Proof.
  unfold line_terminator, dot. intros H.
  destruct (N.eqb_spec c 10), (N.eqb_spec c 13), (N.eqb_spec c 0x2028),
    (N.eqb_spec c 0x2029); try reflexivity; exfalso; apply H; tauto.
Qed.

Lemma Forall_not_slash (s : jsstring) :
  slash ∉ s -> Forall (fun c => not_slash c = true) s.
Proof.
  intros H. apply Forall_forall. intros c Hc. apply not_slash_true.
  by intros ->.
Qed.

Lemma Forall_dot (s : jsstring) :
  (forall c, c ∈ s -> ~ line_terminator c) -> Forall (fun c => dot c = true) s.
Proof.
  intros H. apply Forall_forall. intros c Hc. by apply dot_true, H.
Qed.

(** C9, as stated, fails: the empty identity holds no slash, and a key may
    hold a line feed; in both cases the formatted address does not match
    the pattern and [parseAtUri] returns [null]. *)
Lemma parseAtUri_format_rejected :
  ((slash ∉ units "") /\ units "3jzfcijpj2z2a" <> []
   /\ parseAtUri (getDocumentAtUri (units "") (units "3jzfcijpj2z2a")) = None)
  /\ ((slash ∉ units "did:plc:abc") /\ [97; 10; 98] <> []
      /\ parseAtUri (getDocumentAtUri (units "did:plc:abc") [97; 10; 98]) = None).
Proof.
  split; (split; [|split]); try done.
  - by intros ?%elem_of_nil.
  - vm_compute. intros H. apply list_elem_of_In in H. cbn in H.
    repeat destruct H as [H|H]; try discriminate H. exact H.
Qed.

(** C9, amended: for every non-empty identity string without ['/'] and
    every non-empty key string without line terminator (LF, CR, U+2028,
    U+2029), [parseAtUri(getDocumentAtUri(did, rkey))] is
    [{did, 'site.standard.document', rkey}] and
    [parseAtUri(getPublicationAtUri(did, rkey))] is
    [{did, 'site.standard.publication', rkey}]. *)
Theorem parseAtUri_round_trip (did rkey : jsstring) :
  did <> [] -> slash ∉ did ->
  rkey <> [] -> (forall c, c ∈ rkey -> ~ line_terminator c) ->
  parseAtUri (getDocumentAtUri did rkey)
    = Some (mkParts did (units "site.standard.document") rkey)
  /\ parseAtUri (getPublicationAtUri did rkey)
    = Some (mkParts did (units "site.standard.publication") rkey).
Proof.
  intros Hd Hdid Hr Hrkey. split.
  - change (getDocumentAtUri did rkey) with
      (units "at://" ++ did ++ [slash] ++ units "site.standard.document"
         ++ [slash] ++ rkey).
    apply parseAtUri_format;
      [done | by apply Forall_not_slash | done | | done | by apply Forall_dot].
    apply (bool_decide_unpack _). vm_compute. reflexivity.
  - change (getPublicationAtUri did rkey) with
      (units "at://" ++ did ++ [slash] ++ units "site.standard.publication"
         ++ [slash] ++ rkey).
    apply parseAtUri_format;
      [done | by apply Forall_not_slash | done | | done | by apply Forall_dot].
    apply (bool_decide_unpack _). vm_compute. reflexivity.
Qed.

Lemma parseAtUri_round_trip_witness :
  parseAtUri (getDocumentAtUri (units "did:plc:abc") (units "3jzfcijpj2z2a"))
    = Some (mkParts (units "did:plc:abc") (units "site.standard.document")
                    (units "3jzfcijpj2z2a"))
  /\ parseAtUri (getPublicationAtUri (units "did:plc:abc") (units "3jzfcijpj2z2a"))
    = Some (mkParts (units "did:plc:abc") (units "site.standard.publication")
                    (units "3jzfcijpj2z2a")).
Proof.
  apply (parseAtUri_round_trip (units "did:plc:abc") (units "3jzfcijpj2z2a")).
  - discriminate.
  - apply (bool_decide_unpack _). vm_compute. reflexivity.
  - discriminate.
  - apply Forall_forall. apply (bool_decide_unpack _). vm_compute. reflexivity.
Defined.

End VerificationFacts.

(* ===================================================================== *)
(** * Further properties of the comment trees                            *)
(* ===================================================================== *)

Section CommentTreeFacts.

Import Comments CommentTrees.
Local Open Scope Z_scope.

(** ** Flattening and counting *)

Lemma flattenComments_flat_list cs :
  Forall (fun c => Forall is_flat (flattenComments [c])) cs ->
  Forall is_flat (flattenComments cs).
Proof.
  induction 1 as [|c cs Hc _ IH]; [constructor|].
  change (c :: cs) with ([c] ++ cs). rewrite flattenComments_app.
  by apply Forall_app.
Qed.

Lemma flattenComments_flat_comment c : Forall is_flat (flattenComments [c]).
Proof.
  induction c as [d|d kids IH] using Comment_nested_ind;
    rewrite flattenComments_cons; cbn [data kids_of replies].
  - by repeat constructor.
  - change (flattenComments []) with (@nil Comment). rewrite app_nil_r.
    constructor; [done|]. by apply flattenComments_flat_list.
Qed.

Lemma flattenComments_of_flat cs :
  Forall is_flat cs -> flattenComments cs = cs.
Proof.
  induction 1 as [|c cs Hc _ IH]; [done|].
  rewrite flattenComments_cons, IH. destruct c as [d r].
  unfold is_flat in Hc. cbn in Hc. subst r. reflexivity.
Qed.

(** X1: [countComments] returns the number of comments that
    [flattenComments] lists, for every tree; it adds up over the
    concatenation of two trees. *)
Theorem countComments_counts_flattened (tree tree' : list Comment) :
  countComments tree = Z.of_nat (length (flattenComments tree))
  /\ countComments (tree ++ tree') = countComments tree + countComments tree'.
Proof.
  split; [apply countComments_flatten|].
  rewrite !countComments_flatten, flattenComments_app, length_app. lia.
Qed.

(** X2: the comments that [flattenComments] returns carry no replies, it
    keeps one comment per node, and flattening a flattened list changes
    nothing. *)
Theorem flattenComments_idempotent (tree : list Comment) :
  Forall is_flat (flattenComments tree)
  /\ flattenComments (flattenComments tree) = flattenComments tree.
Proof.
  assert (H : Forall is_flat (flattenComments tree)).
  { apply flattenComments_flat_list, Forall_forall.
    intros c _. apply flattenComments_flat_comment. }
  split; [exact H | by apply flattenComments_of_flat].
Qed.

(** ** The order of every level *)

Lemma ascending_by_ext {A} (key key' : A -> TimeValue) l :
  (forall x, key x = key' x) -> ascending_by key l -> ascending_by key' l.
Proof.
  intros Heq. induction l as [|x l IH]; [done|].
  cbn [ascending_by]. intros [Hx Hl]. split; [|by apply IH].
  destruct l as [|y l]; [done|]. by rewrite <- !Heq.
Qed.

Lemma ascending_by_Forall2 {A B} (key : A -> TimeValue) (key' : B -> TimeValue)
    l l' :
  Forall2 (fun x y => key x = key' y) l l' ->
  ascending_by key l -> ascending_by key' l'.
Proof.
  induction 1 as [|x y l l' Hxy Hl IH]; [done|].
  cbn [ascending_by]. intros [Hx Hasc]. split; [|by apply IH].
  destruct Hl as [|x2 y2 l l' Hxy2 _]; [done|]. by rewrite <- Hxy, <- Hxy2.
Qed.

Lemma sort_compare_valid {A} (key : A -> TimeValue) a b x y :
  key a = Some x -> key b = Some y ->
  sort_compare (fun a b => time_minus (key a) (key b)) a b = x - y.
Proof. unfold sort_compare. by intros -> ->. Qed.

(** With numbers for all the time values, insertion keeps the order. *)
Lemma sort_insert_ascending {A} (key : A -> TimeValue) x l :
  (forall a, is_Some (key a)) ->
  ascending_by key l ->
  ascending_by key (sort_insert (fun a b => time_minus (key a) (key b)) x l).
Proof.
  intros Hvalid.
  induction l as [|y l IH]; intros Hl; [done|].
  destruct (Hvalid x) as [tx Hx]. destruct (Hvalid y) as [ty Hy].
  cbn [sort_insert]. rewrite (sort_compare_valid key x y tx ty Hx Hy).
  destruct (Z.leb_spec (tx - ty) 0) as [Hle|Hgt].
  - cbn [ascending_by] in *. split; [|done].
    exists tx, ty. repeat split; [done..|lia].
  - destruct Hl as [Hyl Hl]. specialize (IH Hl).
    cbn [ascending_by]. split; [|exact IH].
    destruct l as [|z l]; cbn [sort_insert] in *.
    + exists ty, tx. repeat split; [done..|lia].
    + destruct (Hvalid z) as [tz Hz].
      rewrite (sort_compare_valid key x z tx tz Hx Hz).
      destruct (tx - tz <=? 0); [|done].
      exists ty, tx. repeat split; [done..|lia].
Qed.

Lemma array_sort_ascending {A} (key : A -> TimeValue) l :
  (forall a, is_Some (key a)) ->
  ascending_by key (array_sort (fun a b => time_minus (key a) (key b)) l).
Proof.
  intros Hvalid. induction l as [|x l IH]; [done|].
  cbn [array_sort]. by apply sort_insert_ascending.
Qed.

(** Sorting an array that is in order leaves it as it is. *)
Lemma array_sort_id {A} (key : A -> TimeValue) l :
  ascending_by key l ->
  array_sort (fun a b => time_minus (key a) (key b)) l = l.
Proof.
  induction l as [|x l IH]; [done|].
  cbn [ascending_by array_sort]. intros [Hx Hl]. rewrite IH by done.
  destruct l as [|y l]; [done|]. cbn [sort_insert].
  destruct Hx as (tx & ty & Hx & Hy & Hle).
  rewrite (sort_compare_valid key x y tx ty Hx Hy).
  destruct (Z.leb_spec (tx - ty) 0); [done | lia].
Qed.

Lemma read_write_array_sorted st a :
  read_array
    (write_array st a
       (array_sort (sortByDate (commentMap st)) (read_array st a))) a
  = array_sort (sortByDate (commentMap st)) (read_array st a).
Proof.
  destruct a as [|u]; [done|]. cbn [read_array write_array commentMap].
  rewrite lookup_alter_eq. by destruct (commentMap st !! u).
Qed.

Lemma read_write_array_other st a b l :
  a <> b -> read_array (write_array st a l) b = read_array st b.
Proof.
  intros Hne. destruct a as [|u], b as [|v]; try done.
  cbn [read_array write_array commentMap].
  rewrite lookup_alter_ne; [done | congruence].
Qed.

Lemma settled_refl st : settled st st.
Proof. split; [apply store_equiv_refl | done]. Qed.

Lemma settled_trans s1 s2 s3 : settled s1 s2 -> settled s2 s3 -> settled s1 s3.
Proof.
  intros [He12 H12] [He23 H23]. split; [by eapply store_equiv_trans|].
  intros a Ha. rewrite <- (H12 a Ha). apply H23. rewrite (H12 a Ha).
  eapply ascending_by_ext; [|exact Ha].
  intros x. symmetry. apply map_equiv_getTime, He12.
Qed.

Lemma settled_write_sorted st a :
  settled st
    (write_array st a
       (array_sort (sortByDate (commentMap st)) (read_array st a))).
Proof.
  split; [apply write_array_equiv, array_sort_perm|].
  intros b Hb.
  assert (Hcases : a = b \/ a <> b).
  { destruct a as [|u], b as [|v]; try (by right); [by left|].
    destruct (decide (u = v)) as [->|Hne]; [by left | right; congruence]. }
  destruct Hcases as [<-|Hne].
  - rewrite read_write_array_sorted. by apply (array_sort_id (getTime (commentMap st))).
  - by apply read_write_array_other.
Qed.

Lemma foldM_chain {A St} (f : St -> A -> option St) (R : St -> St -> Prop) l :
  forall s s',
  (forall s, R s s) ->
  (forall s1 s2 s3, R s1 s2 -> R s2 s3 -> R s1 s3) ->
  (forall s x s1, f s x = Some s1 -> R s s1) ->
  foldM f s l = Some s' -> R s s'.
Proof.
  induction l as [|x l IH]; intros s s' Hrefl Htrans Hstep.
  - cbn. intros [= <-]. apply Hrefl.
  - cbn [foldM]. destruct (f s x) as [s1|] eqn:Hf; [|done].
    intros H. eapply Htrans; [by eapply Hstep | by eapply IH].
Qed.

(** Whenever [sortTree] returns, the arrays hold what they held, and those
    that were in order are untouched. *)
Lemma sortTree_settled fuel : forall a st st',
  sortTree fuel a st = Some st' -> settled st st'.
Proof.
  induction fuel as [|fuel IH]; intros a st st'; [done|].
  rewrite sortTree_unfold. intros H.
  eapply settled_trans; [apply (settled_write_sorted st a)|].
  eapply (foldM_chain _ settled);
    [apply settled_refl | apply settled_trans | | exact H].
  intros s x s1. unfold sort_replies.
  destruct (read_array s (RepliesOf x)); [intros [= <-]; apply settled_refl|].
  apply IH.
Qed.

Lemma deep_sorted_nil n m : deep_sorted n m [].
Proof.
  destruct n; [done|]. split; [done|]. by intros r nd ?%elem_of_nil.
Qed.

Lemma deep_sorted_ascending n m refs :
  deep_sorted (S n) m refs -> ascending_by (getTime m) refs.
Proof. by intros [H _]. Qed.

Lemma deep_sorted_settled n : forall st st' refs,
  settled st st' ->
  deep_sorted n (commentMap st) refs -> deep_sorted n (commentMap st') refs.
Proof.
  induction n as [|n IH]; intros st st' refs Hs; [done|].
  destruct Hs as [[Hm Hr] Hkeep]. intros [Hasc Hkids]. split.
  - eapply ascending_by_ext; [|exact Hasc].
    intros x. symmetry. by apply map_equiv_getTime.
  - intros r nd' Hin Hnd'.
    destruct (map_equiv_lookup _ _ _ _ Hm Hnd') as (nd & Hnd & _).
    specialize (Hkids r nd Hin Hnd).
    destruct n as [|n]; [done|].
    pose proof (Hkeep (RepliesOf r)) as Hsame.
    cbn [read_array] in Hsame. rewrite Hnd, Hnd' in Hsame.
    rewrite Hsame by (by eapply deep_sorted_ascending).
    apply (IH st st'); [by split | done].
Qed.

Lemma valid_times_settled st st' :
  settled st st' -> valid_times (commentMap st) -> valid_times (commentMap st').
Proof.
  intros [[Hm _] _] Hvalid u. rewrite (map_equiv_getTime _ _ u Hm). apply Hvalid.
Qed.

Lemma sort_replies_deep_sorted fuel
    (IH : forall a st st', valid_times (commentMap st) ->
          sortTree fuel a st = Some st' ->
          forall n, deep_sorted n (commentMap st') (read_array st' a)) l :
  forall s s',
  valid_times (commentMap s) ->
  foldM (sort_replies fuel) s l = Some s' ->
  settled s s'
  /\ forall x, x ∈ l ->
       forall n, deep_sorted n (commentMap s') (read_array s' (RepliesOf x)).
Proof.
  induction l as [|x l IHl]; intros s s' Hvalid.
  - cbn. intros [= <-]. split; [apply settled_refl | by intros x ?%elem_of_nil].
  - cbn [foldM]. destruct (sort_replies fuel s x) as [s1|] eqn:Hx; [|done].
    intros Hl.
    assert (Hss1 : settled s s1).
    { unfold sort_replies in Hx.
      destruct (read_array s (RepliesOf x)); [injection Hx as <-; apply settled_refl|].
      by eapply sortTree_settled. }
    destruct (IHl s1 s' (valid_times_settled _ _ Hss1 Hvalid) Hl) as [Hs1 Hrest].
    split; [by eapply settled_trans|].
    intros y [->|Hy]%elem_of_cons; [|by apply Hrest].
    intros n.
    assert (Hx1 : forall n, deep_sorted n (commentMap s1)
                              (read_array s1 (RepliesOf x))).
    { unfold sort_replies in Hx.
      destruct (read_array s (RepliesOf x)) eqn:Hread.
      - injection Hx as <-. rewrite Hread. intros k. apply deep_sorted_nil.
      - exact (IH _ _ _ Hvalid Hx). }
    destruct Hs1 as [He Hkeep].
    rewrite (Hkeep (RepliesOf x)) by (apply (deep_sorted_ascending 0), Hx1).
    apply (deep_sorted_settled n s1 s'); [by split | apply Hx1].
Qed.

Lemma sortTree_deep_sorted fuel : forall a st st',
  valid_times (commentMap st) ->
  sortTree fuel a st = Some st' ->
  forall n, deep_sorted n (commentMap st') (read_array st' a).
Proof.
  induction fuel as [|fuel IH]; intros a st st' Hvalid; [done|].
  rewrite sortTree_unfold. intros H [|n]; [done|].
  pose proof (settled_write_sorted st a) as Hwrite.
  destruct (sort_replies_deep_sorted fuel IH _ _ _
              (valid_times_settled _ _ Hwrite Hvalid) H) as [[He Hkeep] Hkids].
  destruct Hwrite as [He1 _].
  assert (Hasc : ascending_by
            (getTime (commentMap (write_array st a
               (array_sort (sortByDate (commentMap st)) (read_array st a)))))
            (array_sort (sortByDate (commentMap st)) (read_array st a))).
  { eapply ascending_by_ext;
      [|by apply (array_sort_ascending (getTime (commentMap st)))].
    intros x. symmetry. apply map_equiv_getTime, He1. }
  rewrite (Hkeep a), read_write_array_sorted
    by (by rewrite read_write_array_sorted).
  split.
  - eapply ascending_by_ext; [|exact Hasc].
    intros x. symmetry. apply map_equiv_getTime, He.
  - intros r nd Hr Hnd. specialize (Hkids r Hr n).
    cbn [read_array] in Hkids. by rewrite Hnd in Hkids.
Qed.

Lemma nodes_of_unfold c : nodes_of c = c :: all_nodes (kids_of c).
Proof. destruct c as [d [rs|]]; reflexivity. Qed.

Lemma snapshot_sorted fuel : forall m refs ts,
  snapshot fuel m refs = Some ts ->
  deep_sorted fuel m refs ->
  ascending_by time_of ts
  /\ forall n, n ∈ all_nodes ts -> ascending_by time_of (kids_of n).
Proof.
  induction fuel as [|fuel IH]; intros m refs ts; [done|].
  cbn [snapshot]. rewrite mapM_Some. intros HF [Hasc Hkids]. split.
  - eapply ascending_by_Forall2; [|exact Hasc].
    eapply Forall2_impl; [exact HF|].
    intros r c Hc. cbn beta in Hc. unfold getTime.
    destruct (m !! r) as [nd|]; [|done].
    destruct (snapshot fuel m (node_replies nd)); [|done].
    by injection Hc as <-.
  - clear Hasc. induction HF as [|r c refs ts Hc _ IHF]; [by intros n ?%elem_of_nil|].
    destruct (m !! r) as [nd|] eqn:Hnd; [|done].
    destruct (snapshot fuel m (node_replies nd)) as [kids|] eqn:Hsnap; [|done].
    injection Hc as <-.
    destruct (IH m (node_replies nd) kids Hsnap) as [Htop Hdeep].
    { apply (Hkids r nd); [by left | done]. }
    intros n. cbn [all_nodes]. rewrite nodes_of_unfold. cbn [kids_of replies].
    intros [[->|Hn]%elem_of_cons|Hn]%elem_of_app.
    + done.
    + by apply Hdeep.
    + apply IHF; [|done]. intros r' nd' Hr'. apply Hkids. by right.
Qed.

(** ** Roots and parents *)

Lemma index_comments_dom cs p :
  is_Some (index_comments cs !! p) <-> p ∈ map uri_of cs.
Proof.
  split.
  - intros [nd Hnd]. apply index_comments_lookup in Hnd as (_ & Hu & c & Hc & Hd).
    apply elem_of_map. exists c. split; [|done].
    unfold uri_of. by rewrite <- Hd.
  - intros (c & -> & Hc)%elem_of_map. by apply index_comments_is_Some.
Qed.

Lemma same_data_is_Some m m' p :
  same_data m m' -> is_Some (m !! p) <-> is_Some (m' !! p).
Proof.
  intros H. rewrite <- !(fmap_is_Some node_data). by rewrite H.
Qed.

Lemma same_data_trans m1 m2 m3 :
  same_data m1 m2 -> same_data m2 m3 -> same_data m1 m3.
Proof. intros H12 H23 u. by rewrite H12. Qed.

Lemma link_comments_same_data cs : forall st,
  same_data (commentMap (link_comments st cs)) (commentMap st).
Proof.
  induction cs as [|c cs IH]; intros st; [done|].
  cbn [link_comments foldl]. eapply same_data_trans; [apply IH|].
  apply link_comment_same_data.
Qed.

Lemma linked_store_valid_times cs :
  valid_dates cs ->
  valid_times (commentMap (link_comments (mkStore (index_comments cs) []) cs)).
Proof.
  intros Hvalid u. unfold getTime.
  pose proof (link_comments_same_data cs (mkStore (index_comments cs) []) u) as E.
  cbn [commentMap] in E.
  destruct (commentMap (link_comments _ cs) !! u) as [nd|] eqn:Hnd; [|by eexists].
  destruct (index_comments cs !! u) as [nd0|] eqn:Hnd0; [|done].
  cbn in E. injection E as E.
  apply index_comments_lookup in Hnd0 as (_ & _ & c & Hc & Hd).
  rewrite E, Hd. unfold valid_dates in Hvalid. rewrite Forall_forall in Hvalid.
  by apply Hvalid.
Qed.

(** X3: when no comment has an Invalid Date, whenever [buildCommentTree]
    returns, the roots are in ascending order of creation time, and so are
    the replies of every node of the tree, at every depth. *)
Theorem buildCommentTree_sorted (comments : list Comment) (fuel : nat)
    (tree : list Comment) :
  valid_dates comments ->
  buildCommentTree fuel comments = Some tree ->
  ascending_by time_of tree
  /\ forall n, n ∈ all_nodes tree -> ascending_by time_of (kids_of n).
Proof.
  intros Hvalid. unfold buildCommentTree.
  destruct (sortTree fuel RootArray _) as [st'|] eqn:Hsort; [|done].
  intros Hsnap. eapply snapshot_sorted; [exact Hsnap|].
  apply (sortTree_deep_sorted fuel RootArray _ _
           (linked_store_valid_times comments Hvalid) Hsort).
Qed.

Lemma buildCommentTree_sorted_witness :
  ascending_by time_of scenario_tree
  /\ forall n, n ∈ all_nodes scenario_tree -> ascending_by time_of (kids_of n).
Proof.
  apply (buildCommentTree_sorted [comment_D; comment_B; comment_C; comment_A] 6).
  - unfold valid_dates. repeat constructor; by eexists.
  - vm_compute. reflexivity.
Defined.

(** The second pass pushes onto [rootComments] the comments whose parent
    is not a key of the map, in their order. *)
Lemma link_comments_roots (all : list Comment) cs : forall st,
  (forall p, is_Some (commentMap st !! p) <-> p ∈ map uri_of all) ->
  rootComments (link_comments st cs)
  = rootComments st
      ++ map uri_of (List.filter (fun c => negb (has_parent_in all c)) cs).
Proof.
  induction cs as [|c cs IH]; intros st Hdom.
  - cbn. by rewrite app_nil_r.
  - cbn [link_comments foldl List.filter]. rewrite IH.
    + unfold link_comment, has_parent_in.
      destruct (truthy (parentUri (data c))) as [p|].
      * destruct (commentMap st !! p) as [ndp|] eqn:Hp.
        -- rewrite bool_decide_eq_true_2 by (apply Hdom; by eexists). done.
        -- rewrite bool_decide_eq_false_2.
           ++ cbn [rootComments negb map]. by rewrite <- app_assoc.
           ++ intros Hin. apply Hdom in Hin. rewrite Hp in Hin.
              by destruct Hin.
      * cbn [rootComments negb map]. by rewrite <- app_assoc.
    + intros p. rewrite <- Hdom. apply same_data_is_Some.
      apply link_comment_same_data.
Qed.

Lemma built_store_keys cs st' fuel :
  sortTree fuel RootArray (link_comments (mkStore (index_comments cs) []) cs)
    = Some st' ->
  forall u nd, commentMap st' !! u = Some nd ->
    uri (node_data nd) = u /\ exists c, c ∈ cs /\ node_data nd = data c.
Proof.
  intros Hsort u nd Hnd.
  apply sortTree_settled in Hsort as [[Hm _] _].
  pose proof (map_equiv_same_data _ _ Hm u) as E1.
  pose proof (link_comments_same_data cs (mkStore (index_comments cs) []) u) as E2.
  rewrite Hnd, E2 in E1. cbn [commentMap] in E1.
  destruct (index_comments cs !! u) as [nd0|] eqn:Hnd0; [|done].
  apply index_comments_lookup in Hnd0 as (_ & Hu & c & Hc & Hd).
  cbn in E1. injection E1 as E1. split; [congruence|].
  exists c. split; [done | congruence].
Qed.

(** X4: whenever [buildCommentTree] returns, the roots of the tree are the
    comments whose [parentUri] is absent, empty or the address of none of
    the comments, and only them: the addresses of the roots are those of
    these comments, each as many times. *)
Theorem buildCommentTree_roots (comments : list Comment) (fuel : nat)
    (tree : list Comment) :
  buildCommentTree fuel comments = Some tree ->
  map uri_of tree
  ≡ₚ map uri_of
       (List.filter (fun c => negb (has_parent_in comments c)) comments).
Proof.
  unfold buildCommentTree.
  destruct (sortTree fuel RootArray _) as [st'|] eqn:Hsort; [|done].
  intros Hsnap.
  rewrite (snapshot_roots fuel (commentMap st') (rootComments st') tree);
    [| intros u nd Hnd; by apply (built_store_keys comments st' fuel Hsort) | done].
  pose proof (sortTree_settled _ _ _ _ Hsort) as [[_ Hroots] _].
  rewrite Hroots.
  rewrite (link_comments_roots comments comments); [done|].
  apply index_comments_dom.
Qed.

Lemma buildCommentTree_roots_witness :
  map uri_of scenario_tree
  ≡ₚ map uri_of
       (List.filter
          (fun c => negb (has_parent_in
                            [comment_D; comment_B; comment_C; comment_A] c))
          [comment_D; comment_B; comment_C; comment_A]).
Proof.
  apply (buildCommentTree_roots [comment_D; comment_B; comment_C; comment_A] 6).
  vm_compute. reflexivity.
Defined.

Lemma link_comment_names_parent all st c :
  c ∈ all -> replies_name_parent all (commentMap st) ->
  replies_name_parent all (commentMap (link_comment st c)).
Proof.
  intros Hc HQ. unfold link_comment.
  destruct (truthy (parentUri (data c))) as [p|] eqn:Hp; [|done].
  destruct (commentMap st !! p) as [ndp|] eqn:Hlook; [|done].
  cbn [commentMap]. intros u nd v Hu Hv.
  destruct (decide (p = u)) as [<-|Hne].
  - rewrite lookup_alter_eq, Hlook in Hu. injection Hu as <-.
    cbn [push_reply node_replies] in Hv.
    apply elem_of_app in Hv as [Hv|Hv%list_elem_of_singleton].
    + by apply (HQ p ndp).
    + exists c. by subst v.
  - rewrite lookup_alter_ne in Hu by done. by apply (HQ u nd).
Qed.

Lemma link_comments_names_parent all cs : forall st,
  (forall c, c ∈ cs -> c ∈ all) ->
  replies_name_parent all (commentMap st) ->
  replies_name_parent all (commentMap (link_comments st cs)).
Proof.
  induction cs as [|c cs IH]; intros st Hsub HQ; [done|].
  cbn [link_comments foldl]. apply IH.
  - intros c' Hc'. apply Hsub. by right.
  - apply link_comment_names_parent; [apply Hsub; by left | done].
Qed.

Lemma replies_name_parent_equiv all m m' :
  map_equiv m' m -> replies_name_parent all m -> replies_name_parent all m'.
Proof.
  intros Hm HQ u nd' v Hu Hv.
  destruct (map_equiv_lookup _ _ _ _ Hm Hu) as (nd & Hnd & _ & Hperm).
  apply (HQ u nd v Hnd). by rewrite <- Hperm.
Qed.

Lemma NoDup_map_inj {A B} (f : A -> B) (l : list A) x y :
  NoDup (map f l) -> x ∈ l -> y ∈ l -> f x = f y -> x = y.
Proof.
  induction l as [|a l IH]; [by intros _ ?%elem_of_nil|].
  cbn [map]. intros [Ha Hnd]%NoDup_cons [->|Hx]%elem_of_cons [->|Hy]%elem_of_cons Heq.
  - done.
  - exfalso. apply Ha. apply elem_of_map. by exists y.
  - exfalso. apply Ha. apply elem_of_map. by exists x.
  - by apply IH.
Qed.

Lemma snapshot_parents all fuel : forall m refs ts,
  NoDup (map uri_of all) ->
  replies_name_parent all m ->
  (forall u nd, m !! u = Some nd ->
     uri (node_data nd) = u /\ exists c, c ∈ all /\ node_data nd = data c) ->
  snapshot fuel m refs = Some ts ->
  forall n k, n ∈ all_nodes ts -> k ∈ kids_of n ->
    truthy (parentUri (data k)) = Some (uri_of n).
Proof.
  induction fuel as [|fuel IH]; intros m refs ts Hnd HQ Hkeys; [done|].
  cbn [snapshot]. rewrite mapM_Some.
  induction 1 as [|r c refs ts Hc _ IHF]; [by intros n k ?%elem_of_nil|].
  destruct (m !! r) as [nd|] eqn:Hr; [|done].
  destruct (snapshot fuel m (node_replies nd)) as [kids|] eqn:Hsnap; [|done].
  injection Hc as <-.
  intros n k. cbn [all_nodes]. rewrite nodes_of_unfold. cbn [kids_of replies].
  intros [[->|Hn]%elem_of_cons|Hn]%elem_of_app Hk.
  - cbn [kids_of replies] in Hk. unfold uri_of at 1. cbn [data].
    destruct (Hkeys r nd Hr) as [-> _].
    apply list_elem_of_lookup in Hk as [i Hi].
    pose proof Hsnap as Hsnap'.
    destruct fuel as [|fuel']; [done|]. cbn [snapshot] in Hsnap'.
    apply mapM_Some in Hsnap'.
    destruct (Forall2_lookup_r _ _ _ _ _ Hsnap' Hi) as (v & Hv & Hkv).
    cbn beta in Hkv. destruct (m !! v) as [ndv|] eqn:Hndv; [|done].
    destruct (snapshot fuel' m (node_replies ndv)); [|done].
    injection Hkv as <-. cbn [data].
    destruct (HQ r nd v Hr) as (c & Hc & Hcv & Hparent);
      [by eapply list_elem_of_lookup_2|].
    destruct (Hkeys v ndv Hndv) as (Huri & c0 & Hc0 & Hd0).
    assert (c = c0) as ->.
    { apply (NoDup_map_inj uri_of all); [done..|].
      unfold uri_of in *. rewrite <- Hd0. congruence. }
    by rewrite Hd0.
  - by apply (IH m (node_replies nd) kids).
  - by apply IHF.
Qed.

(** X5: for comments with pairwise distinct addresses, every reply in the
    tree that [buildCommentTree] returns sits under the comment that its
    [parentUri] names. *)
Theorem buildCommentTree_parents (comments : list Comment) (fuel : nat)
    (tree : list Comment) :
  NoDup (map uri_of comments) ->
  buildCommentTree fuel comments = Some tree ->
  forall n k, n ∈ all_nodes tree -> k ∈ kids_of n ->
    parentUri (data k) = Some (uri_of n).
Proof.
  intros Hnd. unfold buildCommentTree.
  destruct (sortTree fuel RootArray _) as [st'|] eqn:Hsort; [|done].
  intros Hsnap n k Hn Hk.
  assert (H : truthy (parentUri (data k)) = Some (uri_of n)).
  { apply (snapshot_parents comments fuel (commentMap st') (rootComments st') tree);
      try done.
    - pose proof (sortTree_settled _ _ _ _ Hsort) as [[Hm _] _].
      eapply replies_name_parent_equiv; [exact Hm|].
      apply link_comments_names_parent; [done|].
      cbn [commentMap]. intros u nd v Hu Hv.
      apply index_comments_lookup in Hu as (Hr & _). rewrite Hr in Hv.
      by apply elem_of_nil in Hv.
    - by apply (built_store_keys comments st' fuel). }
  unfold truthy in H. by destruct (parentUri (data k)) as [[|??]|].
Qed.

Lemma buildCommentTree_parents_witness :
  buildCommentTree 6 [comment_D; comment_B; comment_C; comment_A]
    = Some scenario_tree
  /\ forall n k, n ∈ all_nodes scenario_tree -> k ∈ kids_of n ->
       parentUri (data k) = Some (uri_of n).
Proof.
  split; [vm_compute; reflexivity|].
  apply (buildCommentTree_parents [comment_D; comment_B; comment_C; comment_A] 6).
  - apply (bool_decide_unpack _). vm_compute. reflexivity.
  - vm_compute. reflexivity.
Defined.

(** ** Comments that no root leads to *)

Lemma all_nodes_app t1 t2 : all_nodes (t1 ++ t2) = all_nodes t1 ++ all_nodes t2.
Proof.
  induction t1 as [|c t1 IH]; [done|].
  cbn [app all_nodes]. by rewrite IH, app_assoc.
Qed.

Lemma root_in_all_nodes tree r : r ∈ tree -> r ∈ all_nodes tree.
Proof.
  induction tree as [|t tree IH]; [by intros ?%elem_of_nil|].
  cbn [all_nodes]. rewrite elem_of_app.
  intros [->|Hr]%elem_of_cons; [left|right; by apply IH].
  rewrite nodes_of_unfold. by left.
Qed.

Lemma all_nodes_below tree n x :
  n ∈ all_nodes tree -> x ∈ all_nodes (kids_of n) -> x ∈ all_nodes tree.
Proof.
  assert (Hnode : forall c, n ∈ nodes_of c -> x ∈ all_nodes (kids_of n) ->
                            x ∈ nodes_of c).
  { induction c as [d|d kids IH] using Comment_nested_ind;
      rewrite nodes_of_unfold; cbn [kids_of replies all_nodes].
    - intros [->|Hn]%elem_of_cons Hx;
        [by apply elem_of_nil in Hx | by apply elem_of_nil in Hn].
    - intros [->|Hn]%elem_of_cons Hx; [by right|]. right.
      induction IH as [|k kids Hk _ IHk]; [by apply elem_of_nil in Hn|].
      cbn [all_nodes] in *. apply elem_of_app.
      apply elem_of_app in Hn as [Hn|Hn]; [left; by apply Hk | right; by apply IHk]. }
  induction tree as [|c tree IH]; [by intros ?%elem_of_nil|].
  cbn [all_nodes]. rewrite !elem_of_app.
  intros [Hn|Hn] Hx; [left; by apply Hnode | right; by apply IH].
Qed.

Lemma all_nodes_kids tree n k :
  n ∈ all_nodes tree -> k ∈ kids_of n -> k ∈ all_nodes tree.
Proof.
  intros Hn Hk. apply (all_nodes_below tree n); [done|].
  by apply root_in_all_nodes.
Qed.

(** Every node of a tree is a root or a reply of a node of the tree. *)
Lemma all_nodes_reached (P : Comment -> Prop) :
  (forall n k, P n -> k ∈ kids_of n -> P k) ->
  forall tree, Forall P tree -> Forall P (all_nodes tree).
Proof.
  intros Hstep.
  assert (Hnode : forall c, P c -> Forall P (nodes_of c)).
  { induction c as [d|d kids IH] using Comment_nested_ind; intros Hc.
    - by repeat constructor.
    - rewrite nodes_of_unfold. constructor; [done|].
      cbn [kids_of replies].
      assert (Hkids : Forall P kids).
      { apply Forall_forall. intros k Hk. by apply (Hstep _ k Hc). }
      clear Hc. induction IH as [|k kids Hk _ IHk]; [constructor|].
      apply Forall_cons in Hkids as [Pk Hkids].
      cbn [all_nodes]. apply Forall_app. split; [by apply Hk | by apply IHk]. }
  induction 1 as [|c tree Hc _ IH]; [constructor|].
  cbn [all_nodes]. apply Forall_app. split; [by apply Hnode | done].
Qed.

Lemma snapshot_nodes_data (all : list Comment) fuel : forall m refs ts,
  (forall u nd, m !! u = Some nd ->
     uri (node_data nd) = u /\ exists c, c ∈ all /\ node_data nd = data c) ->
  snapshot fuel m refs = Some ts ->
  forall n, n ∈ all_nodes ts -> exists c, c ∈ all /\ data n = data c.
Proof.
  induction fuel as [|fuel IH]; intros m refs ts Hkeys; [done|].
  cbn [snapshot]. rewrite mapM_Some.
  induction 1 as [|r c refs ts Hc _ IHF]; [by intros n ?%elem_of_nil|].
  destruct (m !! r) as [nd|] eqn:Hr; [|done].
  destruct (snapshot fuel m (node_replies nd)) as [kids|] eqn:Hsnap; [|done].
  injection Hc as <-.
  intros n. cbn [all_nodes]. rewrite nodes_of_unfold. cbn [kids_of replies].
  intros [[->|Hn]%elem_of_cons|Hn]%elem_of_app.
  - cbn [data]. by destruct (Hkeys r nd Hr) as [_ ?].
  - by apply (IH m (node_replies nd) kids).
  - by apply IHF.
Qed.

Lemma has_parent_in_true cs c p :
  p ∈ cs -> truthy (parentUri (data c)) = Some (uri_of p) ->
  has_parent_in cs c = true.
Proof.
  intros Hp Hc. unfold has_parent_in. rewrite Hc.
  apply bool_decide_eq_true. apply elem_of_map. by exists p.
Qed.

(** X23: for comments with pairwise distinct addresses, when some of them
    each name one of themselves as their parent (a comment that replies to
    itself, two comments that reply to each other, a longer ring, or replies
    hanging from such), none of these is anywhere in the tree that
    [buildCommentTree] returns: they are neither roots nor replies. *)
Theorem buildCommentTree_loop_lost (comments loop : list Comment) (fuel : nat)
    (tree : list Comment) :
  NoDup (map uri_of comments) ->
  loop ⊆ comments ->
  closed_under_parent loop ->
  buildCommentTree fuel comments = Some tree ->
  forall n c, n ∈ all_nodes tree -> c ∈ loop -> uri_of n <> uri_of c.
Proof.
  intros Hnd Hsub Hloop. unfold buildCommentTree.
  destruct (sortTree fuel RootArray _) as [st'|] eqn:Hsort; [|done].
  intros Hsnap.
  pose proof (built_store_keys comments st' fuel Hsort) as Hkeys.
  pose proof (snapshot_nodes_data comments fuel _ _ _ Hkeys Hsnap) as Hdata.
  assert (Hparents : forall n k, n ∈ all_nodes tree -> k ∈ kids_of n ->
            truthy (parentUri (data k)) = Some (uri_of n)).
  { apply (snapshot_parents comments fuel (commentMap st') (rootComments st') tree);
      try done.
    pose proof (sortTree_settled _ _ _ _ Hsort) as [[Hm _] _].
    eapply replies_name_parent_equiv; [exact Hm|].
    apply link_comments_names_parent; [done|].
    cbn [commentMap]. intros u nd v Hu Hv.
    apply index_comments_lookup in Hu as (Hr & _). rewrite Hr in Hv.
    by apply elem_of_nil in Hv. }
  assert (Hroots : map uri_of tree
            ≡ₚ map uri_of
                 (List.filter (fun c => negb (has_parent_in comments c)) comments)).
  { rewrite (snapshot_roots fuel (commentMap st') (rootComments st') tree);
      [| intros u nd Hu; by apply Hkeys | done].
    pose proof (sortTree_settled _ _ _ _ Hsort) as [[_ Hr] _].
    rewrite Hr.
    rewrite (link_comments_roots comments comments); [done|].
    apply index_comments_dom. }
  (* a node with the address of a comment of the loop has its fields *)
  assert (Hsame : forall n c, n ∈ all_nodes tree -> c ∈ loop ->
            uri_of n = uri_of c -> data n = data c).
  { intros n c Hn Hc E. destruct (Hdata n Hn) as (c0 & Hc0 & Hd).
    rewrite Hd. f_equal.
    apply (NoDup_map_inj uri_of comments); [done|done|by apply Hsub|].
    unfold uri_of in *. congruence. }
  set (P := fun n : Comment =>
              n ∈ all_nodes tree /\ forall c, c ∈ loop -> uri_of n <> uri_of c).
  assert (HP : Forall P (all_nodes tree)).
  { apply all_nodes_reached.
    - intros n k [Hn Hfree] Hk.
      assert (Hkn : k ∈ all_nodes tree) by by apply (all_nodes_kids tree n).
      split; [done|].
      intros c Hc E.
      destruct (Hloop c Hc) as (p & Hp & Hcp).
      pose proof (Hparents n k Hn Hk) as Hkp.
      rewrite (Hsame k c Hkn Hc E), Hcp in Hkp.
      injection Hkp as Hkp. by apply (Hfree p Hp).
    - apply Forall_forall. intros r Hr. split.
      + by apply root_in_all_nodes.
      + intros c Hc E.
        assert (Hu : uri_of r ∈ map uri_of tree).
        { apply elem_of_map. by exists r. }
        rewrite Hroots in Hu. apply elem_of_map in Hu as (c0 & E0 & Hc0).
        apply list_elem_of_In, filter_In in Hc0 as [Hc0 Hno].
        apply list_elem_of_In in Hc0.
        assert (c0 = c) as ->.
        { apply (NoDup_map_inj uri_of comments); [done|done|by apply Hsub|].
          congruence. }
        destruct (Hloop c Hc) as (p & Hp & Hcp).
        rewrite (has_parent_in_true comments c p) in Hno; [done| |done].
        by apply Hsub. }
  intros n c Hn Hc.
  rewrite Forall_forall in HP. by apply (HP n Hn).
Qed.

Lemma buildCommentTree_loop_lost_witness :
  buildCommentTree 6 [comment_E; comment_A; comment_F]
    = Some [with_replies comment_A []]
  /\ forall n c, n ∈ all_nodes [with_replies comment_A []] ->
       c ∈ [comment_E; comment_F] -> uri_of n <> uri_of c.
Proof.
  split; [vm_compute; reflexivity|].
  apply (buildCommentTree_loop_lost [comment_E; comment_A; comment_F]
           [comment_E; comment_F] 6).
  - apply (bool_decide_unpack _). vm_compute. reflexivity.
  - intros c Hc. rewrite !elem_of_cons in *. tauto.
  - intros c Hc. rewrite !elem_of_cons, elem_of_nil in Hc.
    destruct Hc as [-> | [-> | []]].
    + exists comment_F. split; [right; left | reflexivity].
    + exists comment_E. split; [left | reflexivity].
  - vm_compute. reflexivity.
Defined.

(** ** Comments that a root leads to *)

Lemma link_comment_replies_mono st c p nd v :
  commentMap st !! p = Some nd -> v ∈ node_replies nd ->
  exists nd', commentMap (link_comment st c) !! p = Some nd'
              /\ v ∈ node_replies nd'.
Proof.
  intros Hp Hv. unfold link_comment.
  destruct (truthy (parentUri (data c))) as [q|]; [|by exists nd].
  destruct (commentMap st !! q) as [ndq|] eqn:Hq; [|by exists nd].
  cbn [commentMap]. destruct (decide (q = p)) as [->|Hne].
  - rewrite lookup_alter_eq, Hp. eexists. split; [done|].
    cbn [push_reply node_replies]. apply elem_of_app. by left.
  - rewrite lookup_alter_ne by done. by exists nd.
Qed.

Lemma link_comments_replies_mono cs : forall st p nd v,
  commentMap st !! p = Some nd -> v ∈ node_replies nd ->
  exists nd', commentMap (link_comments st cs) !! p = Some nd'
              /\ v ∈ node_replies nd'.
Proof.
  induction cs as [|c cs IH]; intros st p nd v Hp Hv; [by exists nd|].
  cbn [link_comments foldl].
  destruct (link_comment_replies_mono st c p nd v Hp Hv) as (nd1 & H1 & Hv1).
  by apply (IH _ p nd1 v).
Qed.

(** The second pass pushes every comment whose parent is a key of the map
    onto the replies of that parent. *)
Lemma link_comments_children cs : forall st c p,
  c ∈ cs -> truthy (parentUri (data c)) = Some p ->
  is_Some (commentMap st !! p) ->
  exists nd, commentMap (link_comments st cs) !! p = Some nd
             /\ uri_of c ∈ node_replies nd.
Proof.
  induction cs as [|c0 cs IH]; intros st c p Hc Hp Hdom;
    [by apply elem_of_nil in Hc|].
  cbn [link_comments foldl].
  apply elem_of_cons in Hc as [->|Hc].
  - destruct Hdom as [ndp Hndp].
    apply (link_comments_replies_mono cs _ p (push_reply (uri_of c0) ndp)).
    + unfold link_comment. rewrite Hp, Hndp. cbn [commentMap].
      by rewrite lookup_alter_eq, Hndp.
    + cbn [push_reply node_replies]. apply elem_of_app. right. by left.
  - apply IH; [done..|].
    by apply (same_data_is_Some _ _ p (link_comment_same_data st c0)).
Qed.

(** In a reading, the replies of a node are read under it. *)
Lemma snapshot_reaches fuel : forall m refs ts,
  (forall u nd, m !! u = Some nd -> uri (node_data nd) = u) ->
  snapshot fuel m refs = Some ts ->
  forall n nd v, n ∈ all_nodes ts -> m !! uri_of n = Some nd ->
    v ∈ node_replies nd -> v ∈ map uri_of (all_nodes ts).
Proof.
  induction fuel as [|fuel IH]; intros m refs ts Hkeys; [done|].
  cbn [snapshot]. rewrite mapM_Some.
  induction 1 as [|r c refs ts Hc _ IHF]; [by intros n nd v ?%elem_of_nil|].
  destruct (m !! r) as [ndr|] eqn:Hr; [|done].
  destruct (snapshot fuel m (node_replies ndr)) as [kids|] eqn:Hsnap; [|done].
  injection Hc as <-.
  intros n nd v. cbn [all_nodes]. rewrite nodes_of_unfold. cbn [kids_of replies].
  rewrite map_app. cbn [map]. rewrite !elem_of_app, !elem_of_cons.
  intros [[->|Hn]|Hn] Hnd Hv.
  - unfold uri_of in Hnd. cbn [data] in Hnd.
    rewrite (Hkeys r ndr Hr), Hr in Hnd. injection Hnd as <-.
    left. right.
    rewrite <- (snapshot_roots fuel m (node_replies ndr) kids Hkeys Hsnap) in Hv.
    apply elem_of_map in Hv as (k & -> & Hk).
    apply elem_of_map. exists k. split; [done|]. by apply root_in_all_nodes.
  - left. right. by apply (IH m (node_replies ndr) kids Hkeys Hsnap n nd v).
  - right. by apply (IHF n nd v).
Qed.

Lemma find_by_uri cs p :
  match List.find (fun x => String.eqb (uri_of x) p) cs with
  | Some parent => parent ∈ cs /\ uri_of parent = p
  | None => p ∉ map uri_of cs
  end.
Proof.
  destruct (List.find _ cs) as [parent|] eqn:E.
  - apply find_some in E as [Hin Heq].
    split; [by apply list_elem_of_In | by apply String.eqb_eq].
  - intros (c & -> & Hc)%elem_of_map. apply list_elem_of_In in Hc.
    pose proof (find_none _ _ E c Hc) as H. cbn in H.
    by rewrite String.eqb_refl in H.
Qed.

Lemma has_parent_in_false cs c :
  match truthy (parentUri (data c)) with
  | Some p => p ∉ map uri_of cs
  | None => True
  end ->
  has_parent_in cs c = false.
Proof.
  unfold has_parent_in. destruct (truthy (parentUri (data c))); [|done].
  intros H. by apply bool_decide_eq_false.
Qed.

(** Whenever [buildCommentTree] returns, every comment whose chain of
    parents ends is in the tree. *)
Lemma buildCommentTree_reaches comments fuel tree :
  buildCommentTree fuel comments = Some tree ->
  forall n c, anchored n comments c = true -> c ∈ comments ->
    uri_of c ∈ map uri_of (all_nodes tree).
Proof.
  unfold buildCommentTree.
  destruct (sortTree fuel RootArray _) as [st'|] eqn:Hsort; [|done].
  intros Hsnap.
  pose proof (built_store_keys comments st' fuel Hsort) as Hkeys.
  assert (Hkeys' : forall u nd, commentMap st' !! u = Some nd ->
                                uri (node_data nd) = u).
  { intros u nd Hu. by apply Hkeys. }
  pose proof (sortTree_settled _ _ _ _ Hsort) as [[Hm Hr] _].
  assert (Hroot : forall c, c ∈ comments -> has_parent_in comments c = false ->
                            uri_of c ∈ map uri_of (all_nodes tree)).
  { intros c Hc Hno.
    assert (Hu : uri_of c ∈ map uri_of tree).
    { rewrite (snapshot_roots fuel (commentMap st') (rootComments st') tree
                 Hkeys' Hsnap), Hr.
      rewrite (link_comments_roots comments comments);
        [|apply index_comments_dom].
      cbn [rootComments app]. apply elem_of_map. exists c. split; [done|].
      apply list_elem_of_In, filter_In. split; [by apply list_elem_of_In|].
      by rewrite Hno. }
    apply elem_of_map in Hu as (r & -> & Hin).
    apply elem_of_map. exists r. split; [done|]. by apply root_in_all_nodes. }
  induction n as [|n IH]; intros c Hanch Hc; [done|].
  cbn [anchored] in Hanch.
  destruct (truthy (parentUri (data c))) as [p|] eqn:Hp.
  - pose proof (find_by_uri comments p) as Hfind.
    destruct (List.find _ comments) as [parent|].
    + destruct Hfind as [Hparent Hup].
      pose proof (IH parent Hanch Hparent) as Hin.
      apply elem_of_map in Hin as (nn & Hnn & Hin).
      destruct (link_comments_children comments
                  (mkStore (index_comments comments) []) c p Hc Hp)
        as (nd & Hnd & Hcnd).
      { cbn [commentMap]. apply index_comments_dom. rewrite <- Hup.
        apply elem_of_map. by exists parent. }
      destruct (map_equiv_lookup _ _ p nd (map_equiv_sym _ _ Hm) Hnd)
        as (nd' & Hnd' & _ & Hperm).
      apply (snapshot_reaches fuel _ _ _ Hkeys' Hsnap nn nd'); [done| |].
      * by rewrite <- Hnn, Hup.
      * by rewrite <- Hperm.
    + apply Hroot; [done|]. apply has_parent_in_false. by rewrite Hp.
  - apply Hroot; [done|]. apply has_parent_in_false. by rewrite Hp.
Qed.

(** [flattenComments] lists the nodes of the tree, each without replies. *)
Lemma flattenComments_all_nodes tree :
  flattenComments tree = map (fun n => mkComment (data n) None) (all_nodes tree).
Proof.
  assert (Hnode : forall c,
            flattenComments [c]
            = map (fun n => mkComment (data n) None) (nodes_of c)).
  { induction c as [d|d kids IH] using Comment_nested_ind; [done|].
    rewrite flattenComments_cons, nodes_of_unfold. cbn [kids_of replies data map].
    change (flattenComments []) with (@nil Comment). rewrite app_nil_r.
    f_equal. induction IH as [|k kids Hk _ IHk]; [done|].
    change (k :: kids) with ([k] ++ kids).
    rewrite flattenComments_app, Hk, IHk. cbn [app all_nodes].
    by rewrite map_app. }
  induction tree as [|c tree IH]; [done|].
  change (c :: tree) with ([c] ++ tree).
  rewrite flattenComments_app, Hnode, IH. cbn [app all_nodes].
  by rewrite map_app.
Qed.

Lemma NoDup_map_source {A B} (f : A -> B) (l : list A) :
  NoDup (map f l) -> NoDup l.
Proof.
  induction l as [|a l IH]; [constructor|].
  cbn [map]. intros [Ha Hl]%NoDup_cons. apply NoDup_cons. split; [|by apply IH].
  intros Hin. apply Ha. apply elem_of_map. by exists a.
Qed.

(** Distinct addresses and no parent loop: the tree holds every comment,
    once. *)
Lemma buildCommentTree_complete comments fuel tree :
  NoDup (map uri_of comments) ->
  Forall is_flat comments ->
  no_parent_loop comments ->
  (length comments < fuel)%nat ->
  buildCommentTree fuel comments = Some tree ->
  flattenComments tree ≡ₚ comments.
Proof.
  intros Hnd Hflat Hloop Hfuel Htree.
  destruct (buildCommentTree_distinct comments fuel Hnd Hfuel)
    as (tree' & Htree' & _ & Hnd' & Hfrom).
  assert (tree' = tree) as -> by congruence.
  assert (Hsub : forall c, c ∈ flattenComments tree -> c ∈ comments).
  { intros c Hc. destruct (Hfrom c Hc) as (c0 & Hc0 & ->).
    rewrite is_flat_eq; [done|]. rewrite Forall_forall in Hflat. by apply Hflat. }
  apply NoDup_Permutation.
  - by apply NoDup_map_source in Hnd'.
  - by apply NoDup_map_source in Hnd.
  - intros c. split; [apply Hsub|]. intros Hc.
    pose proof (buildCommentTree_reaches comments fuel tree Htree
                  (length comments) c (Hloop c Hc) Hc) as Hin.
    apply elem_of_map in Hin as (nn & Hnn & Hin).
    assert (Hstrip : mkComment (data nn) None ∈ flattenComments tree).
    { rewrite flattenComments_all_nodes. apply elem_of_map. by exists nn. }
    assert (mkComment (data nn) None = c) as <-; [|done].
    apply (NoDup_map_inj uri_of comments); [done|by apply Hsub|done|].
    by rewrite Hnn.
Qed.

(** ** Threads and posts *)

Lemma processThread_beyond thread maxDepth currentDepth :
  maxDepth < currentDepth -> processThread thread maxDepth currentDepth = [].
Proof.
  intros H. destruct thread as [ty post rs]. cbn [processThread].
  by destruct (Z.gtb_spec currentDepth maxDepth); [|lia].
Qed.

Lemma processThread_no_depth thread maxDepth :
  maxDepth <= 0 -> processThread thread maxDepth 0 = [].
Proof.
  intros H. destruct thread as [ty post rs]. cbn [processThread].
  destruct (Z.gtb_spec 0 maxDepth); [done|].
  assert (Hstart : match post with
                   | Some p => if 0 >? 0 then [bskyPostToComment p] else []
                   | None => []
                   end = []) by (by destruct post).
  rewrite Hstart. destruct rs as [rs|]; [|done].
  generalize (@nil Comment). induction rs as [|r rs IH]; intros acc; [done|].
  rewrite processThread_beyond by lia. rewrite app_nil_r. apply IH.
Qed.

(** X6: with a maximal depth of zero or less, [fetchBlueskyReplies] returns
    no comment, whatever thread the service answers: the root post is never
    a comment, and replies start at depth 1. *)
Theorem fetchBlueskyReplies_no_depth (api : Api) (postUri : string)
    (depth : Z) (service : option string) :
  depth <= 0 -> fetchBlueskyReplies api postUri (Some depth) service = [].
Proof.
  intros H. unfold fetchBlueskyReplies.
  change (default 3 (Some depth)) with depth.
  destruct (getPostThread _ _ _ _) as [[[ty post rs]|]|]; try done.
  destruct (String.eqb ty _); [done|]. by apply processThread_no_depth.
Qed.

Lemma fetchBlueskyReplies_no_depth_witness :
  fetchBlueskyReplies plain_api root_uri (Some 0) None = [].
Proof. apply (fetchBlueskyReplies_no_depth plain_api root_uri 0 None). lia. Defined.

Lemma last_segment_from_slash (a b : string) : forall acc,
  last_segment_from acc (a ++ String "/" b)%string
  = last_segment_from EmptyString b.
Proof.
  induction a as [|c a IH]; intros acc; [done|].
  rewrite string_app_cons. cbn [last_segment_from].
  destruct (Ascii.eqb c "/"); apply IH.
Qed.

Lemma last_segment_from_no_slash (b : string) : forall acc,
  has_no_slash b -> last_segment_from acc b = (acc ++ b)%string.
Proof.
  induction b as [|c b IH]; intros acc Hb.
  - cbn. by rewrite string_app_empty_r.
  - cbn [last_segment_from].
    destruct (Ascii.eqb_spec c "/") as [->|Hne].
    + exfalso. apply (Hb "/"%char); [by left | done].
    + rewrite IH.
      * by rewrite string_app_assoc.
      * intros c' Hc'. apply Hb. by right.
Qed.

(** X7: for a post whose address ends in ["/" ++ id], with no slash in
    [id], the [sourceUrl] of the comment made by [bskyPostToComment] is
    [https://bsky.app/profile/<handle>/post/<id>]. *)
Theorem bskyPostToComment_sourceUrl (post : PostView) (front id : string) :
  post_uri post = (front ++ String "/" id)%string ->
  has_no_slash id ->
  sourceUrl (data (bskyPostToComment post))
  = ("https://bsky.app/profile/" ++ handle (post_author post)
       ++ "/post/" ++ id)%string.
Proof.
  intros Huri Hid. unfold bskyPostToComment. cbn [data sourceUrl].
  unfold last_segment. rewrite Huri, last_segment_from_slash.
  by rewrite last_segment_from_no_slash.
Qed.

Lemma bskyPostToComment_sourceUrl_witness :
  sourceUrl (data (bskyPostToComment x_post))
  = ("https://bsky.app/profile/" ++ handle (post_author x_post)
       ++ "/post/" ++ "x")%string.
Proof.
  apply (bskyPostToComment_sourceUrl x_post
           "at://did:plc:reader/app.bsky.feed.post" "x").
  - reflexivity.
  - intros c [<-|[]]. discriminate.
Defined.

End CommentTreeFacts.

(* ===================================================================== *)
(** * Properties of [fetchComments]: the cap, and a failing fetch        *)
(* ===================================================================== *)

Section FetchCommentsFacts.

Import Comments CommentTrees FetchScenarios.
Local Open Scope Z_scope.

Lemma no_parent_loop_check cs :
  forallb (anchored (length cs) cs) cs = true -> no_parent_loop cs.
Proof.
  intros H c Hc. rewrite forallb_forall in H. apply H. by apply list_elem_of_In.
Qed.

(** ** The cap on the number of comments *)

(** C4, as stated, fails, in three ways.  With a cap of 3 and a thread whose
    three replies are x, its reply y, and x again, the tree holds x twice,
    each time with y below it: 4 comments.  With a cap of -1, [slice] drops
    the last comment only, and the tree of 1 comment is not within the cap
    either.  With a cap of 5 and a search that finds e and f, which reply to
    each other, and z, the three are retained but the tree holds z alone:
    the comments of the result are not the first [maxComments] candidates. *)
Lemma fetchComments_cap_violated :
  (cap_of repeated_options = 3
   /\ length (threadReplies repeated_api repeated_options) = 3%nat
   /\ exists tree, fetchComments 5 repeated_api repeated_options = Some tree
        /\ countComments tree = 4
        /\ ~ countComments tree <= cap_of repeated_options)
  /\ (cap_of negative_cap_options = -1
      /\ exists tree, fetchComments 5 plain_api negative_cap_options = Some tree
           /\ countComments tree = 1
           /\ ~ countComments tree <= cap_of negative_cap_options)
  /\ (cap_of loop_options = 5
      /\ limitedComments loop_api loop_options
         = map bskyPostToComment [e_post; f_post; z_post]
      /\ exists tree, fetchComments 5 loop_api loop_options = Some tree
           /\ countComments tree = 1
           /\ bskyPostToComment e_post ∉ flattenComments tree).
Proof.
  split; [|split].
  - split; [reflexivity|]. split; [reflexivity|].
    eexists. split; [vm_compute; reflexivity|].
    split; [vm_compute; reflexivity|]. vm_compute. by intros H.
  - split; [reflexivity|].
    eexists. split; [vm_compute; reflexivity|].
    split; [vm_compute; reflexivity|]. vm_compute. by intros H.
  - split; [reflexivity|]. split; [vm_compute; reflexivity|].
    eexists. split; [vm_compute; reflexivity|].
    split; [vm_compute; reflexivity|].
    vm_compute. intros [H|H]%elem_of_cons; [discriminate H|].
    by apply elem_of_nil in H.
Qed.

(** C4, amended: when the thread replies have pairwise distinct addresses
    and [maxComments] is not negative, the retained comments are the first
    [maxComments] elements of the thread replies followed by the
    deduplicated search mentions, so that search mentions are retained only
    after all the thread replies.  [fetchComments] returns a tree of at
    most [maxComments] comments, nested replies counted, all of them
    retained comments; and when no retained comment is in a parent loop or
    hangs from one, the comments of the tree are exactly the retained
    comments, each once, so that the tree has [maxComments] comments, or all
    the candidates when these are fewer. *)
Theorem fetchComments_cap (api : Api) (options : FetchCommentsOptions)
    (fuel : nat) :
  NoDup (map uri_of (threadReplies api options)) ->
  0 <= cap_of options ->
  (Z.to_nat (cap_of options) < fuel)%nat ->
  let thread := threadReplies api options in
  let mentions :=
    accepted (existingUris api options) (searchMentions api options) in
  let n := Z.to_nat (cap_of options) in
  let kept := take n thread ++ take (n - length thread) mentions in
  kept = take n (thread ++ mentions)
  /\ exists tree,
       fetchComments fuel api options = Some tree
       /\ countComments tree <= cap_of options
       /\ (forall c, c ∈ flattenComments tree -> c ∈ kept)
       /\ (no_parent_loop kept ->
           flattenComments tree ≡ₚ kept
           /\ countComments tree
              = Z.min (cap_of options)
                      (Z.of_nat (length thread + length mentions))).
Proof.
  intros Hnd Hcap Hfuel thread mentions n kept.
  assert (Hkept : kept = take n (thread ++ mentions)).
  { unfold kept. by rewrite take_app. }
  assert (Hlim : limitedComments api options = kept).
  { rewrite Hkept. unfold limitedComments. fold (cap_of options).
    by rewrite slice0_nonneg, collectComments_eq. }
  split; [done|].
  assert (Hlen : (length kept <= n)%nat).
  { rewrite Hkept, length_take. lia. }
  pose proof (limited_NoDup api options Hnd) as Hnd'.
  pose proof (limited_flat api options) as Hflat.
  rewrite Hlim in Hnd', Hflat.
  destruct (buildCommentTree_distinct kept fuel)
    as (tree & Htree & _ & _ & Hfrom); [done|lia|].
  exists tree. split; [unfold fetchComments; by rewrite Hlim|].
  split; [|split].
  - pose proof (buildCommentTree_count kept fuel tree Hnd' ltac:(lia) Htree). lia.
  - intros c Hc. destruct (Hfrom c Hc) as (c0 & Hc0 & ->).
    rewrite is_flat_eq; [done|].
    rewrite Forall_forall in Hflat. by apply Hflat.
  - intros Hloop.
    assert (Hperm : flattenComments tree ≡ₚ kept).
    { apply (buildCommentTree_complete kept fuel); [done..|lia|done]. }
    split; [done|].
    rewrite countComments_flatten, Hperm, Hkept, length_take, length_app. lia.
Qed.

Lemma fetchComments_cap_witness :
  cap_of cap_options = 5
  /\ length (threadReplies cap_api cap_options) = 3%nat
  /\ length (accepted (existingUris cap_api cap_options)
                      (searchMentions cap_api cap_options)) = 5%nat
  /\ exists tree,
       fetchComments 6 cap_api cap_options = Some tree
       /\ countComments tree = 5
       /\ flattenComments tree
          ≡ₚ threadReplies cap_api cap_options
             ++ take 2 (accepted (existingUris cap_api cap_options)
                                 (searchMentions cap_api cap_options)).
Proof.
  split; [reflexivity|].
  split; [vm_compute; reflexivity|].
  split; [vm_compute; reflexivity|].
  destruct (fetchComments_cap cap_api cap_options 6)
    as (_ & tree & Htree & _ & _ & Hexact).
  - apply (bool_decide_unpack _). vm_compute. reflexivity.
  - vm_compute. discriminate.
  - vm_compute. lia.
  - exists tree. split; [exact Htree|].
    destruct Hexact as [Hperm Hcount].
    + apply no_parent_loop_check. vm_compute. reflexivity.
    + split; [exact Hcount | exact Hperm].
Defined.

(** ** Failure of one of the two fetches *)

Lemma uri_of_bskyPostToComment posts :
  map uri_of (map bskyPostToComment posts) = map post_uri posts.
Proof. induction posts as [|p posts IH]; [done|]. cbn [map]. by rewrite IH. Qed.

(** Two nodes that are each the only reply of the other: [sortTree] goes
    from the one to the other without end. *)
Lemma sortTree_loop (st : Store) (x y : string) :
  read_array st (RepliesOf x) = [y] ->
  read_array st (RepliesOf y) = [x] ->
  write_array st (RepliesOf x) [y] = st ->
  write_array st (RepliesOf y) [x] = st ->
  forall fuel,
    sortTree fuel (RepliesOf x) st = None
    /\ sortTree fuel (RepliesOf y) st = None.
Proof.
  intros Rx Ry Wx Wy.
  induction fuel as [|fuel [IHx IHy]]; [split; reflexivity|].
  rewrite !sortTree_unfold. rewrite Rx, Ry.
  cbn [array_sort sort_insert]. rewrite Wx, Wy.
  cbn [foldM]. unfold sort_replies. rewrite Rx, Ry, IHx, IHy.
  split; reflexivity.
Qed.

Lemma looping_store_sortTree fuel :
  sortTree fuel (RepliesOf x_uri) looping_store = None.
Proof.
  apply (sortTree_loop looping_store x_uri y_uri); vm_compute; reflexivity.
Qed.

(** C8, as stated, fails.  When the thread fetch throws and the search finds
    z and the root post, [fetchComments] returns the tree of z alone, not
    the tree built from the two search results: the root post is still
    excluded (as are repeated addresses, and what exceeds the cap).  And
    when the search throws, the thread replies are returned only if
    [buildCommentTree] ends: for a thread that gives the address of x twice,
    as a reply to the root post and as a reply to its own reply y,
    [sortTree] never ends and [fetchComments] raises. *)
Lemma fetchComments_failure_not_isolated :
  (getPostThread failing_thread_api default_service root_uri 3
     = Throws "fetch failed"
   /\ searchPosts failing_thread_api default_service
        "https://blog.example/post" 10
      = Returns (Some [z_post; root_post])
   /\ fetchComments 6 failing_thread_api plain_options
      = Some [with_replies (bskyPostToComment z_post) []]
   /\ buildCommentTree 6 (map bskyPostToComment [z_post; root_post])
      = Some [with_replies (bskyPostToComment root_post) [];
              with_replies (bskyPostToComment z_post) []]
   /\ fetchComments 6 failing_thread_api plain_options
      <> buildCommentTree 6 (map bskyPostToComment [z_post; root_post]))
  /\ (getPostThread looping_api default_service root_uri 3
        = Returns (Some looping_thread)
      /\ searchPosts looping_api default_service
           "https://blog.example/post" 10
         = Throws "fetch failed"
      /\ forall fuel, fetchComments fuel looping_api plain_options = None).
Proof.
  split.
  - split; [reflexivity|]. split; [reflexivity|].
    split; [vm_compute; reflexivity|].
    split; [vm_compute; reflexivity|].
    vm_compute. intros H. discriminate H.
  - split; [reflexivity|]. split; [reflexivity|].
    intros fuel. unfold fetchComments.
    assert (E : limitedComments looping_api plain_options
                = processThread looping_thread 3 0) by (vm_compute; reflexivity).
    rewrite E. unfold buildCommentTree. fold looping_store.
    destruct fuel as [|fuel]; [done|].
    rewrite sortTree_unfold.
    assert (Rr : read_array looping_store RootArray = [x_uri])
      by (vm_compute; reflexivity).
    assert (Wr : write_array looping_store RootArray [x_uri] = looping_store)
      by (vm_compute; reflexivity).
    assert (Rx : read_array looping_store (RepliesOf x_uri) = [y_uri])
      by (vm_compute; reflexivity).
    rewrite Rr. cbn [array_sort sort_insert]. rewrite Wr.
    cbn [foldM]. unfold sort_replies.
    rewrite Rx. rewrite (looping_store_sortTree fuel). reflexivity.
Qed.

(** C8, amended.  With a root post and a canonical address given: when the
    thread fetch throws and the search returns posts, [fetchComments]
    raises nothing and returns the tree built from the search results
    after the usual filtering (results with the address of the root post or
    of an earlier result are dropped, and the list is cut at
    [maxComments]); this is exactly the tree built from the search results
    when these have pairwise distinct addresses, none of them the root
    post's, and are not more than [maxComments].  When the search throws
    and the thread fetch returns a thread, [fetchComments] returns the tree
    built from the replies of the thread, cut at [maxComments], and raises
    nothing when these replies have pairwise distinct addresses.  A failing
    fetch contributes the empty list, and nothing more. *)
Theorem fetchComments_failure_isolation (api : Api)
    (options : FetchCommentsOptions) (postUri url error : string) :
  truthy (bskyPostUri options) = Some postUri ->
  truthy (canonicalUrl options) = Some url ->
  (forall posts,
      getPostThread api (service_of options) postUri (depth_of options)
        = Throws error ->
      searchPosts api (service_of options) url (Z.max 10 (cap_of options))
        = Returns (Some posts) ->
      let found := map bskyPostToComment posts in
      (forall fuel,
          fetchComments fuel api options
          = buildCommentTree fuel
              (slice0 (accepted {[postUri]} found) (cap_of options)))
      /\ (forall fuel,
            (length posts < fuel)%nat ->
            is_Some (fetchComments fuel api options))
      /\ (NoDup (map post_uri posts) ->
          postUri ∉ map post_uri posts ->
          Z.of_nat (length posts) <= cap_of options ->
          forall fuel,
            fetchComments fuel api options = buildCommentTree fuel found))
  /\ (forall thread,
        getPostThread api (service_of options) postUri (depth_of options)
          = Returns (Some thread) ->
        String.eqb (type_of thread) "app.bsky.feed.defs#notFoundPost" = false ->
        let replies := processThread thread (depth_of options) 0 in
        searchPosts api (service_of options) url
          (Z.max 10 (cap_of options - Z.of_nat (length replies)))
          = Throws error ->
        (forall fuel,
            fetchComments fuel api options
            = buildCommentTree fuel (slice0 replies (cap_of options)))
        /\ (Z.of_nat (length replies) <= cap_of options ->
            forall fuel,
              fetchComments fuel api options = buildCommentTree fuel replies)
        /\ (NoDup (map uri_of replies) ->
            forall fuel,
              (length replies < fuel)%nat ->
              is_Some (fetchComments fuel api options))).
Proof.
  intros Hpost Hurl. split.
  - intros posts Hthrow Hsearch found.
    assert (Hthread : threadReplies api options = []).
    { unfold threadReplies. rewrite Hpost.
      by apply (fetchBlueskyReplies_throws _ _ _ _ error). }
    assert (Hfound : searchMentions api options = found).
    { unfold searchMentions. rewrite Hurl, Hthread. cbn [length].
      replace (cap_of options - Z.of_nat 0) with (cap_of options) by lia.
      unfold searchBlueskyMentions.
      change (default 25 (Some ?l)) with l.
      change (default default_service (Some (service_of options)))
        with (service_of options).
      by rewrite Hsearch. }
    assert (Hex : existingUris api options = {[postUri]}).
    { unfold existingUris. rewrite Hthread, Hpost. cbn [map list_to_set].
      by rewrite (left_id_L ∅ (∪)). }
    assert (Hfetch : forall fuel,
               fetchComments fuel api options
               = buildCommentTree fuel
                   (slice0 (accepted {[postUri]} found) (cap_of options))).
    { intros fuel. unfold fetchComments, limitedComments.
      by rewrite collectComments_eq, Hthread, Hex, Hfound. }
    assert (Hlen : length found = length posts) by apply length_map.
    split; [done|]. split.
    + intros fuel Hfuel. rewrite Hfetch.
      destruct (slice0_prefix (accepted {[postUri]} found) (cap_of options))
        as [n Hn].
      destruct (buildCommentTree_distinct
                  (slice0 (accepted {[postUri]} found) (cap_of options)) fuel)
        as (tree & -> & _).
      * rewrite Hn, <- firstn_map.
        eapply sublist_NoDup; [apply accepted_NoDup | apply sublist_take].
      * eapply Nat.le_lt_trans; [apply slice0_length|].
        eapply Nat.le_lt_trans; [|exact Hfuel].
        rewrite <- Hlen. apply sublist_length, accepted_sublist.
      * by eexists.
    + intros Hnd Hroot Hcap fuel. rewrite Hfetch.
      rewrite accepted_all.
      * rewrite slice0_all; [done|]. by rewrite Hlen.
      * unfold found. by rewrite uri_of_bskyPostToComment.
      * intros c Hc Heq%elem_of_singleton. apply Hroot. rewrite <- Heq.
        rewrite <- uri_of_bskyPostToComment. apply elem_of_map. by exists c.
  - intros thread Hreturn Htype replies Hthrow.
    assert (Hthread : threadReplies api options = replies).
    { unfold threadReplies. rewrite Hpost. unfold fetchBlueskyReplies.
      change (default 3 (Some (depth_of options))) with (depth_of options).
      change (default default_service (Some (service_of options)))
        with (service_of options).
      rewrite Hreturn. destruct thread as [ty post rs].
      cbn [type_of] in Htype. by rewrite Htype. }
    assert (Hsearch : searchMentions api options = []).
    { unfold searchMentions. rewrite Hurl, Hthread.
      by apply (searchBlueskyMentions_throws _ _ _ _ error). }
    assert (Hfetch : forall fuel,
               fetchComments fuel api options
               = buildCommentTree fuel (slice0 replies (cap_of options))).
    { intros fuel. unfold fetchComments, limitedComments.
      rewrite collectComments_eq, Hthread, Hsearch. cbn [accepted].
      by rewrite app_nil_r. }
    split; [done|]. split.
    + intros Hcap fuel. by rewrite Hfetch, slice0_all.
    + intros Hnd fuel Hfuel. rewrite Hfetch.
      destruct (slice0_prefix replies (cap_of options)) as [n Hn].
      destruct (buildCommentTree_distinct (slice0 replies (cap_of options)) fuel)
        as (tree & -> & _).
      * rewrite Hn, <- firstn_map.
        eapply sublist_NoDup; [done | apply sublist_take].
      * eapply Nat.le_lt_trans; [apply slice0_length | done].
      * by eexists.
Qed.

Lemma fetchComments_failure_isolation_witness :
  (fetchComments 6 thread_down_api plain_options
     = buildCommentTree 6 (map bskyPostToComment [z_post; m2_post])
   /\ is_Some (fetchComments 6 thread_down_api plain_options))
  /\ (fetchComments 6 failing_search_api plain_options
        = buildCommentTree 6 (processThread plain_thread 3 0)
      /\ is_Some (fetchComments 6 failing_search_api plain_options)).
Proof.
  split.
  - destruct (fetchComments_failure_isolation thread_down_api plain_options
                root_uri "https://blog.example/post" "fetch failed"
                eq_refl eq_refl) as [H _].
    destruct (H [z_post; m2_post] eq_refl eq_refl) as (_ & Hsome & Hexact).
    split.
    + apply Hexact.
      * apply (bool_decide_unpack _). vm_compute. reflexivity.
      * apply (bool_decide_unpack _). vm_compute. reflexivity.
      * vm_compute. discriminate.
    + apply Hsome. vm_compute. lia.
  - destruct (fetchComments_failure_isolation failing_search_api plain_options
                root_uri "https://blog.example/post" "fetch failed"
                eq_refl eq_refl) as [_ H].
    destruct (H plain_thread eq_refl eq_refl eq_refl) as (_ & Hexact & Hsome).
    split.
    + apply Hexact. vm_compute. discriminate.
    + apply Hsome.
      * apply (bool_decide_unpack _). vm_compute. reflexivity.
      * vm_compute. lia.
Defined.

End FetchCommentsFacts.

(* ===================================================================== *)
(** * Further properties of the timestamp identifiers                    *)
(* ===================================================================== *)

Section TidMoreFacts.

Import Tid.
Local Open Scope Z_scope.

(** X8: the layout of the composed value, for a clock identifier of ten
    bits: the low 53 bits of the timestamp above the clock identifier, and
    nothing else; bits of the timestamp from bit 53 on are dropped by the
    mask, and the value is below 2^63. *)
Theorem tid_value_layout (now clockId : Z) :
  0 <= clockId < 2 ^ 10 ->
  tid_value now clockId = (now mod 2 ^ 53) * 2 ^ 10 + clockId
  /\ tid_value (now + 2 ^ 53) clockId = tid_value now clockId
  /\ Z.testbit (tid_value now clockId) 63 = false.
Proof.
  intros Hc.
  assert (Hval : forall n, tid_value n clockId = (n mod 2 ^ 53) * 2 ^ 10 + clockId).
  { intros n. unfold tid_value. rewrite lor_shiftl_small by exact Hc.
    rewrite mask_is_ones, Z.land_ones by lia.
    rewrite (Z.div_mod n (2 ^ 53)) at 1 by lia.
    replace ((2 ^ 53 * (n / 2 ^ 53) + n mod 2 ^ 53) * 2 ^ 10 + clockId)
      with ((n mod 2 ^ 53) * 2 ^ 10 + clockId + (n / 2 ^ 53) * 2 ^ 63) by lia.
    rewrite Z.mod_add by lia. apply Z.mod_small.
    pose proof (Z.mod_pos_bound n (2 ^ 53)). lia. }
  split; [apply Hval|]. split.
  - rewrite !Hval. f_equal. f_equal.
    replace (now + 2 ^ 53) with (now + 1 * 2 ^ 53) by lia.
    apply Z.mod_add. lia.
  - pose proof (tid_value_range now clockId) as Hr.
    destruct (Z.eq_dec (tid_value now clockId) 0) as [->|Hnz];
      [apply Z.bits_0|].
    apply Z.bits_above_log2; [lia|]. apply Z.log2_lt_pow2; lia.
Qed.

Lemma tid_value_layout_witness :
  tid_value 1700000000000000 512 = (1700000000000000 mod 2 ^ 53) * 2 ^ 10 + 512
  /\ tid_value (1700000000000000 + 2 ^ 53) 512 = tid_value 1700000000000000 512
  /\ Z.testbit (tid_value 1700000000000000 512) 63 = false.
Proof. apply (tid_value_layout 1700000000000000 512). lia. Defined.

Lemma string_lt_irrefl s : string_lt s s = false.
Proof.
  induction s as [|c s IH]; [done|].
  cbn [string_lt]. by rewrite N.ltb_irrefl.
Qed.

Lemma string_lt_asym a : forall b,
  string_lt a b = true -> string_lt b a = false.
Proof.
  induction a as [|c a IH]; intros [|d b]; cbn [string_lt]; try done.
  destruct (N.ltb_spec (N_of_ascii c) (N_of_ascii d)) as [Hlt|Hge].
  - intros _. destruct (N.ltb_spec (N_of_ascii d) (N_of_ascii c)); [lia | done].
  - destruct (N.ltb_spec (N_of_ascii d) (N_of_ascii c)); [done|]. apply IH.
Qed.

Lemma encode_tid_inj a b :
  0 <= a < 2 ^ 65 -> 0 <= b < 2 ^ 65 -> encode_tid a = encode_tid b -> a = b.
Proof.
  intros Ha Hb Heq. destruct (Z.lt_trichotomy a b) as [Hlt|[Heq'|Hgt]]; [|done|].
  - pose proof (encode_tid_lt a b ltac:(lia) Hlt ltac:(lia)) as H.
    by rewrite Heq, string_lt_irrefl in H.
  - pose proof (encode_tid_lt b a ltac:(lia) Hgt ltac:(lia)) as H.
    by rewrite Heq, string_lt_irrefl in H.
Qed.

Lemma generateTid_value t r :
  0 <= t -> t * 1000 < 2 ^ 53 -> (0 <= r)%Q -> (r < 1)%Q ->
  generateTid t r = encode_tid (t * 1000 * 2 ^ 10 + clockId_of r)
  /\ 0 <= t * 1000 * 2 ^ 10 + clockId_of r < 2 ^ 63.
Proof.
  intros Ht Ht' Hr Hr'. pose proof (clockId_range r Hr Hr') as Hc.
  unfold generateTid, now_of. rewrite to_number_small by lia.
  rewrite tid_value_small by lia. split; [done | lia].
Qed.

(** X9: two calls whose timestamps fit the 53-bit field return the same
    string exactly when they read the same millisecond and draw the same
    clock identifier: the 13 characters determine the timestamp and the
    clock identifier. *)
Theorem generateTid_collision (t1 t2 : Z) (r1 r2 : Q) :
  0 <= t1 -> t1 * 1000 < 2 ^ 53 -> 0 <= t2 -> t2 * 1000 < 2 ^ 53 ->
  (0 <= r1)%Q -> (r1 < 1)%Q -> (0 <= r2)%Q -> (r2 < 1)%Q ->
  generateTid t1 r1 = generateTid t2 r2
  <-> t1 = t2 /\ clockId_of r1 = clockId_of r2.
Proof.
  intros H1 H1' H2 H2' Hr1 Hr1' Hr2 Hr2'.
  destruct (generateTid_value t1 r1) as [-> Hv1]; [done..|].
  destruct (generateTid_value t2 r2) as [-> Hv2]; [done..|].
  pose proof (clockId_range r1 Hr1 Hr1') as Hc1.
  pose proof (clockId_range r2 Hr2 Hr2') as Hc2.
  split.
  - intros Heq. apply encode_tid_inj in Heq; lia.
  - intros [-> ->]. reflexivity.
Qed.

Lemma generateTid_collision_witness :
  generateTid 1700000000000 (1 # 2) = generateTid 1700000000000 (2049 # 4096)
  <-> 1700000000000 = 1700000000000
      /\ clockId_of (1 # 2) = clockId_of (2049 # 4096).
Proof.
  apply (generateTid_collision 1700000000000 1700000000000 (1 # 2) (2049 # 4096));
    try lia; try reflexivity; discriminate.
Defined.

(** X10: inside one millisecond the order of the strings is the order of
    the clock identifiers drawn: two calls in the same millisecond come out
    in call order only if the second draw is the larger one. *)
Theorem generateTid_same_millisecond (t : Z) (r1 r2 : Q) :
  0 <= t -> t * 1000 < 2 ^ 53 ->
  (0 <= r1)%Q -> (r1 < 1)%Q -> (0 <= r2)%Q -> (r2 < 1)%Q ->
  string_lt (generateTid t r1) (generateTid t r2) = true
  <-> clockId_of r1 < clockId_of r2.
Proof.
  intros Ht Ht' Hr1 Hr1' Hr2 Hr2'.
  destruct (generateTid_value t r1) as [-> Hv1]; [done..|].
  destruct (generateTid_value t r2) as [-> Hv2]; [done..|].
  split.
  - intros Hlt.
    destruct (Z.lt_trichotomy (clockId_of r1) (clockId_of r2))
      as [H|[H|H]]; [done| |].
    + by rewrite H, string_lt_irrefl in Hlt.
    + assert (Hrev : string_lt
                (encode_tid (t * 1000 * 2 ^ 10 + clockId_of r2))
                (encode_tid (t * 1000 * 2 ^ 10 + clockId_of r1)) = true)
        by (apply encode_tid_lt; lia).
      apply string_lt_asym in Hrev. congruence.
  - intros H. apply encode_tid_lt; lia.
Qed.

Lemma generateTid_same_millisecond_witness :
  string_lt (generateTid 1700000000000 (3 # 4)) (generateTid 1700000000000 (1 # 4))
    = true
  <-> clockId_of (3 # 4) < clockId_of (1 # 4).
Proof.
  apply (generateTid_same_millisecond 1700000000000 (3 # 4) (1 # 4));
    try lia; try reflexivity; discriminate.
Defined.

End TidMoreFacts.

(* ===================================================================== *)
(** * Further properties of the AT-URI helpers                           *)
(* ===================================================================== *)

Section VerificationMoreFacts.

Import Verification.
Local Open Scope N_scope.

Lemma strip_prefix_Some s : forall input rest,
  strip_prefix s input = Some rest -> input = s ++ rest.
Proof.
  induction s as [|c s IH]; intros [|d input] rest; cbn [strip_prefix];
    try done; try (by intros [= <-]).
  destruct (N.eqb_spec c d) as [->|]; [|done].
  intros H. by rewrite (IH _ _ H).
Qed.

(** What a successful match of a group [X+] and of the rest of the pattern
    says of the input. *)
Lemma greedy_plus_Some cls k input : forall taken captures,
  greedy_plus cls k taken input = Some captures ->
  exists body tail rest,
    input = body ++ tail
    /\ Forall (fun c => cls c = true) body
    /\ taken ++ body <> []
    /\ k tail = Some rest
    /\ captures = (taken ++ body) :: rest.
Proof.
  assert (Hstop : forall taken input captures,
             match taken with
             | [] => None
             | _ :: _ =>
                 match k input with
                 | Some captures => Some (taken :: captures)
                 | None => None
                 end
             end = Some captures ->
             exists body tail rest,
               input = body ++ tail
               /\ Forall (fun c => cls c = true) body
               /\ taken ++ body <> []
               /\ k tail = Some rest
               /\ captures = (taken ++ body) :: rest).
  { intros taken inp captures H. destruct taken as [|t taken]; [done|].
    destruct (k inp) as [rest|] eqn:Hk; [|done]. injection H as <-.
    exists [], inp, rest. rewrite app_nil_r. by repeat split. }
  induction input as [|c input IH]; intros taken captures.
  - cbn [greedy_plus]. apply Hstop.
  - cbn [greedy_plus]. destruct (cls c) eqn:Hc; [|apply Hstop].
    destruct (greedy_plus cls k (taken ++ [c]) input) as [r|] eqn:Hg;
      [|apply Hstop].
    intros [= <-].
    destruct (IH _ _ Hg) as (body & tail & rest & -> & Hbody & Hne & Hk & ->).
    exists (c :: body), tail, rest. rewrite <- app_assoc in *.
    repeat split; try done. by constructor.
Qed.

Lemma not_slash_false c : not_slash c = true -> c <> slash.
Proof. unfold not_slash. intros H ->. done. Qed.

Lemma dot_false c : dot c = true -> ~ line_terminator c.
Proof.
  unfold dot, line_terminator. intros H [-> | [-> | [-> | ->]]]; done.
Qed.

(** X11: whenever [parseAtUri] returns parts, the address is exactly
    [at://<did>/<collection>/<rkey>] for these parts; the identity and the
    collection are not empty and hold no slash, and the key is not empty
    and holds no line terminator.  In particular an address that does not
    start with [at://] is rejected. *)
Theorem parseAtUri_sound (uri : jsstring) (parts : AtUriParts) :
  parseAtUri uri = Some parts ->
  uri = units "at://" ++ did parts ++ [slash] ++ collection parts
          ++ [slash] ++ rkey parts
  /\ did parts <> [] /\ (slash ∉ did parts)
  /\ collection parts <> [] /\ (slash ∉ collection parts)
  /\ rkey parts <> [] /\ (forall c, c ∈ rkey parts -> ~ line_terminator c).
Proof.
  unfold parseAtUri, at_uri_pattern. cbn [match_pattern].
  destruct (strip_prefix (units "at://") uri) as [r1|] eqn:H1; [|done].
  apply strip_prefix_Some in H1 as ->.
  destruct (greedy_plus not_slash _ [] r1) as [caps|] eqn:Hg1; [|done].
  apply greedy_plus_Some in Hg1
    as (b1 & t1 & rest1 & -> & Hb1 & Hne1 & Hk1 & ->).
  destruct (strip_prefix (units "/") t1) as [r2|] eqn:H2; [|done].
  apply strip_prefix_Some in H2 as ->.
  apply greedy_plus_Some in Hk1
    as (b2 & t2 & rest2 & -> & Hb2 & Hne2 & Hk2 & ->).
  destruct (strip_prefix (units "/") t2) as [r3|] eqn:H3; [|done].
  apply strip_prefix_Some in H3 as ->.
  apply greedy_plus_Some in Hk2
    as (b3 & t3 & rest3 & -> & Hb3 & Hne3 & Hk3 & ->).
  destruct t3 as [|? ?]; [|done]. injection Hk3 as <-.
  cbn [app] in *. intros [= <-]. cbn [did collection rkey].
  rewrite app_nil_r.
  split; [reflexivity|].
  rewrite Forall_forall in Hb1, Hb2, Hb3.
  repeat split; try done.
  - intros Hin. by apply (not_slash_false slash (Hb1 _ Hin)).
  - intros Hin. by apply (not_slash_false slash (Hb2 _ Hin)).
  - intros c Hc. by apply dot_false, Hb3.
Qed.

Lemma parseAtUri_sound_witness :
  let uri := getDocumentAtUri (units "did:plc:abc") (units "3jzfcijpj2z2a") in
  let parts := mkParts (units "did:plc:abc") (units "site.standard.document")
                       (units "3jzfcijpj2z2a") in
  uri = units "at://" ++ did parts ++ [slash] ++ collection parts
          ++ [slash] ++ rkey parts
  /\ did parts <> [] /\ (slash ∉ did parts)
  /\ collection parts <> [] /\ (slash ∉ collection parts)
  /\ rkey parts <> [] /\ (forall c, c ∈ rkey parts -> ~ line_terminator c).
Proof.
  apply (parseAtUri_sound
           (getDocumentAtUri (units "did:plc:abc") (units "3jzfcijpj2z2a"))).
  vm_compute. reflexivity.
Defined.

End VerificationMoreFacts.

(* ===================================================================== *)
(** * Properties of logging in and updating                              *)
(* ===================================================================== *)

Section LifecycleFacts.

Import Publisher Lifecycle.
Local Open Scope string_scope.

Lemma prefix_app (p s : string) : String.prefix p (p ++ s) = true.
Proof.
  induction p as [|c p IH]; [by destruct s|].
  rewrite string_app_cons. cbn [String.prefix].
  by destruct (Ascii.ascii_dec c c).
Qed.

Lemma string_drop_app (p s : string) :
  string_drop (String.length p) (p ++ s) = s.
Proof.
  induction p as [|c p IH]; [done|].
  by rewrite string_app_cons.
Qed.

Lemma replace_first_unfold (p r s : string) :
  replace_first p r s =
  if String.prefix p s then r ++ string_drop (String.length p) s
  else match s with
       | EmptyString => EmptyString
       | String c s' => String c (replace_first p r s')
       end.
Proof. by destruct s. Qed.

Lemma replace_first_prefix (p r s : string) :
  replace_first p r (p ++ s) = r ++ s.
Proof.
  by rewrite replace_first_unfold, prefix_app, string_drop_app.
Qed.

Lemma events_fetch_document net did url :
  fst (fetch_document net did url) = [Fetch url].
Proof.
  unfold fetch_document.
  destruct (fetch net url) as [res|e]; [|done].
  by destruct (ok res).
Qed.

Lemma events_getPdsFromDid_plc net did :
  startsWith did "did:plc:" = true ->
  fst (getPdsFromDid net did) = [Fetch ("https://plc.directory/" ++ did)].
Proof.
  intros H. unfold getPdsFromDid. rewrite H.
  pose proof (events_fetch_document net did ("https://plc.directory/" ++ did)) as E.
  destruct (fetch_document _ _ _) as [ev [doc|e]]; exact E.
Qed.

Lemma events_getPdsFromDid_web net did :
  startsWith did "did:plc:" = false ->
  startsWith did "did:web:" = true ->
  fst (getPdsFromDid net did) =
  [Fetch ("https://" ++ replace_first "did:web:" "" did ++ "/.well-known/did.json")].
Proof.
  intros H1 H2. unfold getPdsFromDid. rewrite H1, H2.
  pose proof (events_fetch_document net did
    ("https://" ++ replace_first "did:web:" "" did ++ "/.well-known/did.json")) as E.
  destruct (fetch_document _ _ _) as [ev [doc|e]]; exact E.
Qed.

(** X12: The address of the DID document.  For a [did:plc:] identifier
    [getPdsFromDid] makes one request, to [https://plc.directory/]
    followed by the whole identifier; for [did:web:] followed by [rest] it
    makes one request, to [https://], [rest] taken as it stands, and
    [/.well-known/did.json]. *)
Theorem getPdsFromDid_document_url (net : Network) (rest : string) :
  fst (getPdsFromDid net ("did:plc:" ++ rest))
    = [Fetch ("https://plc.directory/did:plc:" ++ rest)]
  /\ fst (getPdsFromDid net ("did:web:" ++ rest))
    = [Fetch ("https://" ++ rest ++ "/.well-known/did.json")].
Proof.
  split.
  - rewrite events_getPdsFromDid_plc by apply prefix_app.
    reflexivity.
  - rewrite events_getPdsFromDid_web; [|reflexivity|apply prefix_app].
    by rewrite replace_first_prefix.
Qed.

Lemma find_first {A} (f : A -> bool) (before : list A) (x : A) (after : list A) :
  Forall (fun a => f a = false) before -> f x = true ->
  List.find f (before ++ x :: after)%list = Some x.
Proof.
  intros Hb Hx. induction Hb as [|a l Ha _ IH]; cbn.
  - by rewrite Hx.
  - by rewrite Ha.
Qed.

Lemma getPdsFromDid_fetched net did url doc :
  fst (getPdsFromDid net did) = [Fetch url] ->
  fetch net url = Returns (mkResponse true (Returns doc)) ->
  snd (getPdsFromDid net did) = pds_of_document did doc.
Proof.
  unfold getPdsFromDid, fetch_document.
  destruct (startsWith did "did:plc:"); [|destruct (startsWith did "did:web:")].
  - destruct (fetch net _) as [res|e] eqn:E.
    + destruct (ok res) eqn:Ok.
      * destruct (json res) eqn:J; cbn; intros [= <-]; rewrite E;
          intros [= ->]; cbn in J; by simplify_eq.
      * cbn. intros [= <-]. rewrite E. intros [= ->]. done.
    + cbn. intros [= <-]. rewrite E. done.
  - destruct (fetch net _) as [res|e] eqn:E.
    + destruct (ok res) eqn:Ok.
      * destruct (json res) eqn:J; cbn; intros [= <-]; rewrite E;
          intros [= ->]; cbn in J; by simplify_eq.
      * cbn. intros [= <-]. rewrite E. intros [= ->]. done.
    + cbn. intros [= <-]. rewrite E. done.
  - done.
Qed.

(** X13: The first entry decides.  When the DID document is fetched and
    its [service] array holds an entry that names the data server (by type
    or by id) with none before it doing so, [getPdsFromDid] answers from
    that entry alone: its endpoint if it has a non-empty one, the error
    "No PDS found" otherwise, whatever the entries after it hold. *)
Theorem getPdsFromDid_first_service (net : Network) (did url : string)
    (before : list ServiceEntry) (s : ServiceEntry) (after : list ServiceEntry) :
  fst (getPdsFromDid net did) = [Fetch url] ->
  fetch net url
    = Returns (mkResponse true
                 (Returns (mkDidDocument (Some (before ++ s :: after)%list)))) ->
  none_is_pds before ->
  is_pds_service s = true ->
  snd (getPdsFromDid net did)
    = match truthy (serviceEndpoint s) with
      | Some endpoint => Returns endpoint
      | None => Throws ("No PDS found in DID document for " ++ did)
      end.
Proof.
  intros Hev Hfetch Hb Hs.
  rewrite (getPdsFromDid_fetched _ _ _ _ Hev Hfetch).
  unfold pds_of_document, find_pds_service. cbn [doc_service].
  by rewrite (find_first _ _ _ _ Hb Hs).
Qed.

Lemma getPdsFromDid_first_service_witness :
  snd (getPdsFromDid example_network "did:plc:author")
    = Returns "https://pds.example".
Proof.
  apply (getPdsFromDid_first_service example_network "did:plc:author"
           "https://plc.directory/did:plc:author"
           [mkEntry (Some "#other") (Some "Label") (Some "https://label.example")]
           (mkEntry (Some "#atproto_pds") (Some "AtprotoPersonalDataServer")
                    (Some "https://pds.example"))
           [mkEntry (Some "#atproto_pds") None (Some "https://late.example")]).
  - reflexivity.
  - reflexivity.
  - repeat constructor.
  - reflexivity.
Defined.

Lemma getPdsFromDid_truthy net did url :
  snd (getPdsFromDid net did) = Returns url -> url <> "".
Proof.
  unfold getPdsFromDid.
  destruct (if startsWith did "did:plc:" then _ else _) as [ev [doc|e]]; [|done].
  cbn. unfold pds_of_document.
  destruct (find_pds_service doc) as [srv|]; [|done].
  destruct (serviceEndpoint srv) as [[|c t]|]; cbn; try done.
  by intros [= <-].
Qed.

Lemma truthy_Some s t : truthy s = Some t -> s = Some t /\ t <> "".
Proof. destruct s as [[|c u]|]; cbn; intros; by simplify_eq. Qed.

Lemma getDid_Some self d :
  did self = Some d -> d <> "" -> getDid self = Returns d.
Proof. unfold getDid. intros -> H. by destruct d. Qed.

(** X14: What a rejected password leaves behind.  With a DID as the
    identifier and a configured service, when the agent is created and its
    [login] is rejected, [login()] throws that error, yet the publisher is
    left with its DID and its agent set: [getDid] and [getAgent] return,
    and a later [publishDocument] does not stop at "Not logged in" but
    calls [createRecord] on that agent, for the repository of the
    identifier. *)
Theorem login_rejected_keeps_session (net : Network) (config : PublisherConfig)
    (self : StandardSitePublisher) (service : string) (a : AtpAgent) (e : string) :
  startsWith (identifier config) "did:" = true ->
  truthy (config_service config) = Some service ->
  new_AtpAgent net service = Returns a ->
  session_login net service (identifier config) (password config) = Throws e ->
  let self' := fst (fst (login net config self)) in
  snd (login net config self) = Throws e
  /\ getDid self' = Returns (identifier config)
  /\ getAgent self' = Returns a
  /\ forall ms r input,
       fst (publishDocument self' ms r input)
       = [CreateRecordCall
            (mkArgs (identifier config) COLLECTIONS_DOCUMENT
                    (Tid.generateTid ms r)
                    (remove_undefined (document_record input)))].
Proof.
  intros Hdid Hsvc Hnew Hrej. unfold login.
  rewrite Hdid. cbn [negb]. rewrite Hsvc, Hnew, Hrej. cbn.
  assert (Hd : getDid (mkPublisher (Some a) (Some (identifier config)) (Some service))
               = Returns (identifier config)).
  { apply getDid_Some; [done|]. intros E. by rewrite E in Hdid. }
  repeat split; try done.
  intros ms r input. unfold publishDocument. rewrite Hd. cbn.
  by destruct (createRecord a _).
Qed.

Lemma login_rejected_keeps_session_witness :
  let self' := fst (fst (login rejecting_network direct_config logged_out)) in
  snd (login rejecting_network direct_config logged_out)
    = Throws "Invalid identifier or password"
  /\ getDid self' = Returns "did:plc:author"
  /\ getAgent self' = Returns (example_agent "https://pds.example")
  /\ forall ms r input,
       fst (publishDocument self' ms r input)
       = [CreateRecordCall
            (mkArgs "did:plc:author" COLLECTIONS_DOCUMENT
                    (Tid.generateTid ms r)
                    (remove_undefined (document_record input)))].
Proof.
  apply (login_rejected_keeps_session rejecting_network direct_config logged_out
           "https://pds.example" (example_agent "https://pds.example")
           "Invalid identifier or password"); reflexivity.
Defined.

(** X15: No lookup when both are given.  With a DID as the identifier and
    a configured service, [login()] resolves nothing: no handle request and
    no fetch of a DID document is made, whatever the DID method, and the
    DID recorded is the identifier as given.  The only requests are those
    of the agent's own [login]. *)
Theorem login_without_lookup (net : Network) (config : PublisherConfig)
    (self : StandardSitePublisher) (service : string) :
  startsWith (identifier config) "did:" = true ->
  truthy (config_service config) = Some service ->
  (forall ev, ev ∈ snd (fst (login net config self)) ->
     ev = SessionLogin service (identifier config) (password config))
  /\ did (fst (fst (login net config self))) = Some (identifier config)
  /\ pdsUrl (fst (fst (login net config self))) = Some service.
Proof.
  intros Hdid Hsvc. unfold login.
  rewrite Hdid. cbn [negb]. rewrite Hsvc.
  destruct (new_AtpAgent net service) as [a|e]; cbn.
  - destruct (session_login net _ _ _); cbn; (split; [|done]);
      intros ev Hev; by apply list_elem_of_singleton in Hev.
  - split; [|done]. intros ev Hev. by apply elem_of_nil in Hev.
Qed.

Lemma login_without_lookup_witness :
  (forall ev, ev ∈ snd (fst (login example_network direct_config logged_out)) ->
     ev = SessionLogin "https://pds.example" "did:plc:author" "app-password")
  /\ did (fst (fst (login example_network direct_config logged_out)))
     = Some "did:plc:author"
  /\ pdsUrl (fst (fst (login example_network direct_config logged_out)))
     = Some "https://pds.example".
Proof.
  apply (login_without_lookup example_network direct_config logged_out
           "https://pds.example"); reflexivity.
Defined.

Lemma last_snoc_app {A} (l1 l2 : list A) (x : A) :
  last (l1 ++ l2 ++ [x])%list = Some x.
Proof. by rewrite app_assoc, last_snoc. Qed.

(** X16: What a successful login establishes.  When [login()] returns,
    whatever the publisher held before, its three fields are set: the
    service is a non-empty address ([getPdsUrl] returns it), the agent is
    the one created for that service, and the last request made was that
    agent's [login], with the identifier and the password of the
    configuration, which the service accepted.  The service is the
    configured one when there is one, and the DID is the identifier itself
    when that starts with [did:]; unless the DID is the empty string,
    [getDid] returns it. *)
Theorem login_returns (net : Network) (config : PublisherConfig)
    (self self' : StandardSitePublisher) (events : list NetworkEvent) :
  login net config self = (self', events, Returns tt) ->
  exists a d s,
    self' = mkPublisher (Some a) (Some d) (Some s)
    /\ new_AtpAgent net s = Returns a
    /\ session_login net s (identifier config) (password config) = Returns tt
    /\ last events = Some (SessionLogin s (identifier config) (password config))
    /\ getPdsUrl self' = Returns s
    /\ getAgent self' = Returns a
    /\ (d <> "" -> getDid self' = Returns d)
    /\ (startsWith (identifier config) "did:" = true -> d = identifier config)
    /\ (forall s', truthy (config_service config) = Some s' -> s = s').
Proof.
  unfold login.
  destruct (if negb (startsWith (identifier config) "did:") then _ else _)
    as [events1 [d|e]] eqn:E1; [|done].
  destruct (match truthy (config_service config) with Some _ => _ | None => _ end)
    as [events2 [s|e]] eqn:E2; [|done].
  destruct (new_AtpAgent net s) as [a|e] eqn:E3; [|done].
  destruct (session_login net s _ _) as [[]|e] eqn:E4; [|done].
  intros [= <- <-]. exists a, d, s.
  assert (Hs : s <> "").
  { destruct (truthy (config_service config)) as [s0|] eqn:T.
    - simplify_eq. by apply truthy_Some in T as [_ ?].
    - apply (getPdsFromDid_truthy net d). by rewrite E2. }
  repeat split; try done.
  - apply last_snoc_app.
  - unfold getPdsUrl. cbn. by destruct s.
  - intros Hd. by apply getDid_Some.
  - intros H. rewrite H in E1. cbn in E1. by simplify_eq.
  - intros s' T. rewrite T in E2. by simplify_eq.
Qed.

Lemma login_returns_witness :
  exists a d s,
    fst (fst (login example_network handle_config logged_out))
      = mkPublisher (Some a) (Some d) (Some s)
    /\ new_AtpAgent example_network s = Returns a
    /\ session_login example_network s (identifier handle_config)
         (password handle_config) = Returns tt
    /\ last (snd (fst (login example_network handle_config logged_out)))
       = Some (SessionLogin s (identifier handle_config) (password handle_config))
    /\ getPdsUrl (fst (fst (login example_network handle_config logged_out)))
       = Returns s
    /\ getAgent (fst (fst (login example_network handle_config logged_out)))
       = Returns a
    /\ (d <> "" ->
        getDid (fst (fst (login example_network handle_config logged_out)))
        = Returns d)
    /\ (startsWith (identifier handle_config) "did:" = true ->
        d = identifier handle_config)
    /\ (forall s', truthy (config_service handle_config) = Some s' -> s = s').
Proof.
  apply (login_returns example_network handle_config logged_out). reflexivity.
Defined.

(** X17: What an update sends.  For a publisher whose DID and agent are
    set, [updateDocument] makes exactly one [putRecord] call: for the
    repository of the DID, the document collection and the record key it
    was given, unchanged.  The record it sends always has an [updatedAt]:
    the input's when the input has one, in which case the record is the
    very record [publishDocument] would send, and the current time
    otherwise. *)
Theorem updateDocument_put
    (putRecord : PutRecordArgs -> outcome PublishResult)
    (self : StandardSitePublisher) (now rkey d : string) (a : AtpAgent)
    (input : PublishDocumentInput) :
  getDid self = Returns d ->
  getAgent self = Returns a ->
  exists args,
    fst (updateDocument putRecord self now rkey input) = [args]
    /\ put_repo args = d
    /\ put_collection args = "site.standard.document"
    /\ put_rkey args = rkey
    /\ ("updatedAt", VString (default now (updatedAt input))) ∈ put_record args
    /\ (updatedAt input <> None ->
        put_record args = remove_undefined (document_record input)).
Proof.
  intros Hd Ha. unfold updateDocument. rewrite Hd, Ha.
  eexists. split.
  { destruct (putRecord _); reflexivity. }
  cbn [put_repo put_collection put_rkey put_record].
  repeat split.
  - apply elem_of_remove_undefined. unfold updated_record.
    destruct (updatedAt input); cbn [default];
      rewrite !elem_of_cons; do 6 right; by left.
  - intros Hu. unfold updated_record, document_record.
    by destruct (updatedAt input).
Qed.

Lemma updateDocument_put_witness :
  exists args,
    fst (updateDocument (fun _ => Throws "offline") logged_in
           "2026-01-01T00:00:00.000Z" "3jzfcijpj2z2a" empty_input) = [args]
    /\ put_repo args = "did:plc:author"
    /\ put_collection args = "site.standard.document"
    /\ put_rkey args = "3jzfcijpj2z2a"
    /\ ("updatedAt", VString (default "2026-01-01T00:00:00.000Z"
                                (updatedAt empty_input))) ∈ put_record args
    /\ (updatedAt empty_input <> None ->
        put_record args = remove_undefined (document_record empty_input)).
Proof.
  apply (updateDocument_put (fun _ => Throws "offline") logged_in
           "2026-01-01T00:00:00.000Z" "3jzfcijpj2z2a" "did:plc:author"
           accepting_agent empty_input); reflexivity.
Defined.

End LifecycleFacts.

(* ===================================================================== *)
(** * Properties of the record keys made from slugs                      *)
(* ===================================================================== *)

Section RkeyFacts.

Import Verification Rkey.
Local Open Scope N_scope.

Lemma key_unit_not_dash c : is_key_unit c = true -> c <> dash.
Proof. unfold is_key_unit, dash. intros H ->. done. Qed.

Lemma replace_runs_head_in_run s : head (replace_runs true s) <> Some dash.
Proof.
  induction s as [|c rest IH]; cbn; [done|].
  destruct (is_key_unit c) eqn:K; [|done].
  cbn. intros [= E]. by apply key_unit_not_dash in K.
Qed.

Lemma separated_cons a s :
  separated (a :: s) <-> (a = dash -> head s <> Some dash) /\ separated s.
Proof.
  cbn [separated]. destruct s as [|b s']; cbn [head].
  - split; [by intros [_ ?]|by intros [_ ?]].
  - split; intros [H1 H2]; (split; [|done]).
    + intros -> [= ->]. by apply H1.
    + intros [-> ->]. by apply H1.
Qed.

Lemma replace_runs_separated r s : separated (replace_runs r s).
Proof.
  revert r. induction s as [|c rest IH]; intros r; cbn [replace_runs]; [done|].
  destruct (is_key_unit c) eqn:K.
  - apply separated_cons. split; [|apply IH].
    intros E. by apply key_unit_not_dash in K.
  - destruct r; [apply IH|].
    apply separated_cons. split; [|apply IH].
    intros _. apply replace_runs_head_in_run.
Qed.

Lemma replace_runs_units r s :
  Forall (fun u => is_key_unit u = true \/ u = dash) (replace_runs r s).
Proof.
  revert r. induction s as [|c rest IH]; intros r; cbn [replace_runs]; [done|].
  destruct (is_key_unit c) eqn:K.
  - constructor; [by left|apply IH].
  - destruct r; [apply IH|]. constructor; [by right|apply IH].
Qed.

Lemma strip_first_dash_sublist s : sublist (strip_first_dash s) s.
Proof.
  destruct s as [|c rest]; cbn; [done|].
  destruct (c =? dash); [by apply sublist_cons|done].
Qed.

Lemma strip_first_dash_head s :
  separated s -> head (strip_first_dash s) <> Some dash.
Proof.
  destruct s as [|c rest]; cbn [strip_first_dash]; [done|].
  intros [H _]%separated_cons.
  destruct (N.eqb_spec c dash) as [->|Hc]; [by apply H|].
  cbn. by intros [= ?].
Qed.

Lemma strip_first_dash_separated s :
  separated s -> separated (strip_first_dash s).
Proof.
  destruct s as [|c rest]; cbn [strip_first_dash]; [done|].
  intros H. destruct (c =? dash); [|done].
  by apply separated_cons in H as [_ ?].
Qed.

Lemma strip_last_dash_unfold c rest :
  strip_last_dash (c :: rest) =
  match rest with
  | [] => if c =? dash then [] else [c]
  | _ :: _ => c :: strip_last_dash rest
  end.
Proof. done. Qed.

Lemma strip_last_dash_head s :
  head s <> Some dash -> head (strip_last_dash s) <> Some dash.
Proof.
  destruct s as [|c [|b rest]]; cbn; try done.
  destruct (c =? dash); done.
Qed.

Lemma strip_last_dash_head_two b rest :
  head (strip_last_dash (b :: rest)) = Some dash -> b = dash.
Proof.
  rewrite strip_last_dash_unfold. destruct rest.
  - destruct (N.eqb_spec b dash); [done|]. cbn. by intros [= ?].
  - cbn. by intros [= ?].
Qed.

Lemma strip_last_dash_separated s :
  separated s -> separated (strip_last_dash s).
Proof.
  induction s as [|a rest IH]; [done|].
  intros [H1 H2]%separated_cons.
  rewrite strip_last_dash_unfold. destruct rest as [|b rest'].
  - by destruct (a =? dash).
  - apply separated_cons. split; [|by apply IH].
    intros -> E. apply strip_last_dash_head_two in E as ->.
    by apply H1.
Qed.

Lemma strip_last_dash_units (P : N -> Prop) s :
  Forall P s -> Forall P (strip_last_dash s).
Proof.
  induction 1 as [|a rest Ha Hrest IH]; [done|].
  rewrite strip_last_dash_unfold. destruct rest.
  - destruct (a =? dash); by repeat constructor.
  - by constructor.
Qed.

Lemma strip_last_dash_nil b rest :
  strip_last_dash (b :: rest) = [] -> b = dash /\ rest = [].
Proof.
  rewrite strip_last_dash_unfold. destruct rest; [|done].
  by destruct (N.eqb_spec b dash).
Qed.

Lemma strip_last_dash_last s :
  separated s -> last (strip_last_dash s) <> Some dash.
Proof.
  induction s as [|a rest IH]; [done|].
  intros [H1 H2]%separated_cons.
  rewrite strip_last_dash_unfold. destruct rest as [|b rest'].
  - destruct (N.eqb_spec a dash); [done|]. cbn. by intros [= ?].
  - specialize (IH H2). rewrite last_cons.
    destruct (last (strip_last_dash (b :: rest'))) as [y|] eqn:E; [done|].
    apply last_None in E. apply strip_last_dash_nil in E as [-> ->].
    intros [= ->]. by apply H1.
Qed.

Lemma separated_take n s : separated s -> separated (take n s).
Proof.
  revert n. induction s as [|a rest IH]; intros [|n]; cbn [take]; try done.
  intros [H1 H2]%separated_cons. apply separated_cons. split; [|by apply IH].
  intros E. specialize (H1 E). destruct rest, n; cbn in *; done.
Qed.

Lemma head_take {A} n (s : list A) : head (take (S n) s) = head s.
Proof. by destruct s. Qed.

(** X18: The shape of a key made from a slug.  For a non-empty input,
    whatever lower-casing does to it, the key has at most 64 code units,
    each a lower-case letter, a digit or a dash; it does not start with a
    dash and has no two dashes in a row; and when it is shorter than 64
    units it does not end with a dash either. *)
Theorem generateRkey_shape (toLowerCase : jsstring -> jsstring)
    (fallback : jsstring) (c : N) (s : jsstring) :
  let key := generateRkey toLowerCase fallback (Some (c :: s)) in
  (length key <= 64)%nat
  /\ Forall (fun u => is_key_unit u = true \/ u = dash) key
  /\ head key <> Some dash
  /\ separated key
  /\ ((length key < 64)%nat -> last key <> Some dash).
Proof.
  intros key. subst key. cbn [generateRkey].
  set (t := toLowerCase (c :: s)).
  pose proof (replace_runs_separated false t) as Hsep.
  pose proof (replace_runs_units false t) as Hun.
  set (k := replace_runs false t) in *.
  pose proof (strip_first_dash_separated k Hsep) as Hsep1.
  pose proof (strip_first_dash_head k Hsep) as Hhd1.
  assert (Hun1 : Forall (fun u => is_key_unit u = true \/ u = dash)
                   (strip_first_dash k)).
  { eapply Forall_sublist; [apply strip_first_dash_sublist|done]. }
  set (k1 := strip_first_dash k) in *.
  pose proof (strip_last_dash_separated k1 Hsep1) as Hsep2.
  pose proof (strip_last_dash_head k1 Hhd1) as Hhd2.
  pose proof (strip_last_dash_units _ k1 Hun1) as Hun2.
  pose proof (strip_last_dash_last k1 Hsep1) as Hlast.
  set (k2 := strip_last_dash k1) in *.
  repeat split.
  - rewrite length_take. lia.
  - by apply Forall_take.
  - by rewrite head_take.
  - by apply separated_take.
  - rewrite length_take. intros Hlen.
    rewrite take_ge by lia. done.
Qed.

Lemma replace_runs_no_key r s :
  Forall (fun u => is_key_unit u = false) s ->
  replace_runs r s = if r then [] else match s with [] => [] | _ => [dash] end.
Proof.
  intros H. revert r. induction H as [|c rest Hc _ IH]; intros r; cbn.
  - by destruct r.
  - rewrite Hc, (IH true). by destruct r.
Qed.

(** X19: The empty key.  When the lower-cased input holds no lower-case
    letter and no digit, the key of a non-empty input is the empty string:
    the time-based fallback is used for an empty input only, not for an
    empty result. *)
Theorem generateRkey_empty_key (toLowerCase : jsstring -> jsstring)
    (fallback : jsstring) (c : N) (s : jsstring) :
  Forall (fun u => is_key_unit u = false) (toLowerCase (c :: s)) ->
  generateRkey toLowerCase fallback (Some (c :: s)) = [].
Proof.
  intros H. cbn [generateRkey]. rewrite replace_runs_no_key by done.
  by destruct (toLowerCase (c :: s)).
Qed.

Lemma generateRkey_empty_key_witness :
  generateRkey (fun t => t) (units "fallback") (Some (units "?!")) = [].
Proof.
  apply (generateRkey_empty_key (fun t => t) (units "fallback") 63 [33]).
  repeat constructor.
Defined.

End RkeyFacts.

(* ===================================================================== *)
(** * Properties of the word count                                       *)
(* ===================================================================== *)

Section ContentFacts.

Import Verification Content.
Local Open Scope nat_scope.

Lemma words_cons word pieces :
  words (word :: pieces) = (if 0 <? length word then 1 else 0) + words pieces.
Proof. unfold words. cbn [List.filter]. by destruct (0 <? length word). Qed.

Lemma words_singleton word : words [word] = if 0 <? length word then 1 else 0.
Proof. rewrite words_cons. unfold words. cbn [List.filter length]. lia. Qed.

(** A separator already begun and a fresh start count alike. *)
Lemma words_split_in_run text :
  words (split_whitespace true [] text) = words (split_whitespace false [] text).
Proof.
  destruct text as [|c rest]; cbn [split_whitespace]; [done|].
  destruct (is_whitespace c); [|done].
  by rewrite words_cons.
Qed.

Lemma words_split_separator in_run word a w b :
  (in_run = true -> word = []) ->
  is_whitespace w = true ->
  words (split_whitespace in_run word (a ++ w :: b))
  = words (split_whitespace in_run word a) + words (split_whitespace false [] b).
Proof.
  intros Hinv Hw. revert in_run word Hinv.
  induction a as [|c a IH]; intros in_run word Hinv; cbn [app split_whitespace].
  - rewrite Hw. destruct in_run.
    + rewrite (Hinv eq_refl), words_split_in_run, words_singleton. done.
    + by rewrite words_cons, words_singleton, words_split_in_run.
  - destruct (is_whitespace c).
    + destruct in_run.
      * by apply IH.
      * rewrite !words_cons, IH by done. lia.
    + by apply IH.
Qed.

(** X20: Words on either side of white space.  The count of a text with
    a white-space code unit in it is the sum of the counts of what comes
    before and of what comes after that unit, wherever it stands. *)
Theorem countWords_separator (a : jsstring) (w : N) (b : jsstring) :
  is_whitespace w = true ->
  countWords (a ++ w :: b) = countWords a + countWords b.
Proof.
  intros Hw. unfold countWords.
  by apply words_split_separator.
Qed.

Lemma countWords_separator_witness :
  countWords (units "one two" ++ 32%N :: units " three")
  = countWords (units "one two") + countWords (units " three").
Proof.
  apply (countWords_separator (units "one two") 32%N (units " three")).
  reflexivity.
Defined.

Lemma split_whitespace_solid in_run word text :
  Forall (fun c => is_whitespace c = false) text ->
  split_whitespace in_run word text = [word ++ text].
Proof.
  intros H. revert in_run word.
  induction H as [|c rest Hc _ IH]; intros in_run word; cbn [split_whitespace].
  - by rewrite app_nil_r.
  - rewrite Hc, IH. by rewrite <- app_assoc.
Qed.

Lemma words_split_zero in_run word text :
  words (split_whitespace in_run word text) = 0
  <-> word = [] /\ Forall (fun c => is_whitespace c = true) text.
Proof.
  revert in_run word.
  induction text as [|c rest IH]; intros in_run word; cbn [split_whitespace].
  - rewrite words_singleton. destruct word; cbn; split; try done.
    + by intros [? _].
  - destruct (is_whitespace c) eqn:W.
    + destruct in_run.
      * rewrite IH. split; intros [? H]; (split; [done|]).
        -- by constructor.
        -- by inversion H.
      * rewrite words_cons.
        destruct word as [|u word']; cbn [length Nat.ltb Nat.leb].
        -- cbn. rewrite IH. split; intros H.
           ++ split; [done|]. constructor; [done|]. by destruct H.
           ++ split; [done|]. destruct H as [_ H]. by inversion H.
        -- split; [done|]. by intros [? _].
    + rewrite IH. split.
      * intros [H _]. by destruct word.
      * intros [_ H]. inversion H; congruence.
Qed.

(** X21: Blank text.  A text counts no word exactly when every code unit
    of it is white space; the empty text is one such. *)
Theorem countWords_blank (text : jsstring) :
  countWords text = 0 <-> Forall (fun c => is_whitespace c = true) text.
Proof.
  unfold countWords. rewrite words_split_zero. split; [by intros [_ ?]|done].
Qed.

(** X22: Solid text.  A non-empty text without any white space counts
    one word, whatever its code units are. *)
Theorem countWords_solid (text : jsstring) :
  text <> [] ->
  Forall (fun c => is_whitespace c = false) text ->
  countWords text = 1.
Proof.
  intros Hne Hsolid. unfold countWords.
  rewrite split_whitespace_solid by done.
  rewrite words_singleton. cbn [app]. by destruct text.
Qed.

Lemma countWords_solid_witness : countWords (units "word") = 1.
Proof.
  apply (countWords_solid (units "word")).
  - discriminate.
  - repeat constructor.
Defined.

End ContentFacts.
